(** * terraform-provider-seaweedfs: the IAM client core, embedded in Rocq

    A shallow embedding of the parts of [seaweedfs/client.go],
    [seaweedfs/provider.go] and [seaweedfs/policy_json.go] that carry the
    design decisions of the provider: the error taxonomy, the retry engine,
    client construction, error-body classification, the per-user lock
    registry and the policy-document comparator.

    Conventions.
    - A Go [string] is a sequence of bytes: [String.string] (whose characters
      are the 256 [ascii] values), or [list ascii] where the Go code works on
      [[]byte].
    - A Go [int] / [time.Duration] is a [Z]; no computation below leaves the
      64-bit range.
    - A Go [error] interface value is an [option error]: [None] is [nil].
    - Code that talks to the network or to the XML decoder is a parameter
      of the function that uses it.
    - [json.Unmarshal] into an [any] and [json.Marshal] of the result, the
      two library calls of the comparator, are embedded from the sources of
      [encoding/json] and [strconv]; a [float64] is a [spec_float].

    Part I holds the definitions, Part II the lemmas and theorems. *)

From stdpp Require Import base gmap strings list.
From Stdlib Require Import ZArith Ascii String List Lia SpecFloat DecimalString.
From Stdlib Require DecimalPos DecimalZ.
Import ListNotations.

(* ================================================================== *)
(** * Part I: definitions *)
(* ================================================================== *)

(* ------------------------------------------------------------------ *)
(** ** Errors ([client.go], lines 38-41 and 81-86) *)

(** [type iamError struct { Code string; Message string }] *)
Record iamError : Type := IamError { Code : string; Message : string }.

(** The non-nil values of Go's [error] interface that this package builds or
    receives: an [iamError] value, an opaque error ([errors.New], transport
    and context errors), and an error wrapping another one
    ([fmt.Errorf("...: %w", err)]). *)
Inductive error : Type :=
| ErrIAM (e : iamError)
| ErrOpaque (text : string)
| ErrWrap (text : string) (inner : error).

(** [errors.As(err, &apiErr)] with [apiErr] of type [iamError]: the first
    error of the [Unwrap] chain that is an [iamError]; [errors.As] of a nil
    error is false. *)
Fixpoint as_iamError (err : error) : option iamError :=
  match err with
  | ErrIAM e => Some e
  | ErrOpaque _ => None
  | ErrWrap _ inner => as_iamError inner
  end.

Definition errors_As (err : option error) : option iamError :=
  match err with
  | None => None
  | Some e => as_iamError e
  end.

(** [func (e iamError) Error() string] *)
Definition iamError_Error (e : iamError) : string :=
  if (String.eqb (Code e) "" && String.eqb (Message e) "")%bool
  then "unknown IAM error"%string
  else (Code e ++ ": " ++ Message e)%string.

(* ------------------------------------------------------------------ *)
(** ** The error classifier ([client.go], lines 382-408 and 449-463) *)

Definition isNoSuchEntityError (err : option error) : bool :=
  match errors_As err with
  | Some apiErr => String.eqb (Code apiErr) "NoSuchEntity"
  | None => false
  end.

Definition isEntityAlreadyExistsError (err : option error) : bool :=
  match errors_As err with
  | Some apiErr => String.eqb (Code apiErr) "EntityAlreadyExists"
  | None => false
  end.

Definition isServiceFailureError (err : option error) : bool :=
  match errors_As err with
  | Some apiErr =>
      String.eqb (Code apiErr) "ServiceFailure"
      || String.eqb (Code apiErr) "HTTP500"
      || String.eqb (Code apiErr) "HTTP503"
  | None => false
  end.

Definition isRetryableIAMError (err : option error) : bool :=
  isNoSuchEntityError err || isServiceFailureError err.

Definition isNoSuchBucketError (err : option error) : bool :=
  match errors_As err with
  | Some apiErr =>
      String.eqb (Code apiErr) "NoSuchBucket"
      || String.eqb (Code apiErr) "NotFound"
      || String.eqb (Code apiErr) "NoSuchKey"
      || String.eqb (Code apiErr) "NoSuchEntity"
  | None => false
  end.

Definition isBucketAlreadyExistsError (err : option error) : bool :=
  match errors_As err with
  | Some apiErr =>
      String.eqb (Code apiErr) "BucketAlreadyOwnedByYou"
      || String.eqb (Code apiErr) "BucketAlreadyExists"
  | None => false
  end.

(* ------------------------------------------------------------------ *)
(** ** The retry engine ([client.go], lines 410-447) *)

(** Durations are nanoseconds, as [time.Duration]. *)
Definition Millisecond : Z := 1000000.
Definition Second : Z := 1000000000.

(** What one call of [retryIAMEventuallyConsistent] did: the error it
    returned, how often it invoked [fn], the state [fn] left behind, and the
    delays it waited through, in order. *)
Record retryRun (S : Type) : Type := RetryRun {
  returned : option error;
  invocations : nat;
  final : S;
  waits : list Z
}.
Arguments RetryRun {S}.
Arguments returned {S}.
Arguments invocations {S}.
Arguments final {S}.
Arguments waits {S}.

Section Retry.
(** [fn] is a closure: [S] is the state it captures, and one invocation
    maps the state to the returned error and the next state. *)
Context {S : Type}.
(** The [select] of the backoff wait that follows the failed attempt [i]:
    [Some e] when [ctx.Done()] is taken, [e] being [ctx.Err()]; [None] when
    the timer fires. *)
Variable ctx : Z -> option error.
Variable fn : S -> option error * S.

(** The [for i := 0; i < attempts; i++] loop; [fuel] bounds the number of
    iterations left and is [attempts - i] throughout. *)
Fixpoint retry_loop (fuel : nat) (attempts i delay : Z) (lastErr : option error)
         (s : S) (n : nat) (ws : list Z) : retryRun S :=
  match fuel with
  | O => RetryRun lastErr n s ws
  | Datatypes.S fuel' =>
      if (i <? attempts)%Z then
        let '(err, s') := fn s in
        match err with
        | None => RetryRun None (n + 1) s' ws
        | Some _ =>
            if negb (isRetryableIAMError err) then RetryRun err (n + 1) s' ws
            else
              let lastErr := err in
              if (i =? attempts - 1)%Z then RetryRun lastErr (n + 1) s' ws
              else
                match ctx i with
                | Some ctxErr => RetryRun (Some ctxErr) (n + 1) s' ws
                | None =>
                    let delay2 := (delay * 2)%Z in
                    let delay' :=
                      if (delay2 >? 2 * Second)%Z then (2 * Second)%Z else delay2 in
                    retry_loop fuel' attempts (i + 1)%Z delay' lastErr s' (n + 1)
                               (ws ++ [delay])
                end
        end
      else RetryRun lastErr n s ws
  end.

Definition retryIAMEventuallyConsistent (attempts : Z) (s : S) : retryRun S :=
  let attempts := if (attempts <? 1)%Z then 1%Z else attempts in
  retry_loop (Z.to_nat attempts) attempts 0%Z (200 * Millisecond)%Z None s 0 [].

(** The state before the [k]-th invocation of [fn] (counting from 0), and
    what that invocation returns. *)
Fixpoint state_before (k : nat) (s : S) : S :=
  match k with
  | O => s
  | Datatypes.S k' => state_before k' (snd (fn s))
  end.

Definition outcome (k : nat) (s : S) : option error := fst (fn (state_before k s)).

(** The invocation [k] fails with an error the classifier calls retryable. *)
Definition fails_retryable (k : nat) (s : S) : Prop :=
  exists e, outcome k s = Some e /\ isRetryableIAMError (Some e) = true.
End Retry.

(** The inputs of the examples: the closure of [TestRetryIAMEventuallyConsistent]
    (a counter; the first two invocations fail with [ServiceFailure]), an
    operation that fails with [ServiceFailure] forever, one that fails with
    the opaque error of the second test, a context that is never done and a
    context that is already cancelled. *)
Definition temporary : error := ErrIAM (IamError "ServiceFailure" "temporary").
Definition fails_twice (attempts : nat) : option error * nat :=
  let attempts := (attempts + 1)%nat in
  if (attempts <? 3)%nat then (Some temporary, attempts) else (None, attempts).
Definition always_ServiceFailure (u : unit) : option error * unit := (Some temporary, u).
Definition boom (attempts : nat) : option error * nat :=
  (Some (ErrOpaque "boom"), (attempts + 1)%nat).
Definition context_Background (i : Z) : option error := None.
Definition context_Canceled : error := ErrOpaque "context canceled".
Definition context_cancelled (i : Z) : option error := Some context_Canceled.

(* ------------------------------------------------------------------ *)
(** ** Bytes, runes and the library string functions the code calls *)

(** The value of a byte. *)
Definition byte_val (c : ascii) : Z := Z.of_N (N_of_ascii c).
Definition byte_of (z : Z) : ascii := ascii_of_N (Z.to_N z).

(** [unicode/utf8]: [RuneError], [RuneSelf], [UTFMax]. *)
Definition RuneError : Z := 65533.
Definition RuneSelf : Z := 128.
Definition UTFMax : nat := 4.

(** The table [first] of [unicode/utf8], read through [acceptRanges]: for a
    leading byte, the length of the sequence and the range its second byte
    must lie in; [None] for the bytes marked invalid ([xx]). ASCII bytes are
    handled before the table is consulted. *)
Definition utf8_first (b0 : Z) : option (nat * Z * Z) :=
  if (b0 <? 194)%Z then None                          (* 0x80-0xC1 *)
  else if (b0 <=? 223)%Z then Some (2%nat, 128, 191)%Z   (* 0xC2-0xDF: s1 *)
  else if (b0 =? 224)%Z then Some (3%nat, 160, 191)%Z    (* 0xE0: s2 *)
  else if (b0 <=? 236)%Z then Some (3%nat, 128, 191)%Z   (* 0xE1-0xEC: s3 *)
  else if (b0 =? 237)%Z then Some (3%nat, 128, 159)%Z    (* 0xED: s4 *)
  else if (b0 <=? 239)%Z then Some (3%nat, 128, 191)%Z   (* 0xEE-0xEF: s3 *)
  else if (b0 =? 240)%Z then Some (4%nat, 144, 191)%Z    (* 0xF0: s5 *)
  else if (b0 <=? 243)%Z then Some (4%nat, 128, 191)%Z   (* 0xF1-0xF3: s6 *)
  else if (b0 =? 244)%Z then Some (4%nat, 128, 143)%Z    (* 0xF4: s7 *)
  else None.                                          (* 0xF5-0xFF *)

(** [utf8.DecodeRune] / [utf8.DecodeRuneInString]: the first rune of [p] and
    its width in bytes; [(RuneError, 0)] for the empty input and
    [(RuneError, 1)] for an invalid encoding. *)
Definition utf8_DecodeRune (p : list ascii) : Z * nat :=
  match p with
  | [] => (RuneError, 0%nat)
  | c0 :: p1 =>
      let b0 := byte_val c0 in
      if (b0 <? RuneSelf)%Z then (b0, 1%nat)
      else
        match utf8_first b0 with
        | None => (RuneError, 1%nat)
        | Some (sz, lo, hi) =>
            if (length p <? sz)%nat then (RuneError, 1%nat)
            else
              match p1 with
              | [] => (RuneError, 1%nat)
              | c1 :: p2 =>
                  let b1 := byte_val c1 in
                  if ((b1 <? lo) || (hi <? b1))%Z then (RuneError, 1%nat)
                  else if (sz <=? 2)%nat then
                    (Z.lor (Z.shiftl (Z.land b0 31) 6) (Z.land b1 63), 2%nat)
                  else
                    match p2 with
                    | [] => (RuneError, 1%nat)
                    | c2 :: p3 =>
                        let b2 := byte_val c2 in
                        if ((b2 <? 128) || (191 <? b2))%Z then (RuneError, 1%nat)
                        else if (sz <=? 3)%nat then
                          (Z.lor (Z.lor (Z.shiftl (Z.land b0 15) 12)
                                        (Z.shiftl (Z.land b1 63) 6))
                                 (Z.land b2 63), 3%nat)
                        else
                          match p3 with
                          | [] => (RuneError, 1%nat)
                          | c3 :: _ =>
                              let b3 := byte_val c3 in
                              if ((b3 <? 128) || (191 <? b3))%Z then (RuneError, 1%nat)
                              else
                                (Z.lor (Z.lor (Z.lor (Z.shiftl (Z.land b0 7) 18)
                                                     (Z.shiftl (Z.land b1 63) 12))
                                              (Z.shiftl (Z.land b2 63) 6))
                                       (Z.land b3 63), 4%nat)
                          end
                    end
              end
        end
  end.

(** [utf8.RuneStart]: the byte is not a continuation byte. *)
Definition utf8_RuneStart (c : ascii) : bool :=
  negb (Z.land (byte_val c) 192 =? 128)%Z.

(** The backward scan of [utf8.DecodeLastRune]:
    [for start--; start >= lim; start-- { if RuneStart(p[start]) { break } }],
    entered with [start] already decremented. *)
Fixpoint last_rune_start (fuel : nat) (p : list ascii) (start lim : Z) : Z :=
  match fuel with
  | O => start
  | Datatypes.S fuel' =>
      if (start >=? lim)%Z then
        if utf8_RuneStart (nth (Z.to_nat start) p zero) then start
        else last_rune_start fuel' p (start - 1)%Z lim
      else start
  end.

(** [utf8.DecodeLastRune] / [utf8.DecodeLastRuneInString]. *)
Definition utf8_DecodeLastRune (p : list ascii) : Z * nat :=
  let end_ := Z.of_nat (length p) in
  if (end_ =? 0)%Z then (RuneError, 0%nat)
  else
    let start := (end_ - 1)%Z in
    let r := byte_val (nth (Z.to_nat start) p zero) in
    if (r <? RuneSelf)%Z then (r, 1%nat)
    else
      let lim := (end_ - Z.of_nat UTFMax)%Z in
      let lim := if (lim <? 0)%Z then 0%Z else lim in
      let start := last_rune_start UTFMax p (start - 1)%Z lim in
      let start := if (start <? 0)%Z then 0%Z else start in
      let '(r, size) := utf8_DecodeRune (skipn (Z.to_nat start) p) in
      if negb (start + Z.of_nat size =? end_)%Z then (RuneError, 1%nat)
      else (r, size).

(** [utf8.EncodeRune] / [utf8.AppendRune]. *)
Definition utf8_EncodeRune (r : Z) : list ascii :=
  if ((0 <=? r) && (r <=? 127))%Z then [byte_of r]
  else if ((0 <=? r) && (r <=? 2047))%Z then
    [byte_of (Z.lor 192 (Z.shiftr r 6)); byte_of (Z.lor 128 (Z.land r 63))]
  else if ((r <? 0) || (1114111 <? r) || ((55296 <=? r) && (r <=? 57343)))%Z then
    [byte_of 239; byte_of 191; byte_of 189]
  else if (r <=? 65535)%Z then
    [byte_of (Z.lor 224 (Z.shiftr r 12));
     byte_of (Z.lor 128 (Z.land (Z.shiftr r 6) 63));
     byte_of (Z.lor 128 (Z.land r 63))]
  else
    [byte_of (Z.lor 240 (Z.shiftr r 18));
     byte_of (Z.lor 128 (Z.land (Z.shiftr r 12) 63));
     byte_of (Z.lor 128 (Z.land (Z.shiftr r 6) 63));
     byte_of (Z.lor 128 (Z.land r 63))].

(** [unicode.IsSpace]: the Latin-1 cases, then the [White_Space] table. *)
Definition unicode_IsSpace (r : Z) : bool :=
  if ((0 <=? r) && (r <=? 255))%Z then
    ((r =? 9) || (r =? 10) || (r =? 11) || (r =? 12) || (r =? 13) || (r =? 32)
     || (r =? 133) || (r =? 160))%Z
  else
    ((r =? 5760) || ((8192 <=? r) && (r <=? 8202)) || (r =? 8232) || (r =? 8233)
     || (r =? 8239) || (r =? 8287) || (r =? 12288))%Z.

(** The table [asciiSpace] of package [strings]. *)
Definition asciiSpace (c : ascii) : bool :=
  let b := byte_val c in
  ((b =? 9) || (b =? 10) || (b =? 11) || (b =? 12) || (b =? 13) || (b =? 32))%Z.

(** [strings.TrimLeftFunc(s, unicode.IsSpace)]: [indexFunc] ranges over the
    runes of [s] and stops at the first that is not a space. *)
Fixpoint TrimLeftFunc_IsSpace (fuel : nat) (s : list ascii) : list ascii :=
  match fuel with
  | O => []
  | Datatypes.S fuel' =>
      match s with
      | [] => []
      | _ :: _ =>
          let '(r, size) := utf8_DecodeRune s in
          if unicode_IsSpace r then TrimLeftFunc_IsSpace fuel' (skipn size s) else s
      end
  end.

(** [lastIndexFunc(s, unicode.IsSpace, false)], from the index [i] down. *)
Fixpoint lastIndexFunc_IsSpace (fuel : nat) (s : list ascii) (i : nat) : Z :=
  match fuel with
  | O => (-1)%Z
  | Datatypes.S fuel' =>
      if (0 <? i)%nat then
        let '(r, size) := utf8_DecodeLastRune (firstn i s) in
        let i := (i - size)%nat in
        if unicode_IsSpace r then lastIndexFunc_IsSpace fuel' s i else Z.of_nat i
      else (-1)%Z
  end.

(** [strings.TrimRightFunc(s, unicode.IsSpace)]. *)
Definition TrimRightFunc_IsSpace (s : list ascii) : list ascii :=
  let i := lastIndexFunc_IsSpace (length s) s (length s) in
  let i :=
    if ((0 <=? i)%Z && (RuneSelf <=? byte_val (nth (Z.to_nat i) s zero))%Z)%bool then
      (i + Z.of_nat (snd (utf8_DecodeRune (skipn (Z.to_nat i) s))))%Z
    else (i + 1)%Z in
  firstn (Z.to_nat i) s.

(** [strings.TrimFunc(s, unicode.IsSpace)]. *)
Definition TrimFunc_IsSpace (s : list ascii) : list ascii :=
  TrimRightFunc_IsSpace (TrimLeftFunc_IsSpace (length s) s).

(** The second loop of [strings.TrimSpace], on the reversal of
    [s[start:]]: it drops ASCII spaces from the end, and hands over to
    [TrimRightFunc] at the first byte that is not ASCII. *)
Fixpoint TrimSpace_stop (rs : list ascii) : list ascii :=
  match rs with
  | [] => []
  | c :: rs' =>
      if (RuneSelf <=? byte_val c)%Z then TrimRightFunc_IsSpace (rev rs)
      else if asciiSpace c then TrimSpace_stop rs'
      else rev rs
  end.

(** The first loop of [strings.TrimSpace]: it drops ASCII spaces from the
    start, and hands over to [TrimFunc] at the first byte that is not
    ASCII. *)
Fixpoint TrimSpace_bytes (s : list ascii) : list ascii :=
  match s with
  | [] => []
  | c :: s' =>
      if (RuneSelf <=? byte_val c)%Z then TrimFunc_IsSpace s
      else if asciiSpace c then TrimSpace_bytes s'
      else TrimSpace_stop (rev s)
  end.

(** [strings.TrimSpace]. *)
Definition strings_TrimSpace (s : string) : string :=
  string_of_list_ascii (TrimSpace_bytes (list_ascii_of_string s)).

(** [strings.TrimRight(s, "/")]: with a one-byte cutset, every trailing
    occurrence of that byte is removed. *)
Fixpoint trim_right_byte_rev (c : ascii) (rs : list ascii) : list ascii :=
  match rs with
  | [] => []
  | x :: rs' => if Ascii.eqb x c then trim_right_byte_rev c rs' else rev rs
  end.

Definition strings_TrimRight_byte (s : string) (c : ascii) : string :=
  string_of_list_ascii (trim_right_byte_rev c (rev (list_ascii_of_string s))).

(** [fmt.Sprintf("%d", n)]. *)
Definition itoa (n : Z) : string := DecimalString.NilZero.string_of_int (Z.to_int n).

(** The outcome of a Go function returning [(T, error)] with exactly one of
    the two set. *)
Inductive result (A : Type) : Type :=
| Ok (a : A)
| Fail (e : error).
Arguments Ok {A}.
Arguments Fail {A}.

Definition is_Fail {A : Type} (r : result A) : bool :=
  match r with Ok _ => false | Fail _ => true end.

(* ------------------------------------------------------------------ *)
(** ** Client construction ([client.go], lines 22-36 and 103-135) *)

Record iamClientConfig : Type := IamClientConfig {
  Endpoint : string;
  Region : string;
  AccessKey : string;
  SecretKey : string;
  Insecure : bool
}.

(** [credentials.NewStaticCredentialsProvider(key, secret, session)]. *)
Record staticCredentials : Type := StaticCredentials {
  AccessKeyID : string;
  SecretAccessKey : string;
  SessionToken : string
}.

(** [&http.Client{Transport: tr, Timeout: ...}], [tr] carrying a TLS
    configuration only when certificate validation is switched off. *)
Record httpClient : Type := HttpClient {
  InsecureSkipVerify : bool;
  Timeout : Z
}.

(** The fields of [iamClient]. The signer is [v4.NewSigner] with
    [DisableURIPathEscaping] set; the later revision of the file also keeps
    an S3 client built from the same region, credentials, HTTP client and
    endpoint, with path-style addressing. *)
Record iamClient : Type := IamClient {
  endpoint : string;
  region : string;
  creds : staticCredentials;
  signer_DisableURIPathEscaping : bool;
  http : httpClient
}.

Definition newIAMClient (cfg : iamClientConfig) : result iamClient :=
  if String.eqb (Endpoint cfg) "" then Fail (ErrOpaque "endpoint is required")
  else
    let Region' := if String.eqb (Region cfg) "" then "us-east-1"%string else Region cfg in
    if (String.eqb (AccessKey cfg) "" || String.eqb (SecretKey cfg) "")%bool
    then Fail (ErrOpaque "access_key and secret_key are required")
    else
      Ok {| endpoint := strings_TrimRight_byte (Endpoint cfg) "/";
            region := Region';
            creds := StaticCredentials (AccessKey cfg) (SecretKey cfg) "";
            signer_DisableURIPathEscaping := true;
            http := HttpClient (Insecure cfg) (30 * Second) |}.

(* ------------------------------------------------------------------ *)
(** ** Error bodies ([client.go], lines 43-52 and 341-380) *)

(** [iamAPIError] and [iamErrorEnvelope], the targets of [xml.Unmarshal]. *)
Record iamAPIError : Type := IamAPIError {
  api_Code : string;
  api_Message : string
}.

Record iamErrorEnvelope : Type := IamErrorEnvelope {
  env_Code : string;
  env_Message : string;
  env_Error : iamAPIError
}.

Section ParseAPIError.
(** [xml.Unmarshal(data, &envelope)] and [xml.Unmarshal(data, &direct)],
    started on zero-valued targets: [None] when the decoder reports an
    error, the filled structure otherwise. *)
Variable xml_Unmarshal_envelope : list ascii -> option iamErrorEnvelope.
Variable xml_Unmarshal_direct : list ascii -> option iamAPIError.

Definition synthetic (status : Z) (data : list ascii) : iamError :=
  {| Code := ("HTTP" ++ itoa status)%string;
     Message := strings_TrimSpace (string_of_list_ascii data) |}.

Definition parseAPIError (status : Z) (data : list ascii) : error :=
  let fallback := ErrIAM (synthetic status data) in
  match xml_Unmarshal_envelope data with
  | Some envelope =>
      let code := api_Code (env_Error envelope) in
      let message := api_Message (env_Error envelope) in
      let code := if String.eqb code "" then env_Code envelope else code in
      let message := if String.eqb message "" then env_Message envelope else message in
      let '(code, message) :=
        if (String.eqb code "" || String.eqb message "")%bool then
          match xml_Unmarshal_direct data with
          | Some direct =>
              (if String.eqb code "" then api_Code direct else code,
               if String.eqb message "" then api_Message direct else message)
          | None => (code, message)
          end
        else (code, message) in
      if (negb (String.eqb code "") || negb (String.eqb message ""))%bool then
        let code := if String.eqb code "" then ("HTTP" ++ itoa status)%string else code in
        let message :=
          if String.eqb message "" then strings_TrimSpace (string_of_list_ascii data)
          else message in
        ErrIAM {| Code := code; Message := message |}
      else fallback
  | None => fallback
  end.

(** Neither a code nor a message can be decoded from [data]: the decoder
    rejects the body, or it leaves the nested [Error] element, the
    top-level fields and the bare element all empty. *)
Definition nothing_decoded (data : list ascii) : Prop :=
  match xml_Unmarshal_envelope data with
  | None => True
  | Some envelope =>
      api_Code (env_Error envelope) = ""%string
      /\ api_Message (env_Error envelope) = ""%string
      /\ env_Code envelope = ""%string
      /\ env_Message envelope = ""%string
      /\ match xml_Unmarshal_direct data with
         | None => True
         | Some direct => api_Code direct = ""%string /\ api_Message direct = ""%string
         end
  end.
End ParseAPIError.

(** Decoders for the examples: they agree with [encoding/xml] on the error
    bodies written out below, and reject every other body. *)
Definition sample_body_nested : list ascii := list_ascii_of_string
  "<ErrorResponse><Error><Code>NoSuchEntity</Code><Message>Not found</Message></Error></ErrorResponse>".
Definition sample_body_bare : list ascii := list_ascii_of_string
  "<Error><Code>NoSuchBucket</Code><Message>Not Found</Message></Error>".
Definition sample_body_empty : list ascii := list_ascii_of_string
  " <Error></Error> ".
Definition sample_body_text : list ascii := list_ascii_of_string
  "  upstream connect error  ".

Definition bytes_eqb (a b : list ascii) : bool :=
  String.eqb (string_of_list_ascii a) (string_of_list_ascii b).

Definition sample_xml_envelope (data : list ascii) : option iamErrorEnvelope :=
  if bytes_eqb data sample_body_nested
  then Some (IamErrorEnvelope "" "" (IamAPIError "NoSuchEntity" "Not found"))
  else if bytes_eqb data sample_body_bare
  then Some (IamErrorEnvelope "NoSuchBucket" "Not Found" (IamAPIError "" ""))
  else if bytes_eqb data sample_body_empty
  then Some (IamErrorEnvelope "" "" (IamAPIError "" ""))
  else None.

Definition sample_xml_direct (data : list ascii) : option iamAPIError :=
  if bytes_eqb data sample_body_nested then Some (IamAPIError "" "")
  else if bytes_eqb data sample_body_bare then Some (IamAPIError "NoSuchBucket" "Not Found")
  else if bytes_eqb data sample_body_empty then Some (IamAPIError "" "")
  else None.

(* ------------------------------------------------------------------ *)
(** ** [GetUserPolicy] ([client.go], lines 62-66 and 224-241) *)

(** [ishex] and [unhex] of [net/url]. *)
Definition ishex (c : ascii) : bool :=
  let b := byte_val c in
  (((48 <=? b) && (b <=? 57)) || ((97 <=? b) && (b <=? 102))
   || ((65 <=? b) && (b <=? 70)))%Z.

Definition unhex (c : ascii) : Z :=
  let b := byte_val c in
  if ((48 <=? b) && (b <=? 57))%Z then (b - 48)%Z
  else if ((97 <=? b) && (b <=? 102))%Z then (b - 97 + 10)%Z
  else if ((65 <=? b) && (b <=? 70))%Z then (b - 65 + 10)%Z
  else 0%Z.

(** The first pass of [unescape] in mode [encodeQueryComponent]: every
    ['%'] must be followed by two hexadecimal digits; [Some bad] is the
    [EscapeError], [bad] being at most three bytes from the offending
    ['%'] on. *)
Fixpoint unescape_check (s : list ascii) : option (list ascii) :=
  match s with
  | [] => None
  | c :: r =>
      if Ascii.eqb c "%" then
        match r with
        | h1 :: h2 :: r' =>
            if (ishex h1 && ishex h2)%bool then unescape_check r'
            else Some (firstn 3 s)
        | _ => Some (firstn 3 s)
        end
      else unescape_check r
  end.

(** The second pass: ["%XX"] becomes the byte [XX] and ['+'] a space. *)
Fixpoint unescape_decode (s : list ascii) : list ascii :=
  match s with
  | [] => []
  | c :: r =>
      if Ascii.eqb c "%" then
        match r with
        | h1 :: h2 :: r' =>
            byte_of (Z.lor (Z.shiftl (unhex h1) 4) (unhex h2)) :: unescape_decode r'
        | _ => []
        end
      else if Ascii.eqb c "+" then " "%char :: unescape_decode r
      else c :: unescape_decode r
  end.

(** [url.QueryUnescape]. *)
Definition url_QueryUnescape (s : string) : result string :=
  match unescape_check (list_ascii_of_string s) with
  | Some bad =>
      Fail (ErrOpaque ("invalid URL escape " ++ string_of_list_ascii bad))
  | None => Ok (string_of_list_ascii (unescape_decode (list_ascii_of_string s)))
  end.

Record getUserPolicyResponse : Type := GetUserPolicyResponse {
  resp_UserName : string;
  resp_PolicyName : string;
  resp_PolicyDocument : string
}.

(** [url.Values] with [Set]: one value per key. *)
Definition url_Values_Set (k v : string) (vals : gmap string (list string))
  : gmap string (list string) := <[k := [v]]> vals.

Section GetUserPolicy.
(** [c.doIAMAction(ctx, vals, &out)] with [out] a zero-valued
    [getUserPolicyResponse]: the signed request and the decoding of its
    reply, giving the decoded structure or the error. *)
Variable doIAMAction : gmap string (list string) -> result getUserPolicyResponse.

Definition GetUserPolicy (userName policyName : string) : string * option error :=
  let vals := (∅ : gmap string (list string)) in
  let vals := url_Values_Set "Action" "GetUserPolicy" vals in
  let vals := url_Values_Set "Version" "2010-05-08" vals in
  let vals := url_Values_Set "UserName" userName vals in
  let vals := url_Values_Set "PolicyName" policyName vals in
  match doIAMAction vals with
  | Fail err => (""%string, Some err)
  | Ok out =>
      match url_QueryUnescape (resp_PolicyDocument out) with
      | Fail _ => (resp_PolicyDocument out, None)
      | Ok decoded => (decoded, None)
      end
  end.

(** The form [GetUserPolicy] posts. *)
Definition GetUserPolicy_form (userName policyName : string) : gmap string (list string) :=
  url_Values_Set "PolicyName" policyName
    (url_Values_Set "UserName" userName
       (url_Values_Set "Version" "2010-05-08"
          (url_Values_Set "Action" "GetUserPolicy" ∅))).
End GetUserPolicy.

(* ------------------------------------------------------------------ *)
(** ** The per-user lock registry ([provider.go], lines 31-63) *)

(** [providerData]. A [sync.Mutex] is [true] while it is locked. The
    mutexes that [&sync.Mutex{}] has allocated live in [mutexes], and a
    [*sync.Mutex] is an index into it. [userLocks] is [None] while the map
    is nil. *)
Record providerData : Type := ProviderData {
  iamWrite : bool;
  lockMu : bool;
  userLocks : option (gmap string nat);
  mutexes : list bool
}.

Definition set_iamWrite (b : bool) (d : providerData) : providerData :=
  ProviderData b (lockMu d) (userLocks d) (mutexes d).
Definition set_lockMu (b : bool) (d : providerData) : providerData :=
  ProviderData (iamWrite d) b (userLocks d) (mutexes d).
Definition set_mutex (lock : nat) (b : bool) (d : providerData) : providerData :=
  ProviderData (iamWrite d) (lockMu d) (userLocks d) (<[lock := b]> (mutexes d)).

(** How a call of [fn] ends: it returns its error, or it panics. *)
Inductive fn_outcome : Type :=
| Returns (err : option error)
| Panics (value : string).

(** The statements of one call [d.withUserLock(userName, fn)], with
    [getUserLock] inlined; a deferred call sits at the point where it
    runs. *)
Inductive pc : Type :=
| AtGateLock                                        (* 39: d.iamWrite.Lock() *)
| AtRegistryLock                                    (* 49: d.lockMu.Lock() *)
| AtRegistryLookup                                  (* 52-62 *)
| AtRegistryUnlock (lock : nat)                     (* 50: deferred d.lockMu.Unlock() *)
| AtUserLock (lock : nat)                           (* 43: lock.Lock() *)
| InBody (lock : nat)                               (* 45: fn() *)
| AtUserUnlock (lock : nat) (res : fn_outcome)      (* 44: deferred lock.Unlock() *)
| AtGateUnlock (res : fn_outcome)                   (* 40: deferred d.iamWrite.Unlock() *)
| Finished (res : fn_outcome).

(** What a step does to the locks. *)
Inductive lock_name : Type := Gate | Registry | UserLock (lock : nat).
Inductive event : Type :=
| Acquire (l : lock_name)
| Release (l : lock_name)
| Lookup (userName : string) (lock : nat)
| Call.

(** Lines 52-62 of [getUserLock]: the map is made when it is nil; a
    registered lock is returned; otherwise a new mutex is allocated and
    registered. *)
Definition getUserLock_lookup (userName : string) (d : providerData) : nat * providerData :=
  let locks := match userLocks d with None => ∅ | Some locks => locks end in
  match locks !! userName with
  | Some lock => (lock, ProviderData (iamWrite d) (lockMu d) (Some locks) (mutexes d))
  | None =>
      let lock := length (mutexes d) in
      (lock, ProviderData (iamWrite d) (lockMu d) (Some (<[userName := lock]> locks))
                          (mutexes d ++ [false]))
  end.

Section WithUserLock.
(** [W] is the state the wrapped functions work on. *)
Context {W : Type}.

(** One step of a call at [p]. [None]: the call cannot move, because it
    waits for a locked mutex, because it has finished, or because it
    would unlock a mutex that is not locked (a fatal error of the
    runtime). *)
Definition call_step (userName : string) (fn : W -> fn_outcome * W) (p : pc)
           (d : providerData) (w : W) : option (pc * providerData * W * event) :=
  match p with
  | AtGateLock =>
      if iamWrite d then None
      else Some (AtRegistryLock, set_iamWrite true d, w, Acquire Gate)
  | AtRegistryLock =>
      if lockMu d then None
      else Some (AtRegistryLookup, set_lockMu true d, w, Acquire Registry)
  | AtRegistryLookup =>
      let '(lock, d') := getUserLock_lookup userName d in
      Some (AtRegistryUnlock lock, d', w, Lookup userName lock)
  | AtRegistryUnlock lock =>
      if lockMu d then Some (AtUserLock lock, set_lockMu false d, w, Release Registry)
      else None
  | AtUserLock lock =>
      match mutexes d !! lock with
      | Some false => Some (InBody lock, set_mutex lock true d, w, Acquire (UserLock lock))
      | _ => None
      end
  | InBody lock =>
      let '(res, w') := fn w in
      Some (AtUserUnlock lock res, d, w', Call)
  | AtUserUnlock lock res =>
      match mutexes d !! lock with
      | Some true => Some (AtGateUnlock res, set_mutex lock false d, w, Release (UserLock lock))
      | _ => None
      end
  | AtGateUnlock res =>
      if iamWrite d then Some (Finished res, set_iamWrite false d, w, Release Gate)
      else None
  | Finished _ => None
  end.

(** A call on its own, from [p] on: the outcome it ends with, the final
    data and state, and the events in order. [None] when it gets stuck
    or needs more than [fuel] steps. *)
Fixpoint run_call (fuel : nat) (userName : string) (fn : W -> fn_outcome * W) (p : pc)
         (d : providerData) (w : W) : option (fn_outcome * providerData * W * list event) :=
  match p with
  | Finished res => Some (res, d, w, [])
  | _ =>
      match fuel with
      | O => None
      | Datatypes.S fuel' =>
          match call_step userName fn p d w with
          | None => None
          | Some (p', d', w', ev) =>
              match run_call fuel' userName fn p' d' w' with
              | None => None
              | Some (res, d'', w'', evs) => Some (res, d'', w'', ev :: evs)
              end
          end
      end
  end.

(** [d.withUserLock(userName, fn)], called while nothing else runs. *)
Definition withUserLock (userName : string) (fn : W -> fn_outcome * W)
           (d : providerData) (w : W) : option (fn_outcome * providerData * W * list event) :=
  run_call 8 userName fn AtGateLock d w.

(** Concurrent calls: each has its arguments and its program point. *)
Record call : Type := CallAt {
  call_userName : string;
  call_fn : W -> fn_outcome * W;
  call_pc : pc
}.

Record system : Type := System {
  sys_data : providerData;
  sys_state : W;
  sys_calls : list call
}.

(** One call takes one step; the others stay where they are. *)
Inductive system_step : system -> system -> Prop :=
| Step_call (st : system) (i : nat) (c : call) (p' : pc) (d' : providerData) (w' : W)
            (ev : event) :
    sys_calls st !! i = Some c ->
    call_step (call_userName c) (call_fn c) (call_pc c) (sys_data st) (sys_state st)
      = Some (p', d', w', ev) ->
    system_step st
      (System d' w' (<[i := CallAt (call_userName c) (call_fn c) p']> (sys_calls st))).

(** The provider starts with every mutex free (and, after [Configure],
    with an empty map), and every call at its first statement. *)
Definition initial (st : system) : Prop :=
  iamWrite (sys_data st) = false
  /\ lockMu (sys_data st) = false
  /\ Forall (fun b => b = false) (mutexes (sys_data st))
  /\ Forall (fun c => call_pc c = AtGateLock) (sys_calls st).

Inductive reachable : system -> Prop :=
| Reach_initial (st : system) : initial st -> reachable st
| Reach_step (st st' : system) : reachable st -> system_step st st' -> reachable st'.

(** The call is executing its wrapped function. *)
Definition in_body (c : call) : Prop :=
  match call_pc c with InBody _ => True | _ => False end.

(** The call holds the global write gate. *)
Definition holds_gate (p : pc) : Prop :=
  match p with AtGateLock | Finished _ => False | _ => True end.

(** The gate is locked exactly while one call is between its
    acquisition and its release. *)
Definition gate_invariant (st : system) : Prop :=
  (iamWrite (sys_data st) = false ->
   forall i c, sys_calls st !! i = Some c -> ~ holds_gate (call_pc c))
  /\ (forall i j ci cj,
        sys_calls st !! i = Some ci -> sys_calls st !! j = Some cj ->
        holds_gate (call_pc ci) -> holds_gate (call_pc cj) -> i = j).
End WithUserLock.
Arguments call W : clear implicits.
Arguments system W : clear implicits.

(** The data of a provider whose locks are free: the gate and the registry
    lock are unlocked and every registered lock is an allocated, unlocked
    mutex. *)
Definition locks_free (d : providerData) : Prop :=
  iamWrite d = false
  /\ lockMu d = false
  /\ forall locks userName lock,
       userLocks d = Some locks -> locks !! userName = Some lock ->
       mutexes d !! lock = Some false.

(** The lock [getUserLock] hands out for [userName]. *)
Definition lock_of (userName : string) (d : providerData) : nat :=
  fst (getUserLock_lookup userName d).

(** The registered lock of [userName], if any. *)
Definition registered (userName : string) (d : providerData) : option nat :=
  match userLocks d with None => None | Some locks => locks !! userName end.

Section Schedules.
Context {W : Type}.

(** The system after the calls named by a schedule have stepped in turn;
    [None] when a named call cannot move. *)
Fixpoint run_schedule (schedule : list nat) (st : system W) : option (system W) :=
  match schedule with
  | [] => Some st
  | i :: schedule' =>
      match sys_calls st !! i with
      | None => None
      | Some c =>
          match call_step (call_userName c) (call_fn c) (call_pc c)
                          (sys_data st) (sys_state st) with
          | None => None
          | Some (p', d', w', _) =>
              run_schedule schedule'
                (System d' w' (<[i := CallAt (call_userName c) (call_fn c) p']> (sys_calls st)))
          end
      end
  end.
End Schedules.

(** The example system: two calls for ["alice"] and one for ["bob"], each
    counting its run in the shared state, on a fresh provider. *)
Definition count_run (n : nat) : fn_outcome * nat := (Returns None, Datatypes.S n).
Definition fresh_provider : providerData := ProviderData false false (Some ∅) [].
Definition three_calls : system nat :=
  System fresh_provider 0%nat
    [CallAt "alice" count_run AtGateLock; CallAt "alice" count_run AtGateLock;
     CallAt "bob" count_run AtGateLock].

Section Traces.
Context {W : Type}.

(** The configurations a call passes through on its own, from [p] on: the
    program point, the data of the provider and the state of the wrapped
    functions before each step. The last one is where the call has
    finished, cannot move, or has used up [fuel]. *)
Fixpoint call_trace (fuel : nat) (userName : string) (fn : W -> fn_outcome * W) (p : pc)
         (d : providerData) (w : W) : list (pc * providerData * W) :=
  (p, d, w) ::
  match fuel with
  | O => []
  | Datatypes.S fuel' =>
      match call_step userName fn p d w with
      | None => []
      | Some (p', d', w', _) => call_trace fuel' userName fn p' d' w'
      end
  end.

(** The configurations of [d.withUserLock(userName, fn)], called while
    nothing else runs. *)
Definition withUserLock_trace (userName : string) (fn : W -> fn_outcome * W)
           (d : providerData) (w : W) : list (pc * providerData * W) :=
  call_trace 8 userName fn AtGateLock d w.
End Traces.

(* ------------------------------------------------------------------ *)
(** ** [encoding/json]: the values of an [any]

    [normalizeJSONString] decodes into [var value any] and encodes the
    result. What follows models the two library calls on that type. *)

(** The values [json.Unmarshal] stores into an [any]: [nil], [bool],
    [float64], [string], [[]any] and [map[string]any]. A map is kept as a
    list of entries with distinct keys, in the order of first assignment;
    that order cannot be observed, since the encoder sorts the keys. *)
Inductive jvalue : Type :=
| JNull
| JBool (b : bool)
| JNumber (f : spec_float)
| JString (s : list ascii)
| JArray (elems : list jvalue)
| JObject (members : list (list ascii * jvalue)).

(** [m[key] = v]. *)
Fixpoint map_assign (key : list ascii) (v : jvalue) (m : list (list ascii * jvalue))
  : list (list ascii * jvalue) :=
  match m with
  | [] => [(key, v)]
  | (k, x) :: m' =>
      if bytes_eqb k key then (k, v) :: m' else (k, x) :: map_assign key v m'
  end.

(* ------------------------------------------------------------------ *)
(** ** [strconv.ParseFloat(s, 64)] on a number literal

    The literal has been accepted by the scanner, so it has the form
    [-? digits (. digits)? ([eE] [+-]? digits)?]. The result is the binary64
    value nearest to the decimal value of the literal, ties to even, and
    an error ([None]) when that value is out of range. *)

Definition is_digit (c : ascii) : bool :=
  ((48 <=? byte_val c) && (byte_val c <=? 57))%Z.

Definition digit_val (c : ascii) : Z := (byte_val c - 48)%Z.

(** The leading digits of [s], read as a number after the digits [acc],
    their count, and the rest of [s]. *)
Fixpoint read_digits (s : list ascii) (acc : Z) (n : Z) : Z * Z * list ascii :=
  match s with
  | c :: r => if is_digit c then read_digits r (acc * 10 + digit_val c)%Z (n + 1)%Z
              else (acc, n, s)
  | [] => (acc, n, s)
  end.

(** The digits of the exponent; as in the library, the exponent stops
    growing once it has reached 10000. *)
Fixpoint read_exponent (s : list ascii) (e : Z) : Z :=
  match s with
  | c :: r => if is_digit c
              then read_exponent r (if (e <? 10000)%Z then (e * 10 + digit_val c)%Z else e)
              else e
  | [] => e
  end.

(** A literal as sign, decimal mantissa and decimal exponent:
    [(-1)^neg * mant * 10^exp10]. *)
Definition read_decimal (s : list ascii) : bool * Z * Z :=
  let '(neg, s) :=
    match s with
    | c :: r => if Ascii.eqb c "-" then (true, r) else (false, s)
    | [] => (false, s)
    end in
  let '(mant, _, s) := read_digits s 0 0 in
  let '(mant, nfrac, s) :=
    match s with
    | c :: r => if Ascii.eqb c "." then read_digits r mant 0 else (mant, 0%Z, s)
    | [] => (mant, 0%Z, s)
    end in
  let e :=
    match s with
    | c :: r =>
        if (Ascii.eqb c "e" || Ascii.eqb c "E")%bool then
          match r with
          | sg :: r' =>
              if Ascii.eqb sg "-" then (- read_exponent r' 0)%Z
              else if Ascii.eqb sg "+" then read_exponent r' 0
              else read_exponent r 0
          | [] => 0%Z
          end
        else 0%Z
    | [] => 0%Z
    end in
  (neg, mant, (e - nfrac)%Z).

(** binary64: 53 bits of precision, exponents below 1024. *)
Definition prec64 : Z := 53.
Definition emax64 : Z := 1024.

(** The binary64 value nearest to [(-1)^neg * mant * 10^exp10]; it is an
    infinity when the decimal value is too large. *)
Definition round_decimal (neg : bool) (mant exp10 : Z) : spec_float :=
  match mant with
  | Zpos m =>
      if (0 <=? exp10)%Z then
        binary_normalize prec64 emax64 (if neg then Zneg (m * Z.to_pos (10 ^ exp10))
                                        else Zpos (m * Z.to_pos (10 ^ exp10))) 0 false
      else
        SFdiv prec64 emax64 (S754_finite neg m 0)
              (S754_finite false (Z.to_pos (10 ^ (- exp10))) 0)
  | _ => S754_zero neg
  end.

Definition strconv_ParseFloat (s : list ascii) : option spec_float :=
  let '(neg, mant, exp10) := read_decimal s in
  match round_decimal neg mant exp10 with
  | S754_zero sg => Some (S754_zero sg)
  | S754_finite sg m e => Some (S754_finite sg m e)
  | _ => None
  end.

(* ------------------------------------------------------------------ *)
(** ** String literals: [unquote] of [encoding/json/decode.go] *)

(** The double quote. *)
Definition dquote : ascii := "034"%char.

Definition hex_val (c : ascii) : option Z :=
  let b := byte_val c in
  if ((48 <=? b) && (b <=? 57))%Z then Some (b - 48)%Z
  else if ((97 <=? b) && (b <=? 102))%Z then Some (b - 97 + 10)%Z
  else if ((65 <=? b) && (b <=? 70))%Z then Some (b - 65 + 10)%Z
  else None.

(** [getu4]: the rune of a ["\uXXXX"] at the start of [s]; [None] is the
    library's [-1]. *)
Definition getu4 (s : list ascii) : option Z :=
  match s with
  | b :: u :: h1 :: h2 :: h3 :: h4 :: _ =>
      if (Ascii.eqb b "\" && Ascii.eqb u "u")%bool then
        match hex_val h1, hex_val h2, hex_val h3, hex_val h4 with
        | Some a, Some b, Some c, Some d => Some (a * 4096 + b * 256 + c * 16 + d)%Z
        | _, _, _, _ => None
        end
      else None
  | _ => None
  end.

(** [utf16.IsSurrogate] and [utf16.DecodeRune]. *)
Definition utf16_IsSurrogate (r : Z) : bool := ((55296 <=? r) && (r <? 57344))%Z.

Definition utf16_DecodeRune (r1 r2 : Z) : Z :=
  if ((55296 <=? r1) && (r1 <? 56320) && (56320 <=? r2) && (r2 <? 57344))%Z
  then (Z.lor (Z.shiftl (r1 - 55296) 10) (r2 - 56320) + 65536)%Z
  else RuneError.

(** The first loop of [unquoteBytes]: the longest prefix that needs no
    unquoting (no backslash, quote or control character, and no invalid
    UTF-8), and what follows it. *)
Fixpoint unquote_plain (fuel : nat) (s : list ascii) : list ascii * list ascii :=
  match fuel with
  | O => ([], s)
  | Datatypes.S fuel' =>
      match s with
      | [] => ([], [])
      | c :: r =>
          if (Ascii.eqb c "\" || Ascii.eqb c dquote || (byte_val c <? 32)%Z)%bool then ([], s)
          else if (byte_val c <? RuneSelf)%Z then
            let '(p, rest) := unquote_plain fuel' r in (c :: p, rest)
          else
            let '(rr, size) := utf8_DecodeRune s in
            if ((rr =? RuneError)%Z && (size =? 1)%nat)%bool then ([], s)
            else
              let '(p, rest) := unquote_plain fuel' (skipn size s) in
              (firstn size s ++ p, rest)
      end
  end.

(** The second loop of [unquoteBytes]: escapes are replaced, and bytes that
    are not valid UTF-8 become U+FFFD. [None] is [ok == false]. *)
Fixpoint unquote_escaped (fuel : nat) (s : list ascii) : option (list ascii) :=
  match fuel with
  | O => match s with [] => Some [] | _ => None end
  | Datatypes.S fuel' =>
      match s with
      | [] => Some []
      | c :: r =>
          if Ascii.eqb c "\" then
            match r with
            | [] => None
            | e :: r' =>
                let simple (b : ascii) := option_map (cons b) (unquote_escaped fuel' r') in
                if (Ascii.eqb e dquote || Ascii.eqb e "\" || Ascii.eqb e "/"
                    || Ascii.eqb e "'")%bool then simple e
                else if Ascii.eqb e "b" then simple (byte_of 8)
                else if Ascii.eqb e "f" then simple (byte_of 12)
                else if Ascii.eqb e "n" then simple (byte_of 10)
                else if Ascii.eqb e "r" then simple (byte_of 13)
                else if Ascii.eqb e "t" then simple (byte_of 9)
                else if Ascii.eqb e "u" then
                  match getu4 s with
                  | None => None
                  | Some rr =>
                      let s1 := skipn 6 s in
                      if utf16_IsSurrogate rr then
                        let dec :=
                          match getu4 s1 with
                          | Some rr1 => utf16_DecodeRune rr rr1
                          | None => RuneError
                          end in
                        if negb (dec =? RuneError)%Z then
                          option_map (app (utf8_EncodeRune dec))
                                     (unquote_escaped fuel' (skipn 6 s1))
                        else
                          option_map (app (utf8_EncodeRune RuneError))
                                     (unquote_escaped fuel' s1)
                      else
                        option_map (app (utf8_EncodeRune rr)) (unquote_escaped fuel' s1)
                  end
                else None
            end
          else if (Ascii.eqb c dquote || (byte_val c <? 32)%Z)%bool then None
          else if (byte_val c <? RuneSelf)%Z then
            option_map (cons c) (unquote_escaped fuel' r)
          else
            let '(rr, size) := utf8_DecodeRune s in
            option_map (app (utf8_EncodeRune rr)) (unquote_escaped fuel' (skipn size s))
      end
  end.

(** [unquoteBytes], on the literal between its quotes. *)
Definition unquote_body (s : list ascii) : option (list ascii) :=
  let '(p, rest) := unquote_plain (length s) s in
  match rest with
  | [] => Some s
  | _ => option_map (app p) (unquote_escaped (length rest) rest)
  end.

(** [unquote]: the literal with its quotes. *)
Definition unquote (item : list ascii) : option (list ascii) :=
  match item with
  | q :: rest =>
      match rev rest with
      | q' :: rbody =>
          if (Ascii.eqb q dquote && Ascii.eqb q' dquote)%bool then unquote_body (rev rbody)
          else None
      | [] => None
      end
  | [] => None
  end.

(* ------------------------------------------------------------------ *)
(** ** [json.Unmarshal] into an [any]: the scanner of
       [encoding/json/scanner.go] with the decoder's actions

    The library checks the input with a byte-at-a-time scanner and then
    walks it again to build the value. Here the scanner builds the value as
    it goes: every entry of its parse stack carries the container under
    construction, and a literal is converted when its last byte has been
    read. *)

(** The step functions of the scanner. *)
Inductive scan_step : Type :=
| stateBeginValueOrEmpty | stateBeginValue | stateBeginStringOrEmpty | stateBeginString
| stateEndValue | stateEndTop
| stateInString | stateInStringEsc
| stateInStringEscU | stateInStringEscU1 | stateInStringEscU12 | stateInStringEscU123
| stateNeg | state1 | state0 | stateDot | stateDot0 | stateE | stateESign | stateE0
| stateT | stateTr | stateTru
| stateF | stateFa | stateFal | stateFals
| stateN | stateNu | stateNul.

(** The entries of [parseState], with what the decoder has built so far:
    the entries of the map and the key just read, or the elements of the
    array. *)
Inductive parse_state : Type :=
| parseObjectKey (m : list (list ascii * jvalue)) (key : option (list ascii))
| parseObjectValue (m : list (list ascii * jvalue)) (key : list ascii)
| parseArrayValue (elems : list jvalue).

Record scanner : Type := Scanner {
  step : scan_step;
  parseState : list parse_state;      (* innermost first *)
  literal : list ascii;               (* the literal being read, last byte first *)
  top : option jvalue;                (* the top-level value, once complete *)
  savedError : bool                   (* [d.saveError]: a number out of range *)
}.

Definition maxNestingDepth : nat := 10000.

Definition isSpace (c : ascii) : bool :=
  (Ascii.eqb c " " || Ascii.eqb c "009" || Ascii.eqb c "013" || Ascii.eqb c "010")%bool.

Definition is_hex (c : ascii) : bool :=
  match hex_val c with Some _ => true | None => false end.

Definition with_step (st : scan_step) (s : scanner) : scanner :=
  Scanner st (parseState s) (literal s) (top s) (savedError s).

(** A byte of a literal: it is kept, and the scanner moves to [st]. *)
Definition literal_byte (st : scan_step) (c : ascii) (s : scanner) : scanner :=
  Scanner st (parseState s) (c :: literal s) (top s) (savedError s).

(** The parse stack takes a value: it is empty, or its innermost entry is
    an array or an object waiting for the value of a key. *)
Definition accepts_value (ps : list parse_state) : bool :=
  match ps with
  | [] | parseArrayValue _ :: _ | parseObjectValue _ _ :: _ => true
  | parseObjectKey _ _ :: _ => false
  end.

(** The decoder stores a finished value: as the next element of the
    array, or as the value of the pending key. *)
Definition store_value (v : jvalue) (ps : list parse_state) : list parse_state :=
  match ps with
  | parseArrayValue elems :: ps' => parseArrayValue (elems ++ [v]) :: ps'
  | parseObjectValue m key :: ps' => parseObjectValue (map_assign key v m) key :: ps'
  | _ => ps
  end.

(** A value is complete: it becomes the top-level value, the next element
    of the array, the value of the pending key, or (a string) the pending
    key itself. [st] is the next step function. *)
Definition deliver (st : scan_step) (v : jvalue) (s : scanner) : option scanner :=
  match parseState s with
  | [] => Some (Scanner st [] [] (Some v) (savedError s))
  | parseObjectKey m None :: ps =>
      match v with
      | JString key =>
          Some (Scanner st (parseObjectKey m (Some key) :: ps) [] (top s) (savedError s))
      | _ => None
      end
  | parseObjectKey _ (Some _) :: _ => None
  | ps => Some (Scanner st (store_value v ps) [] (top s) (savedError s))
  end.

(** [pushParseState]. *)
Definition pushParseState (st : scan_step) (p : parse_state) (s : scanner) : option scanner :=
  if (length (parseState s) + 1 <=? maxNestingDepth)%nat
  then Some (Scanner st (p :: parseState s) [] (top s) (savedError s))
  else None.

(** [popParseState], the decoder storing the finished container [v]. *)
Definition popParseState (v : jvalue) (s : scanner) : option scanner :=
  match parseState s with
  | [] => None
  | _ :: ps =>
      deliver (match ps with [] => stateEndTop | _ => stateEndValue end) v
              (Scanner (step s) ps (literal s) (top s) (savedError s))
  end.

(** [literalInterface] on the bytes of a finished literal. *)
Definition literal_value (s : scanner) : option (jvalue * bool) :=
  let item := rev (literal s) in
  match item with
  | [] => None
  | c :: _ =>
      if Ascii.eqb c "n" then Some (JNull, savedError s)
      else if Ascii.eqb c "t" then Some (JBool true, savedError s)
      else if Ascii.eqb c "f" then Some (JBool false, savedError s)
      else if Ascii.eqb c dquote then
        match unquote item with
        | Some str => Some (JString str, savedError s)
        | None => None
        end
      else
        match strconv_ParseFloat item with
        | Some f => Some (JNumber f, savedError s)
        | None => Some (JNull, true)
        end
  end.

(** The literal is complete: it is converted and delivered. *)
Definition end_literal (s : scanner) : option scanner :=
  match literal_value s with
  | Some (v, saved) =>
      deliver stateEndValue v
              (Scanner (step s) (parseState s) (literal s) (top s) saved)
  | None => None
  end.

(** [stateEndTop]. *)
Definition do_stateEndTop (s : scanner) (c : ascii) : option scanner :=
  if isSpace c then Some (with_step stateEndTop s) else None.

(** [stateEndValue]. *)
Definition do_stateEndValue (s : scanner) (c : ascii) : option scanner :=
  match parseState s with
  | [] => do_stateEndTop s c
  | p :: ps =>
      if isSpace c then Some (with_step stateEndValue s)
      else
        match p with
        | parseObjectKey m (Some key) =>
            if Ascii.eqb c ":" then
              Some (Scanner stateBeginValue (parseObjectValue m key :: ps) []
                            (top s) (savedError s))
            else None
        | parseObjectKey _ None => None
        | parseObjectValue m _ =>
            if Ascii.eqb c "," then
              Some (Scanner stateBeginString (parseObjectKey m None :: ps) []
                            (top s) (savedError s))
            else if Ascii.eqb c "}" then popParseState (JObject m) s
            else None
        | parseArrayValue elems =>
            if Ascii.eqb c "," then Some (with_step stateBeginValue s)
            else if Ascii.eqb c "]" then popParseState (JArray elems) s
            else None
        end
  end.

(** The end of a number: [state0], [state1], [stateDot0] and [stateE0]
    hand the byte that does not continue the literal to [stateEndValue]. *)
Definition end_number (s : scanner) (c : ascii) : option scanner :=
  match end_literal s with
  | Some s' => do_stateEndValue s' c
  | None => None
  end.

(** [stateBeginString]. *)
Definition do_stateBeginString (s : scanner) (c : ascii) : option scanner :=
  if isSpace c then Some s
  else if Ascii.eqb c dquote then Some (literal_byte stateInString c s)
  else None.

(** [stateBeginValue]. *)
Definition do_stateBeginValue (s : scanner) (c : ascii) : option scanner :=
  if isSpace c then Some s
  else if Ascii.eqb c "{" then pushParseState stateBeginStringOrEmpty (parseObjectKey [] None) s
  else if Ascii.eqb c "[" then pushParseState stateBeginValueOrEmpty (parseArrayValue []) s
  else if Ascii.eqb c dquote then Some (literal_byte stateInString c s)
  else if Ascii.eqb c "-" then Some (literal_byte stateNeg c s)
  else if Ascii.eqb c "0" then Some (literal_byte state0 c s)
  else if Ascii.eqb c "t" then Some (literal_byte stateT c s)
  else if Ascii.eqb c "f" then Some (literal_byte stateF c s)
  else if Ascii.eqb c "n" then Some (literal_byte stateN c s)
  else if ((49 <=? byte_val c) && (byte_val c <=? 57))%Z then Some (literal_byte state1 c s)
  else None.

Definition do_state0 (s : scanner) (c : ascii) : option scanner :=
  if Ascii.eqb c "." then Some (literal_byte stateDot c s)
  else if (Ascii.eqb c "e" || Ascii.eqb c "E")%bool then Some (literal_byte stateE c s)
  else end_number s c.

Definition do_stateESign (s : scanner) (c : ascii) : option scanner :=
  if is_digit c then Some (literal_byte stateE0 c s) else None.

(** The byte [c] of the last letter of [true], [false] or [null]. *)
Definition last_letter (expected : ascii) (s : scanner) (c : ascii) : option scanner :=
  if Ascii.eqb c expected then end_literal (literal_byte stateEndValue c s) else None.

Definition letter (expected : ascii) (st : scan_step) (s : scanner) (c : ascii)
  : option scanner :=
  if Ascii.eqb c expected then Some (literal_byte st c s) else None.

(** One byte: [s.step(s, c)]; [None] is [scanError]. *)
Definition scan_byte (s : scanner) (c : ascii) : option scanner :=
  match step s with
  | stateBeginValueOrEmpty =>
      if isSpace c then Some s
      else if Ascii.eqb c "]" then do_stateEndValue s c
      else do_stateBeginValue s c
  | stateBeginValue => do_stateBeginValue s c
  | stateBeginStringOrEmpty =>
      if isSpace c then Some s
      else if Ascii.eqb c "}" then
        match parseState s with
        | parseObjectKey m _ :: ps =>
            do_stateEndValue
              (Scanner (step s) (parseObjectValue m [] :: ps) (literal s) (top s)
                       (savedError s)) c
        | _ => None
        end
      else do_stateBeginString s c
  | stateBeginString => do_stateBeginString s c
  | stateEndValue => do_stateEndValue s c
  | stateEndTop => do_stateEndTop s c
  | stateInString =>
      if Ascii.eqb c dquote then end_literal (literal_byte stateEndValue c s)
      else if Ascii.eqb c "\" then Some (literal_byte stateInStringEsc c s)
      else if (byte_val c <? 32)%Z then None
      else Some (literal_byte stateInString c s)
  | stateInStringEsc =>
      if (Ascii.eqb c "b" || Ascii.eqb c "f" || Ascii.eqb c "n" || Ascii.eqb c "r"
          || Ascii.eqb c "t" || Ascii.eqb c "\" || Ascii.eqb c "/" || Ascii.eqb c dquote)%bool
      then Some (literal_byte stateInString c s)
      else if Ascii.eqb c "u" then Some (literal_byte stateInStringEscU c s)
      else None
  | stateInStringEscU =>
      if is_hex c then Some (literal_byte stateInStringEscU1 c s) else None
  | stateInStringEscU1 =>
      if is_hex c then Some (literal_byte stateInStringEscU12 c s) else None
  | stateInStringEscU12 =>
      if is_hex c then Some (literal_byte stateInStringEscU123 c s) else None
  | stateInStringEscU123 =>
      if is_hex c then Some (literal_byte stateInString c s) else None
  | stateNeg =>
      if Ascii.eqb c "0" then Some (literal_byte state0 c s)
      else if ((49 <=? byte_val c) && (byte_val c <=? 57))%Z then Some (literal_byte state1 c s)
      else None
  | state1 =>
      if is_digit c then Some (literal_byte state1 c s) else do_state0 s c
  | state0 => do_state0 s c
  | stateDot =>
      if is_digit c then Some (literal_byte stateDot0 c s) else None
  | stateDot0 =>
      if is_digit c then Some (literal_byte stateDot0 c s)
      else if (Ascii.eqb c "e" || Ascii.eqb c "E")%bool then Some (literal_byte stateE c s)
      else end_number s c
  | stateE =>
      if (Ascii.eqb c "+" || Ascii.eqb c "-")%bool then Some (literal_byte stateESign c s)
      else do_stateESign s c
  | stateESign => do_stateESign s c
  | stateE0 =>
      if is_digit c then Some (literal_byte stateE0 c s) else end_number s c
  | stateT => letter "r" stateTr s c
  | stateTr => letter "u" stateTru s c
  | stateTru => last_letter "e" s c
  | stateF => letter "a" stateFa s c
  | stateFa => letter "l" stateFal s c
  | stateFal => letter "s" stateFals s c
  | stateFals => last_letter "e" s c
  | stateN => letter "u" stateNu s c
  | stateNu => letter "l" stateNul s c
  | stateNul => last_letter "l" s c
  end.

(** The bytes of the input in turn, stopping at the first error. *)
Fixpoint scan_bytes (s : scanner) (data : list ascii) : option scanner :=
  match data with
  | [] => Some s
  | c :: data' =>
      match scan_byte s c with
      | Some s' => scan_bytes s' data'
      | None => None
      end
  end.

(** [scanner.eof]: a value still open is given a final space. *)
Definition scan_eof (s : scanner) : option scanner :=
  match step s with
  | stateEndTop => Some s
  | _ =>
      match scan_byte s " " with
      | Some s' => match step s' with stateEndTop => Some s' | _ => None end
      | None => None
      end
  end.

(** The bytes that may follow a value. *)
Definition delimiter (c : ascii) : bool :=
  (isSpace c || Ascii.eqb c "," || Ascii.eqb c "]" || Ascii.eqb c "}")%bool.

Definition scanner_reset : scanner := Scanner stateBeginValue [] [] None false.

(** [json.Unmarshal(data, &value)] with [value] of type [any]: the decoded
    value, or [None] for a syntax error or a number out of range. *)
Definition json_Unmarshal (data : list ascii) : option jvalue :=
  match scan_bytes scanner_reset data with
  | None => None
  | Some s =>
      match scan_eof s with
      | None => None
      | Some s' => if savedError s' then None else top s'
      end
  end.

(* ------------------------------------------------------------------ *)
(** ** [strconv.AppendFloat(b, f, fmt, -1, 64)]: the shortest decimal
       that reads back as [f] *)

Definition sf_eqb (x y : spec_float) : bool :=
  match x, y with
  | S754_zero a, S754_zero b => Bool.eqb a b
  | S754_finite a m e, S754_finite b n k => (Bool.eqb a b && (m =? n)%positive && (e =? k)%Z)%bool
  | S754_infinity a, S754_infinity b => Bool.eqb a b
  | S754_nan, S754_nan => true
  | _, _ => false
  end.

(** [m * 2^e < 10^k], for positive [m]. *)
Definition lt_pow10 (m : positive) (e k : Z) : bool :=
  let num := (if (0 <=? e) then Zpos m * 2 ^ e else Zpos m)%Z in
  let den := (if (0 <=? e) then 1 else 2 ^ (- e))%Z in
  if (0 <=? k)%Z then (num <? den * 10 ^ k)%Z else (num * 10 ^ (- k) <? den)%Z.

(** The position of the decimal point: the [dp] with
    [10^(dp-1) <= m * 2^e < 10^dp]. *)
Fixpoint dp_up (fuel : nat) (m : positive) (e k : Z) : Z :=
  match fuel with
  | O => k
  | Datatypes.S fuel' => if lt_pow10 m e k then k else dp_up fuel' m e (k + 1)%Z
  end.

Fixpoint dp_down (fuel : nat) (m : positive) (e k : Z) : Z :=
  match fuel with
  | O => k
  | Datatypes.S fuel' => if lt_pow10 m e (k - 1)%Z then dp_down fuel' m e (k - 1)%Z else k
  end.

Definition decimal_point (m : positive) (e : Z) : Z :=
  dp_down 400 m e (dp_up 400 m e 0).

(** [m * 2^e] cut after its first [n] decimal digits: the digits as a
    number [t], with [t * 10^x <= m * 2^e < (t + 1) * 10^x], and how the
    part cut off compares with half a unit of the last digit kept ([None]
    when nothing is cut off). *)
Definition truncate_at (m : positive) (e x : Z) : Z * option comparison :=
  let num := (if (0 <=? e) then Zpos m * 2 ^ e else Zpos m)%Z in
  let den := (if (0 <=? e) then 1 else 2 ^ (- e))%Z in
  let num' := (if (0 <=? x) then num else num * 10 ^ (- x))%Z in
  let den' := (if (0 <=? x) then den * 10 ^ x else den)%Z in
  let t := (num' / den')%Z in
  let r := (num' mod den')%Z in
  (t, if (r =? 0)%Z then None else Some (2 * r ?= den')%Z).

(** [roundShortest]: digit by digit, the first position at which the
    decimal cut off there ([okdown]) or the next one up ([okup]) still
    reads back as [f]; when both do, the nearer one, ties to the even
    digit. The result is the digits as a number and the exponent of the
    last digit. *)
Fixpoint shortest_from (fuel : nat) (m : positive) (e dp : Z) (n : Z) : Z * Z :=
  let x := (dp - n)%Z in
  let '(t, cut) := truncate_at m e x in
  match cut with
  | None => (t, x)
  | Some half =>
      match fuel with
      | O => (match half with Gt => t + 1 | Eq => if Z.even t then t else t + 1 | Lt => t end, x)%Z
      | Datatypes.S fuel' =>
          let f := S754_finite false m e in
          let okdown := sf_eqb (round_decimal false t x) f in
          let okup := sf_eqb (round_decimal false (t + 1) x) f in
          if (okdown && okup)%bool then
            (match half with Gt => t + 1 | Eq => if Z.even t then t else t + 1 | Lt => t end, x)%Z
          else if okdown then (t, x)
          else if okup then ((t + 1)%Z, x)
          else shortest_from fuel' m e dp (n + 1)%Z
      end
  end.

(** The decimal digits of a positive number, and trailing zeros dropped. *)
Definition digits_of (t : Z) : list ascii :=
  list_ascii_of_string (itoa t).

Fixpoint drop_zeros_rev (rs : list ascii) : list ascii :=
  match rs with
  | c :: rs' => if Ascii.eqb c "0" then drop_zeros_rev rs' else rs
  | [] => []
  end.

(** The shortest digits of [m * 2^e] and the position of the decimal
    point: the value is [0.d1d2...dn * 10^dp]. *)
Definition shortest_digits (m : positive) (e : Z) : list ascii * Z :=
  let '(t, x) := shortest_from 17 m e (decimal_point m e) 1 in
  let ds := digits_of t in
  (rev (drop_zeros_rev (rev ds)), (Z.of_nat (length ds) + x)%Z).

(** [%e] with the shortest digits, as [encoding/json] prints it: one
    digit before the point, and an exponent of at least two digits from
    which the encoder then drops a leading zero. *)
Definition fmtE (neg : bool) (ds : list ascii) (dp : Z) : list ascii :=
  let exp := (dp - 1)%Z in
  (if neg then ["-"%char] else [])
  ++ match ds with
     | [] => ["0"%char]
     | d :: [] => [d]
     | d :: rest => d :: "."%char :: rest
     end
  ++ ["e"%char; if (exp <? 0)%Z then "-"%char else "+"%char]
  ++ digits_of (Z.abs exp).

(** [%f] with the shortest digits. *)
Definition fmtF (neg : bool) (ds : list ascii) (dp : Z) : list ascii :=
  let nd := Z.of_nat (length ds) in
  (if neg then ["-"%char] else [])
  ++ (if (0 <? dp)%Z
      then firstn (Z.to_nat dp) ds ++ repeat "0"%char (Z.to_nat (dp - nd))
      else ["0"%char])
  ++ (if (0 <? nd - dp)%Z
      then "."%char :: repeat "0"%char (Z.to_nat (- dp)) ++ skipn (Z.to_nat dp) ds
      else []).

(** [floatEncoder.encode] for a [float64]: [None] for an infinity or a NaN
    ([UnsupportedValueError]); [%e] below 1e-6 and from 1e21 on, [%f]
    otherwise. *)
Definition encode_float (f : spec_float) : option (list ascii) :=
  match f with
  | S754_zero neg => Some (fmtF neg [] 0)
  | S754_finite neg m e =>
      let abs := S754_finite false m e in
      let '(ds, dp) := shortest_digits m e in
      if (SFltb abs (round_decimal false 1 (-6)) || SFleb (round_decimal false 1 21) abs)%bool
      then Some (fmtE neg ds dp)
      else Some (fmtF neg ds dp)
  | _ => None
  end.

(* ------------------------------------------------------------------ *)
(** ** [json.Marshal] of an [any] *)

Definition hex_digit (n : Z) : ascii :=
  nth (Z.to_nat n) (list_ascii_of_string "0123456789abcdef") "0"%char.

(** [htmlSafeSet]: the ASCII bytes copied as they are. *)
Definition htmlSafe (c : ascii) : bool :=
  let b := byte_val c in
  ((32 <=? b) && (b <? 128) && negb (b =? 34) && negb (b =? 38) && negb (b =? 60)
   && negb (b =? 62) && negb (b =? 92))%Z.

(** The body of [appendString] with [escapeHTML] set. *)
Fixpoint appendString_body (fuel : nat) (src : list ascii) : list ascii :=
  match fuel with
  | O => []
  | Datatypes.S fuel' =>
      match src with
      | [] => []
      | c :: r =>
          let b := byte_val c in
          if (b <? RuneSelf)%Z then
            (if htmlSafe c then [c]
             else if (Ascii.eqb c "\" || Ascii.eqb c dquote)%bool then ["\"%char; c]
             else if (b =? 8)%Z then ["\"%char; "b"%char]
             else if (b =? 12)%Z then ["\"%char; "f"%char]
             else if (b =? 10)%Z then ["\"%char; "n"%char]
             else if (b =? 13)%Z then ["\"%char; "r"%char]
             else if (b =? 9)%Z then ["\"%char; "t"%char]
             else ["\"%char; "u"%char; "0"%char; "0"%char;
                   hex_digit (Z.shiftr b 4); hex_digit (Z.land b 15)])
            ++ appendString_body fuel' r
          else
            let '(rr, size) := utf8_DecodeRune (firstn UTFMax src) in
            if ((rr =? RuneError)%Z && (size =? 1)%nat)%bool then
              "\"%char :: list_ascii_of_string "ufffd"
              ++ appendString_body fuel' (skipn size src)
            else if ((rr =? 8232) || (rr =? 8233))%Z then
              "\"%char :: list_ascii_of_string "u202" ++ [hex_digit (Z.land rr 15)]
              ++ appendString_body fuel' (skipn size src)
            else firstn size src ++ appendString_body fuel' (skipn size src)
      end
  end.

Definition appendString (src : list ascii) : list ascii :=
  dquote :: appendString_body (length src) src ++ [dquote].

(** [strings.Compare] on keys: bytes in order. *)
Fixpoint bytes_ltb (a b : list ascii) : bool :=
  match a, b with
  | _, [] => false
  | [], _ :: _ => true
  | x :: a', y :: b' =>
      if (byte_val x <? byte_val y)%Z then true
      else if (byte_val y <? byte_val x)%Z then false
      else bytes_ltb a' b'
  end.

(** The entries of a map sorted by key ([mapEncoder.encode] sorts them
    before it writes them). *)
Fixpoint insert_sorted {A : Type} (k : list ascii) (x : A) (l : list (list ascii * A))
  : list (list ascii * A) :=
  match l with
  | [] => [(k, x)]
  | (k', y) :: l' =>
      if bytes_ltb k' k then (k', y) :: insert_sorted k x l' else (k, x) :: l
  end.

Definition sort_by_key {A : Type} (l : list (list ascii * A)) : list (list ascii * A) :=
  fold_right (fun kx acc => insert_sorted (fst kx) (snd kx) acc) [] l.

(** The encoded elements with commas in between. *)
Fixpoint join_commas (parts : list (list ascii)) : list ascii :=
  match parts with
  | [] => []
  | [p] => p
  | p :: rest => p ++ ","%char :: join_commas rest
  end.

(** The encodings of the elements of a slice and of the values of a map,
    or the first error; [enc] is the encoder of a value. *)
Fixpoint encode_all {A : Type} (enc : A -> option (list ascii)) (l : list A)
  : option (list (list ascii)) :=
  match l with
  | [] => Some []
  | x :: l' =>
      match enc x, encode_all enc l' with
      | Some p, Some ps => Some (p :: ps)
      | _, _ => None
      end
  end.

Fixpoint encode_entries {A : Type} (enc : A -> option (list ascii))
         (l : list (list ascii * A)) : option (list (list ascii * list ascii)) :=
  match l with
  | [] => Some []
  | (k, x) :: l' =>
      match enc x, encode_entries enc l' with
      | Some p, Some ps => Some ((k, p) :: ps)
      | _, _ => None
      end
  end.

(** A key, a colon and the encoded value. *)
Definition entry_text (kp : list ascii * list ascii) : list ascii :=
  appendString (fst kp) ++ ":"%char :: snd kp.

(** The encoder for the dynamic type of an [any]. [None] is an error; the
    only one these values can raise is a float that is not finite. *)
Fixpoint encode_value (v : jvalue) : option (list ascii) :=
  match v with
  | JNull => Some (list_ascii_of_string "null")
  | JBool true => Some (list_ascii_of_string "true")
  | JBool false => Some (list_ascii_of_string "false")
  | JNumber f => encode_float f
  | JString s => Some (appendString s)
  | JArray elems =>
      match encode_all encode_value elems with
      | Some parts => Some ("["%char :: join_commas parts ++ ["]"%char])
      | None => None
      end
  | JObject members =>
      match encode_entries encode_value members with
      | Some entries =>
          Some ("{"%char :: join_commas (map entry_text (sort_by_key entries)) ++ ["}"%char])
      | None => None
      end
  end.

Definition json_Marshal (v : jvalue) : option (list ascii) := encode_value v.

(** The numbers of a value are finite: no infinity and no NaN. *)
Definition is_finite (f : spec_float) : bool :=
  match f with
  | S754_zero _ | S754_finite _ _ _ => true
  | _ => false
  end.

Fixpoint finite_value (v : jvalue) : bool :=
  match v with
  | JNumber f => is_finite f
  | JArray elems => forallb finite_value elems
  | JObject members => forallb (fun kv => finite_value (snd kv)) members
  | _ => true
  end.

Definition finite_parse_state (p : parse_state) : bool :=
  match p with
  | parseObjectKey m _ | parseObjectValue m _ => forallb (fun kv => finite_value (snd kv)) m
  | parseArrayValue elems => forallb finite_value elems
  end.

Definition finite_scanner (s : scanner) : bool :=
  (forallb finite_parse_state (parseState s)
   && match top s with Some v => finite_value v | None => true end)%bool.

(* ------------------------------------------------------------------ *)
(** ** The policy-document comparator ([policy_json.go]) *)

Definition normalizeJSONString (raw : string) : option string :=
  match json_Unmarshal (list_ascii_of_string raw) with
  | None => None
  | Some value =>
      match json_Marshal value with
      | None => None
      | Some normalized => Some (string_of_list_ascii normalized)
      end
  end.

Definition policiesSemanticallyEqual (a b : string) : bool :=
  match normalizeJSONString a, normalizeJSONString b with
  | Some na, Some nb => String.eqb na nb
  | _, _ => String.eqb (strings_TrimSpace a) (strings_TrimSpace b)
  end.

(* ------------------------------------------------------------------ *)
(** ** JSON documents and their layout (RFC 8259)

    A document is written down as a tree whose nodes carry the white space
    of the text, so that it can be said that two texts are the same
    document laid out differently: two layouts have the same structure when they agree on
    everything but the white space and the order of the members of their
    objects. *)

(** The pieces of a string literal between its quotes. *)
Inductive str_item : Type :=
| SChar (c : ascii)                      (* a byte that stands for itself *)
| SEscape (c : ascii)                    (* backslash and a quote, \, /, b, f, n, r or t *)
| SUnicode (h1 h2 h3 h4 : ascii).        (* backslash, u and four hex digits *)

Definition str_item_ok (it : str_item) : bool :=
  match it with
  | SChar c => (negb (Ascii.eqb c dquote) && negb (Ascii.eqb c "\") && (32 <=? byte_val c)%Z)%bool
  | SEscape c =>
      (Ascii.eqb c dquote || Ascii.eqb c "\" || Ascii.eqb c "/" || Ascii.eqb c "b"
       || Ascii.eqb c "f" || Ascii.eqb c "n" || Ascii.eqb c "r" || Ascii.eqb c "t")%bool
  | SUnicode h1 h2 h3 h4 => (is_hex h1 && is_hex h2 && is_hex h3 && is_hex h4)%bool
  end.

Definition str_item_text (it : str_item) : list ascii :=
  match it with
  | SChar c => [c]
  | SEscape c => ["\"%char; c]
  | SUnicode h1 h2 h3 h4 => ["\"%char; "u"%char; h1; h2; h3; h4]
  end.

Definition string_body (items : list str_item) : list ascii :=
  concat (map str_item_text items).

Definition string_text (items : list str_item) : list ascii :=
  dquote :: string_body items ++ [dquote].

(** A number literal: [-? int (. digits)? ([eE] [+-]? digits)?], where [int]
    is [0] or starts with a digit from 1 to 9. *)
Record number_literal : Type := NumberLiteral {
  num_minus : bool;
  num_int : list ascii;
  num_frac : option (list ascii);
  num_exp : option (ascii * option ascii * list ascii)   (* e or E, sign, digits *)
}.

Definition digits_ok (ds : list ascii) : bool :=
  (negb (length ds =? 0)%nat && forallb is_digit ds)%bool.

Definition number_ok (n : number_literal) : bool :=
  (digits_ok (num_int n)
   && match num_int n with
      | c :: _ :: _ => negb (Ascii.eqb c "0")
      | _ => true
      end
   && match num_frac n with Some ds => digits_ok ds | None => true end
   && match num_exp n with
      | Some (e, sg, ds) =>
          (Ascii.eqb e "e" || Ascii.eqb e "E")
          && match sg with
             | Some c => Ascii.eqb c "+" || Ascii.eqb c "-"
             | None => true
             end
          && digits_ok ds
      | None => true
      end)%bool.

Definition number_text (n : number_literal) : list ascii :=
  (if num_minus n then ["-"%char] else [])
  ++ num_int n
  ++ match num_frac n with Some ds => "."%char :: ds | None => [] end
  ++ match num_exp n with
     | Some (e, sg, ds) => e :: match sg with Some c => [c] | None => [] end ++ ds
     | None => []
     end.

(** An element of an array and a member of an object, with the white space
    around their parts. *)
Record element (L : Type) : Type := Element {
  el_pre : list ascii;
  el_value : L;
  el_post : list ascii
}.
Arguments Element {L}.
Arguments el_pre {L}.
Arguments el_value {L}.
Arguments el_post {L}.

Record member (L : Type) : Type := Member {
  mb_pre : list ascii;
  mb_key : list str_item;
  mb_mid : list ascii;          (* before the colon *)
  mb_sep : list ascii;          (* after the colon *)
  mb_value : L;
  mb_post : list ascii
}.
Arguments Member {L}.
Arguments mb_pre {L}.
Arguments mb_key {L}.
Arguments mb_mid {L}.
Arguments mb_sep {L}.
Arguments mb_value {L}.
Arguments mb_post {L}.

Inductive layout : Type :=
| LNull
| LTrue
| LFalse
| LNumber (n : number_literal)
| LString (items : list str_item)
| LArray0 (w : list ascii)                       (* [ w ] *)
| LArray (elems : list (element layout))         (* [ e , e , ... ], not empty *)
| LObject0 (w : list ascii)                      (* { w } *)
| LObject (members : list (member layout)).      (* { m , m , ... }, not empty *)

Definition is_ws (w : list ascii) : bool := forallb isSpace w.

(** The elements of an array with their commas and the closing bracket,
    and the members of an object with their commas and the closing brace;
    [text] is the text of a value. *)
Fixpoint elems_text {L : Type} (text : L -> list ascii) (l : list (element L)) : list ascii :=
  match l with
  | [] => ["]"%char]
  | e :: l' =>
      el_pre e ++ text (el_value e) ++ el_post e
      ++ match l' with [] => [] | _ => [","%char] end ++ elems_text text l'
  end.

Definition member_text {L : Type} (text : L -> list ascii) (m : member L) : list ascii :=
  mb_pre m ++ string_text (mb_key m) ++ mb_mid m ++ ":"%char :: mb_sep m
  ++ text (mb_value m) ++ mb_post m.

Fixpoint members_text {L : Type} (text : L -> list ascii) (l : list (member L)) : list ascii :=
  match l with
  | [] => ["}"%char]
  | m :: l' =>
      member_text text m
      ++ match l' with [] => [] | _ => [","%char] end ++ members_text text l'
  end.

(** The text of a layout. *)
Fixpoint layout_text (d : layout) : list ascii :=
  match d with
  | LNull => list_ascii_of_string "null"
  | LTrue => list_ascii_of_string "true"
  | LFalse => list_ascii_of_string "false"
  | LNumber n => number_text n
  | LString items => string_text items
  | LArray0 w => "["%char :: w ++ ["]"%char]
  | LArray elems => "["%char :: elems_text layout_text elems
  | LObject0 w => "{"%char :: w ++ ["}"%char]
  | LObject members => "{"%char :: members_text layout_text members
  end.

(** The layout is one of a JSON text: white space where white space is
    written, literals of the grammar, no empty list of elements or members. *)
Fixpoint layout_ok (d : layout) : bool :=
  match d with
  | LNull | LTrue | LFalse => true
  | LNumber n => number_ok n
  | LString items => forallb str_item_ok items
  | LArray0 w => is_ws w
  | LArray elems =>
      (negb (length elems =? 0)%nat
       && forallb (fun e => is_ws (el_pre e) && layout_ok (el_value e) && is_ws (el_post e))
                  elems)%bool
  | LObject0 w => is_ws w
  | LObject members =>
      (negb (length members =? 0)%nat
       && forallb (fun m => is_ws (mb_pre m) && forallb str_item_ok (mb_key m)
                            && is_ws (mb_mid m) && is_ws (mb_sep m)
                            && layout_ok (mb_value m) && is_ws (mb_post m))
                  members)%bool
  end.

(** How deep the containers of a layout are nested. *)
Fixpoint layout_depth (d : layout) : nat :=
  match d with
  | LArray0 _ | LObject0 _ => 1
  | LArray elems =>
      Datatypes.S (fold_right (fun e n => Nat.max (layout_depth (el_value e)) n) 0 elems)
  | LObject members =>
      Datatypes.S (fold_right (fun m n => Nat.max (layout_depth (mb_value m)) n) 0 members)
  | _ => 0
  end.

(** The string a key or string literal stands for. *)
Definition string_value (items : list str_item) : list ascii :=
  match unquote (string_text items) with Some s => s | None => [] end.

(** The value a layout stands for: what the decoder builds from it. A
    number out of range leaves nil behind (and an error, see
    [layout_in_range]). *)
Fixpoint layout_value (d : layout) : jvalue :=
  match d with
  | LNull => JNull
  | LTrue => JBool true
  | LFalse => JBool false
  | LNumber n =>
      match strconv_ParseFloat (number_text n) with
      | Some f => JNumber f
      | None => JNull
      end
  | LString items => JString (string_value items)
  | LArray0 _ => JArray []
  | LArray elems => JArray (map (fun e => layout_value (el_value e)) elems)
  | LObject0 _ => JObject []
  | LObject members =>
      JObject (fold_left (fun m mb => map_assign (string_value (mb_key mb))
                                                 (layout_value (mb_value mb)) m)
                         members [])
  end.

(** Every number of the layout is in the range of [float64]. *)
Fixpoint layout_in_range (d : layout) : bool :=
  match d with
  | LNumber n =>
      match strconv_ParseFloat (number_text n) with Some _ => true | None => false end
  | LArray elems => forallb (fun e => layout_in_range (el_value e)) elems
  | LObject members => forallb (fun m => layout_in_range (mb_value m)) members
  | _ => true
  end.

(** No object of the layout has two members whose keys stand for the same
    string. *)
Fixpoint distinct_keyb (keys : list (list ascii)) : bool :=
  match keys with
  | [] => true
  | k :: keys' => (negb (existsb (bytes_eqb k) keys') && distinct_keyb keys')%bool
  end.

Fixpoint distinct_keys (d : layout) : bool :=
  match d with
  | LArray elems => forallb (fun e => distinct_keys (el_value e)) elems
  | LObject members =>
      (distinct_keyb (map (fun m => string_value (mb_key m)) members)
       && forallb (fun m => distinct_keys (mb_value m)) members)%bool
  | _ => true
  end.


(** The two policy documents of [TestPoliciesSemanticallyEqual]. *)
Definition plain (s : string) : list str_item := map SChar (list_ascii_of_string s).
Definition nl (n : nat) : list ascii := "010"%char :: repeat " "%char n.


Definition policy_b : layout :=
  LObject
    [Member (nl 2) (plain "Statement") [] [" "%char]
       (LArray
          [Element (nl 4)
             (LObject
                [Member (nl 6) (plain "Resource") [] [" "%char] (LString (plain "*")) [];
                 Member (nl 6) (plain "Action") [] [" "%char]
                   (LArray [Element (nl 8) (LString (plain "s3:*")) (nl 6)]) [];
                 Member (nl 6) (plain "Effect") [] [" "%char] (LString (plain "Allow")) (nl 4)])
             (nl 2)]) [];
     Member (nl 2) (plain "Version") [] [" "%char] (LString (plain "2012-10-17")) (nl 0)].

(** The bytes between the quotes of a string literal, as the scanner
    accepts them: no quote or control character outside an escape, and
    every backslash followed by one of the escapes of the grammar. *)
Definition simple_escape (e : ascii) : bool :=
  (Ascii.eqb e dquote || Ascii.eqb e "\" || Ascii.eqb e "/" || Ascii.eqb e "b"
   || Ascii.eqb e "f" || Ascii.eqb e "n" || Ascii.eqb e "r" || Ascii.eqb e "t")%bool.

Fixpoint valid_body (s : list ascii) : bool :=
  match s with
  | [] => true
  | c :: r =>
      if Ascii.eqb c "\" then
        match r with
        | e :: r' =>
            if simple_escape e then valid_body r'
            else if Ascii.eqb e "u" then
              match r' with
              | h1 :: h2 :: h3 :: h4 :: r'' =>
                  (is_hex h1 && is_hex h2 && is_hex h3 && is_hex h4 && valid_body r'')%bool
              | _ => false
              end
            else false
        | [] => false
        end
      else (negb (Ascii.eqb c dquote) && (32 <=? byte_val c)%Z && valid_body r)%bool
  end.

(** The step function the scanner is in after a number literal. *)
Definition number_end_state (n : number_literal) : scan_step :=
  match num_exp n, num_frac n, num_int n with
  | Some _, _, _ => stateE0
  | None, Some _, _ => stateDot0
  | None, None, [c] => if Ascii.eqb c "0" then state0 else state1
  | None, None, _ => state1
  end.

(** What the scanner does with the byte [c] and the bytes [rest] once the
    value [v] has been stored. *)
Definition scan_after (v : jvalue) (ps : list parse_state) (tp : option jvalue) (sv : bool)
           (c : ascii) (rest : list ascii) : option scanner :=
  match do_stateEndValue
          (Scanner stateEndValue (store_value v ps) []
                   (match ps with [] => Some v | _ => tp end) sv) c with
  | Some s' => scan_bytes s' rest
  | None => None
  end.

(** The members of an object assigned in turn to the map [m]. *)
Definition assign_members (members : list (member layout)) (m : list (list ascii * jvalue))
  : list (list ascii * jvalue) :=
  fold_left (fun m mb => map_assign (string_value (mb_key mb)) (layout_value (mb_value mb)) m)
            members m.

(** What reading a value is to do: the text of [d] followed by a delimiter
    is read as the value of [d], within the nesting depth that is left. *)
Definition reads_value (d : layout) : Prop :=
  layout_ok d = true ->
  forall st ps tp sv c rest,
    st = stateBeginValue \/ st = stateBeginValueOrEmpty ->
    accepts_value ps = true ->
    delimiter c = true ->
    (length ps + layout_depth d <= maxNestingDepth)%nat ->
    scan_bytes (Scanner st ps [] tp sv) (layout_text d ++ c :: rest)
    = scan_after (layout_value d) ps tp (sv || negb (layout_in_range d)) c rest.

(* ------------------------------------------------------------------ *)
(** ** Predicates on scanners, maps and documents *)

(** The result of a step of the scanner keeps the numbers finite. *)
Definition keeps_finite (r : option scanner) : Prop :=
  match r with
  | Some s' => finite_scanner s' = true
  | None => True
  end.

(** Entries in strictly increasing order of their keys. *)
Fixpoint sorted_by_key {A : Type} (l : list (list ascii * A)) : Prop :=
  match l with
  | [] => True
  | kx :: l' => Forall (fun ky => bytes_ltb (fst kx) (fst ky) = true) l' /\ sorted_by_key l'
  end.


(** A document [json.Unmarshal] accepts and whose objects have no
    duplicate keys: a JSON text with numbers in the range of [float64],
    nested no deeper than the decoder allows. *)
Definition document (d : layout) : bool :=
  (layout_ok d && distinct_keys d && layout_in_range d
   && (layout_depth d <=? maxNestingDepth)%nat)%bool.

(** The text of a layout as a Go string, with white space around it. *)
Definition document_text (w : list ascii) (d : layout) (w' : list ascii) : string :=
  string_of_list_ascii (w ++ layout_text d ++ w').



(* ------------------------------------------------------------------ *)
(** ** The backoff of the retry engine in closed form *)

(** Lines 440-443: the delay that follows [delay]. *)
Definition next_delay (delay : Z) : Z :=
  if (delay * 2 >? 2 * Second)%Z then (2 * Second)%Z else (delay * 2)%Z.

(** The wait after the failed attempt [i] (counting from 0): 200ms doubled
    [i] times, and never more than 2s. *)
Definition backoff_delay (i : nat) : Z :=
  Z.min (200 * Millisecond * 2 ^ Z.of_nat i) (2 * Second).

(** Inputs of the examples: an operation that fails twice with
    [ServiceFailure] and from then on with an error that is not retryable,
    and a context that is done from the wait [k] on. *)
Definition denied : error := ErrIAM (IamError "AccessDenied" "not allowed").
Definition fails_then_denied (attempts : nat) : option error * nat :=
  let attempts := (attempts + 1)%nat in
  if (attempts <? 3)%nat then (Some temporary, attempts) else (Some denied, attempts).
Definition context_done_at (k : Z) (i : Z) : option error :=
  if (i <? k)%Z then None else Some context_Canceled.

(* ------------------------------------------------------------------ *)
(** ** [net/url]: [QueryEscape] and [Values.Encode]

    [doIAMAction] posts [form.Encode()], which escapes every key and value
    with [QueryEscape]; [GetUserPolicy] reads the policy document back
    through [QueryUnescape]. *)

(** [shouldEscape(c, encodeQueryComponent)]: letters, digits and the marks
    [-], [_], [.] and [~] are kept, every other byte is escaped. *)
Definition shouldEscape (c : ascii) : bool :=
  let b := byte_val c in
  if (((97 <=? b) && (b <=? 122)) || ((65 <=? b) && (b <=? 90))
      || ((48 <=? b) && (b <=? 57)))%Z then false
  else if (Ascii.eqb c "-" || Ascii.eqb c "_" || Ascii.eqb c "." || Ascii.eqb c "~")%bool
  then false
  else true.

(** [upperhex[n]]. *)
Definition upperhex (n : Z) : ascii :=
  nth (Z.to_nat n) (list_ascii_of_string "0123456789ABCDEF") zero.

(** The two counters of the first loop of [escape]. *)
Definition spaceCount (s : list ascii) : nat :=
  length (filter (fun c => shouldEscape c && Ascii.eqb c " ")%bool s).

Definition hexCount (s : list ascii) : nat :=
  length (filter (fun c => shouldEscape c && negb (Ascii.eqb c " "))%bool s).

(** The last loop of [escape]: a space becomes ['+'], a byte to escape
    becomes ['%'] and its two hexadecimal digits. *)
Fixpoint escape_bytes (s : list ascii) : list ascii :=
  match s with
  | [] => []
  | c :: r =>
      if Ascii.eqb c " " then "+"%char :: escape_bytes r
      else if shouldEscape c then
        "%"%char :: upperhex (Z.shiftr (byte_val c) 4) :: upperhex (Z.land (byte_val c) 15)
        :: escape_bytes r
      else c :: escape_bytes r
  end.

(** [url.QueryEscape]: the string itself when nothing is to escape, spaces
    replaced when there is nothing else to escape, the full loop
    otherwise. *)
Definition url_QueryEscape (s : string) : string :=
  let bytes := list_ascii_of_string s in
  if ((spaceCount bytes =? 0) && (hexCount bytes =? 0))%nat then s
  else if (hexCount bytes =? 0)%nat then
    string_of_list_ascii (map (fun c => if Ascii.eqb c " " then "+"%char else c) bytes)
  else string_of_list_ascii (escape_bytes bytes).

(** [slices.Sort(keys)]: the strings in increasing order, byte by byte. *)
Fixpoint insert_string (k : string) (l : list string) : list string :=
  match l with
  | [] => [k]
  | k' :: l' =>
      if bytes_ltb (list_ascii_of_string k') (list_ascii_of_string k)
      then k' :: insert_string k l' else k :: l
  end.

Definition sort_strings (keys : list string) : list string :=
  fold_right insert_string [] keys.

(** The inner loop of [Values.Encode]: the values of one key appended to
    the buffer, with ['&'] before every pair but the first of the buffer. *)
Fixpoint encode_values (keyEscaped : string) (vs : list string) (buf : string) : string :=
  match vs with
  | [] => buf
  | v :: vs' =>
      let buf := if (0 <? String.length buf)%nat then (buf ++ "&")%string else buf in
      encode_values keyEscaped vs' (buf ++ keyEscaped ++ "=" ++ url_QueryEscape v)%string
  end.

(** [Values.Encode], with the order [range_keys] in which [range] hands
    out the keys of the map: the keys are collected in that order and
    sorted, and the pairs are written key by key. *)
Definition url_Values_Encode_range (range_keys : list string) (v : gmap string (list string))
  : string :=
  let keys := sort_strings range_keys in
  fold_left (fun buf k =>
               encode_values (url_QueryEscape k) (default [] (v !! k)) buf)
            keys ""%string.

(** One such order is that of [map_to_list]. *)
Definition url_Values_Encode (v : gmap string (list string)) : string :=
  url_Values_Encode_range (map fst (map_to_list v)) v.

(** A key with its bytes, the bytes being what the sort compares. *)
Definition with_bytes (k : string) : list ascii * string := (list_ascii_of_string k, k).

(** A ['%'] at index [i] that is not followed by two hexadecimal digits. *)
Definition stray_percent (s : list ascii) (i : nat) : Prop :=
  nth_error s i = Some "%"%char
  /\ ~ (exists h1 h2, nth_error s (i + 1) = Some h1 /\ nth_error s (i + 2) = Some h2
                      /\ ishex h1 = true /\ ishex h2 = true).

(** The reply of the server to [GetUserPolicy] in the examples: the
    document escaped as a form value is. *)
Definition escaped_reply (userName policyName document : string)
  : gmap string (list string) -> result getUserPolicyResponse :=
  fun _ => Ok (GetUserPolicyResponse userName policyName (url_QueryEscape document)).

(* ------------------------------------------------------------------ *)
(** ** Signed requests and the bucket calls ([client.go], lines 253-339) *)

(** [err.Error()]: the text of [fmt.Errorf("...: %w", err)] is its prefix
    followed by the text of the wrapped error. *)
Fixpoint error_Error (err : error) : string :=
  match err with
  | ErrIAM e => iamError_Error e
  | ErrOpaque text => text
  | ErrWrap text inner => (text ++ error_Error inner)%string
  end.

(** What [doSignedRequest] hands to the libraries: the service and region
    it signs for, the method, the URL, the content type (no header when
    empty), the body and the credentials. *)
Record request : Type := Request {
  req_service : string;
  req_method : string;
  req_url : string;
  req_contentType : string;
  req_body : string;
  req_region : string;
  req_creds : staticCredentials
}.

(** What becomes of a request: the first library call that fails, with
    its error, or the status and the body of the response. *)
Inductive exchange : Type :=
| BadRequest (e : error)            (* 294: http.NewRequestWithContext *)
| NoCredentials (e : error)         (* 304: c.creds.Retrieve *)
| NotSigned (e : error)             (* 313: c.signer.SignHTTP *)
| NotSent (e : error)               (* 317: c.http.Do *)
| BodyNotRead (e : error)           (* 323: io.ReadAll *)
| Response (status : Z) (data : list ascii).

(** The first non-empty string of a list. *)
Fixpoint first_nonempty (l : list string) : string :=
  match l with
  | [] => ""%string
  | s :: l' => if String.eqb s "" then first_nonempty l' else s
  end.

Section Requests.
Variable xml_Unmarshal_envelope : list ascii -> option iamErrorEnvelope.
Variable xml_Unmarshal_direct : list ascii -> option iamAPIError.
(** The network, with the libraries that build, sign and send a request. *)
Variable network : request -> exchange.

(** [doSignedRequest]; [out] is [xml.Unmarshal(data, out)] for the type of
    [out], or [None] when [out] is nil. The result is the body and the
    decoded value. *)
Definition doSignedRequest {Out : Type} (c : iamClient)
           (service method requestURL contentType body : string)
           (out : option (list ascii -> result Out)) : result (list ascii * option Out) :=
  match network (Request service method requestURL contentType body (region c) (creds c)) with
  | BadRequest err => Fail err
  | NoCredentials err => Fail (ErrWrap "retrieve credentials: " err)
  | NotSigned err => Fail (ErrWrap "sign request: " err)
  | NotSent err => Fail err
  | BodyNotRead err => Fail (ErrWrap "read response body: " err)
  | Response status data =>
      if (status >=? 400)%Z
      then Fail (parseAPIError xml_Unmarshal_envelope xml_Unmarshal_direct status data)
      else
        match out with
        | Some decode =>
            match decode data with
            | Ok v => Ok (data, Some v)
            | Fail err => Fail (ErrWrap "decode xml response: " err)
            end
        | None => Ok (data, None)
        end
  end.

(** The error of a call that returns [(_, error)]. *)
Definition error_of {A : Type} (r : result A) : option error :=
  match r with Ok _ => None | Fail err => Some err end.

Definition CreateBucket (c : iamClient) (name : string) : option error :=
  let path := ("/" ++ name)%string in
  error_of (doSignedRequest (Out := unit) c "s3" "PUT" (endpoint c ++ path) "" "" None).

Definition HeadBucket (c : iamClient) (name : string) : option error :=
  let path := ("/" ++ name)%string in
  error_of (doSignedRequest (Out := unit) c "s3" "HEAD" (endpoint c ++ path) "" "" None).


(** [doIAMAction]: the form is posted to the root of the endpoint. *)
Definition doIAMAction {Out : Type} (c : iamClient) (form : gmap string (list string))
           (out : option (list ascii -> result Out)) : result (list ascii * option Out) :=
  let body := url_Values_Encode form in
  doSignedRequest c "iam" "POST" (endpoint c ++ "/") "application/x-www-form-urlencoded"
                  body out.

(** The calls without a decoded reply ([client.go], lines 167-174, 203-222
    and 243-251). *)
Definition DeleteUser (c : iamClient) (userName : string) : option error :=
  let vals := (∅ : gmap string (list string)) in
  let vals := url_Values_Set "Action" "DeleteUser" vals in
  let vals := url_Values_Set "Version" "2010-05-08" vals in
  let vals := url_Values_Set "UserName" userName vals in
  error_of (doIAMAction (Out := unit) c vals None).

Definition DeleteAccessKey (c : iamClient) (userName accessKeyID : string) : option error :=
  let vals := (∅ : gmap string (list string)) in
  let vals := url_Values_Set "Action" "DeleteAccessKey" vals in
  let vals := url_Values_Set "Version" "2010-05-08" vals in
  let vals := url_Values_Set "UserName" userName vals in
  let vals := url_Values_Set "AccessKeyId" accessKeyID vals in
  error_of (doIAMAction (Out := unit) c vals None).

Definition PutUserPolicy_form (userName policyName policyDocument : string)
  : gmap string (list string) :=
  let vals := (∅ : gmap string (list string)) in
  let vals := url_Values_Set "Action" "PutUserPolicy" vals in
  let vals := url_Values_Set "Version" "2010-05-08" vals in
  let vals := url_Values_Set "UserName" userName vals in
  let vals := url_Values_Set "PolicyName" policyName vals in
  url_Values_Set "PolicyDocument" policyDocument vals.

Definition PutUserPolicy (c : iamClient) (userName policyName policyDocument : string)
  : option error :=
  error_of (doIAMAction (Out := unit) c
                        (PutUserPolicy_form userName policyName policyDocument) None).

Definition DeleteUserPolicy (c : iamClient) (userName policyName : string) : option error :=
  let vals := (∅ : gmap string (list string)) in
  let vals := url_Values_Set "Action" "DeleteUserPolicy" vals in
  let vals := url_Values_Set "Version" "2010-05-08" vals in
  let vals := url_Values_Set "UserName" userName vals in
  let vals := url_Values_Set "PolicyName" policyName vals in
  error_of (doIAMAction (Out := unit) c vals None).
End Requests.

(* ------------------------------------------------------------------ *)
(** ** The bucket resource (the revision without tags) *)

(** [bucketResourceModel], every field with its [ValueString()]. *)
Record bucketResourceModel : Type := BucketResourceModel {
  bucket_ID : string;
  bucket_Bucket : string;
  bucket_ARN : string
}.

(** What a [Create] or a [Read] leaves in its response: the new state, the
    removal of the resource, or an error diagnostic with its summary and
    detail. *)
Inductive response (M : Type) : Type :=
| NewState (m : M)
| Removed
| Failed (summary detail : string).
Arguments NewState {M}.
Arguments Removed {M}.
Arguments Failed {M}.

Section BucketResource.
Variable xml_Unmarshal_envelope : list ascii -> option iamErrorEnvelope.
Variable xml_Unmarshal_direct : list ascii -> option iamAPIError.
Variable network : request -> exchange.
Variable client : iamClient.

Definition bucket_Create (plan : bucketResourceModel) : response bucketResourceModel :=
  match CreateBucket xml_Unmarshal_envelope xml_Unmarshal_direct network client
                     (bucket_Bucket plan) with
  | Some err => Failed "Failed to create bucket" (error_Error err)
  | None =>
      NewState {| bucket_ID := bucket_Bucket plan;
                  bucket_Bucket := bucket_Bucket plan;
                  bucket_ARN := ("arn:aws:s3:::" ++ bucket_Bucket plan)%string |}
  end.

Definition bucket_Read (state : bucketResourceModel) : response bucketResourceModel :=
  match HeadBucket xml_Unmarshal_envelope xml_Unmarshal_direct network client
                   (bucket_Bucket state) with
  | Some err =>
      if isNoSuchBucketError (Some err) then Removed
      else Failed "Failed to read bucket" (error_Error err)
  | None =>
      NewState {| bucket_ID := bucket_Bucket state;
                  bucket_Bucket := bucket_Bucket state;
                  bucket_ARN := ("arn:aws:s3:::" ++ bucket_Bucket state)%string |}
  end.

End BucketResource.

(** The inputs of the examples: a client for a local server, and a server
    that answers every request with the same status and body. *)
Definition local_client : iamClient :=
  IamClient "http://localhost:8333" "us-east-1" (StaticCredentials "key" "secret" "")
            true (HttpClient false (30 * Second)).

Definition always_answers (status : Z) (data : list ascii) (rq : request) : exchange :=
  Response status data.

(* ------------------------------------------------------------------ *)
(** ** The locks while calls of [withUserLock] run *)

(** No mutex is locked. *)
Definition idle (d : providerData) : Prop :=
  iamWrite d = false /\ lockMu d = false /\ Forall (fun b => b = false) (mutexes d).

(** The state of the locks while the call that holds the gate is at [p]:
    the registry lock is held around the lookup, and the lock of the user
    around the wrapped function. *)
Definition expects (p : pc) (d : providerData) : Prop :=
  match p with
  | AtGateLock | Finished _ => True
  | AtRegistryLock | AtGateUnlock _ =>
      iamWrite d = true /\ lockMu d = false /\ Forall (fun b => b = false) (mutexes d)
  | AtRegistryLookup =>
      iamWrite d = true /\ lockMu d = true /\ Forall (fun b => b = false) (mutexes d)
  | AtRegistryUnlock lock =>
      iamWrite d = true /\ lockMu d = true /\ Forall (fun b => b = false) (mutexes d)
      /\ (lock < length (mutexes d))%nat
  | AtUserLock lock =>
      iamWrite d = true /\ lockMu d = false /\ Forall (fun b => b = false) (mutexes d)
      /\ (lock < length (mutexes d))%nat
  | InBody lock | AtUserUnlock lock _ =>
      iamWrite d = true /\ lockMu d = false /\ mutexes d !! lock = Some true
      /\ forall other, other <> lock -> mutexes d !! other <> Some true
  end.

(** Every registered lock is an allocated mutex, and no mutex is
    registered for two user names. *)
Definition registry_valid (d : providerData) : Prop :=
  forall locks userName lock,
    userLocks d = Some locks -> locks !! userName = Some lock ->
    (lock < length (mutexes d))%nat.

Definition registry_injective (d : providerData) : Prop :=
  forall locks u1 u2 lock,
    userLocks d = Some locks -> locks !! u1 = Some lock -> locks !! u2 = Some lock ->
    u1 = u2.

(** How far a call has come: the number of steps it has taken. *)
Definition progress (p : pc) : nat :=
  match p with
  | AtGateLock => 0
  | AtRegistryLock => 1
  | AtRegistryLookup => 2
  | AtRegistryUnlock _ => 3
  | AtUserLock _ => 4
  | InBody _ => 5
  | AtUserUnlock _ _ => 6
  | AtGateUnlock _ => 7
  | Finished _ => 8
  end.

Section LockProgress.
Context {W : Type}.

(** Either no call holds the gate and no mutex is locked, or exactly one
    call holds the gate and the locks are as its program point expects. *)
Definition lock_invariant (st : system W) : Prop :=
  registry_valid (sys_data st)
  /\ ((forall i c, sys_calls st !! i = Some c -> ~ holds_gate (call_pc c))
      /\ idle (sys_data st)
      \/ exists i c,
          sys_calls st !! i = Some c /\ holds_gate (call_pc c)
          /\ expects (call_pc c) (sys_data st)
          /\ forall j c', sys_calls st !! j = Some c' -> holds_gate (call_pc c') -> j = i).

Definition all_finished (st : system W) : Prop :=
  Forall (fun c => exists res, call_pc c = Finished res) (sys_calls st).

(** The steps all calls together have taken. *)
Definition steps_taken (st : system W) : nat :=
  list_sum (map (fun c => progress (call_pc c)) (sys_calls st)).
End LockProgress.

(** The example system after the first call for ["alice"] has taken the
    gate, found its lock and entered its wrapped function, five steps. *)
Definition alice_in_body : system nat :=
  match run_schedule [0; 0; 0; 0; 0]%nat three_calls with
  | Some st => st
  | None => three_calls
  end.

(** The mutex a call has been handed by [getUserLock]. *)
Definition uses_lock (p : pc) : option nat :=
  match p with
  | AtRegistryUnlock lock | AtUserLock lock | InBody lock | AtUserUnlock lock _ => Some lock
  | _ => None
  end.

(* ------------------------------------------------------------------ *)
(** ** Documents at the limits of the decoder *)

(** [n + 1] arrays nested in one another, without white space. *)
Fixpoint nested_arrays (n : nat) : layout :=
  match n with
  | O => LArray0 []
  | Datatypes.S n' => LArray [Element [] (nested_arrays n') []]
  end.

(** An array with a number above the range of [float64]. *)
Definition out_of_range_array : layout :=
  LArray [Element [] (LNumber (NumberLiteral false (list_ascii_of_string "1")
                                             None (Some ("e"%char, None,
                                                         list_ascii_of_string "999"))))
                  []].

(** Three strings for which the comparison is not transitive: a number
    after a vertical tab (which is white space for [strings.TrimSpace] and
    not for JSON), the number, and the number with a fraction. *)
Definition padded_one : string := String "011"%char "1".

(* ------------------------------------------------------------------ *)
(** ** [strings.Split] with a one-byte separator *)

(** [strings.Count(s, sep)] and [strings.Index(s, sep)] for a separator of
    one byte. *)
Definition strings_Count_byte (s : list ascii) (sep : ascii) : nat :=
  length (List.filter (Ascii.eqb sep) s).

Fixpoint strings_IndexByte (s : list ascii) (sep : ascii) : option nat :=
  match s with
  | [] => None
  | c :: s' =>
      if Ascii.eqb c sep then Some 0%nat
      else match strings_IndexByte s' sep with
           | Some m => Some (Datatypes.S m)
           | None => None
           end
  end.

(** The loop of [genSplit]: [fuel] is [n - 1 - i], the number of pieces
    still to cut off before the last one. *)
Fixpoint genSplit_loop (fuel : nat) (s : list ascii) (sep : ascii) : list (list ascii) :=
  match fuel with
  | O => [s]
  | Datatypes.S fuel' =>
      match strings_IndexByte s sep with
      | None => [s]
      | Some m => firstn m s :: genSplit_loop fuel' (skipn (m + 1) s) sep
      end
  end.

(** [strings.Split(s, sep)]: [n] is [Count(s, sep) + 1]. *)
Definition strings_Split_byte (s : string) (sep : ascii) : list string :=
  map string_of_list_ascii
      (genSplit_loop (strings_Count_byte (list_ascii_of_string s) sep)
                     (list_ascii_of_string s) sep).

(* ------------------------------------------------------------------ *)
(** ** The access key and user resources: [Read] and [ImportState] *)

Record iamUser : Type := IamUser {
  user_UserName : string;
  user_Arn : string;
  user_UserID : string;
  user_Path : string
}.

Record iamAccessKeyMetadata : Type := IamAccessKeyMetadata {
  meta_UserName : string;
  meta_AccessKeyID : string;
  meta_Status : string
}.

(** [iamAccessKeyResourceModel] and [iamUserResourceModel], every field
    with its [ValueString()]. *)
Record iamAccessKeyResourceModel : Type := IamAccessKeyResourceModel {
  key_ID : string;
  key_UserName : string;
  key_AccessKeyID : string;
  key_SecretAccessKey : string;
  key_Status : string
}.

Record iamUserResourceModel : Type := IamUserResourceModel {
  usr_ID : string;
  usr_Name : string;
  usr_Path : string;
  usr_ARN : string;
  usr_UserID : string
}.

(** The loop of [Read] over the listed keys: it stops at the first key
    with the access key id of the state. *)
Fixpoint find_access_key (keys : list iamAccessKeyMetadata) (accessKeyID : string)
  : bool * string :=
  match keys with
  | [] => (false, ""%string)
  | key :: keys' =>
      if String.eqb (meta_AccessKeyID key) accessKeyID then (true, meta_Status key)
      else find_access_key keys' accessKeyID
  end.

(** What [ImportState] leaves in its response: the attributes it sets, in
    order, or an error diagnostic. *)
Inductive import_response : Type :=
| Imported (attributes : list (string * string))
| ImportFailed (summary detail : string).

Definition accessKey_ImportState (ID : string) : import_response :=
  match strings_Split_byte ID "," with
  | [part0; part1] =>
      Imported [("id", part1); ("user_name", part0); ("access_key_id", part1)]%string
  | _ =>
      ImportFailed "Invalid import ID"
                   "Expected import id in format `user_name,access_key_id`."
  end.

Section ResourceReads.
Variable xml_Unmarshal_envelope : list ascii -> option iamErrorEnvelope.
Variable xml_Unmarshal_direct : list ascii -> option iamAPIError.
Variable network : request -> exchange.
(** [xml.Unmarshal] into a [getUserResponse] and into a
    [listAccessKeysResponse], giving the [User] and the [Items]. *)
Variable xml_Unmarshal_user : list ascii -> result iamUser.
Variable xml_Unmarshal_keys : list ascii -> result (list iamAccessKeyMetadata).
Variable client : iamClient.

Definition GetUser (userName : string) : result iamUser :=
  let vals := (∅ : gmap string (list string)) in
  let vals := url_Values_Set "Action" "GetUser" vals in
  let vals := url_Values_Set "Version" "2010-05-08" vals in
  let vals := url_Values_Set "UserName" userName vals in
  match doIAMAction xml_Unmarshal_envelope xml_Unmarshal_direct network client vals
                    (Some xml_Unmarshal_user) with
  | Fail err => Fail err
  | Ok (_, Some user) => Ok user
  | Ok (_, None) => Ok (IamUser "" "" "" "")
  end.

Definition ListAccessKeys (userName : string) : result (list iamAccessKeyMetadata) :=
  let vals := (∅ : gmap string (list string)) in
  let vals := url_Values_Set "Action" "ListAccessKeys" vals in
  let vals := url_Values_Set "Version" "2010-05-08" vals in
  let vals := url_Values_Set "UserName" userName vals in
  match doIAMAction xml_Unmarshal_envelope xml_Unmarshal_direct network client vals
                    (Some xml_Unmarshal_keys) with
  | Fail err => Fail err
  | Ok (_, Some items) => Ok items
  | Ok (_, None) => Ok []
  end.

(** [iamAccessKeyResource.Read]. *)
Definition accessKey_Read (state : iamAccessKeyResourceModel)
  : response iamAccessKeyResourceModel :=
  match ListAccessKeys (key_UserName state) with
  | Fail err =>
      if isNoSuchEntityError (Some err) then Removed
      else Failed "Failed to read IAM access key" (error_Error err)
  | Ok keys =>
      let '(found, status) := find_access_key keys (key_AccessKeyID state) in
      if negb found then Removed
      else NewState {| key_ID := key_AccessKeyID state;
                       key_UserName := key_UserName state;
                       key_AccessKeyID := key_AccessKeyID state;
                       key_SecretAccessKey := key_SecretAccessKey state;
                       key_Status := status |}
  end.

(** [iamUserResource.Read]. *)
Definition user_Read (state : iamUserResourceModel) : response iamUserResourceModel :=
  match GetUser (usr_Name state) with
  | Fail err =>
      if isNoSuchEntityError (Some err) then Removed
      else Failed "Failed to read IAM user" (error_Error err)
  | Ok user =>
      let userPath := user_Path user in
      let userPath :=
        if String.eqb userPath "" then
          let userPath := usr_Path state in
          if String.eqb userPath "" then "/"%string else userPath
        else userPath in
      NewState {| usr_ID := user_UserName user;
                  usr_Name := user_UserName user;
                  usr_Path := userPath;
                  usr_ARN := user_Arn user;
                  usr_UserID := user_UserID user |}
  end.
End ResourceReads.

(** The inputs of the examples: decoders that give the same user and the
    same two keys whatever the body is. *)
Definition sample_user (data : list ascii) : result iamUser :=
  Ok (IamUser "alice" "arn:aws:iam:::user/alice" "alice" "").

Definition sample_keys (data : list ascii) : result (list iamAccessKeyMetadata) :=
  Ok [IamAccessKeyMetadata "alice" "AKIA1" "Inactive";
      IamAccessKeyMetadata "alice" "AKIA2" "Active";
      IamAccessKeyMetadata "alice" "AKIA2" "Inactive"].

(* ------------------------------------------------------------------ *)
(** ** [Configure] of the provider ([provider.go], lines 23-29 and 98-137) *)

(** [types.String] and [types.Bool] of the plugin framework: null,
    unknown, or a known value. [ValueString] and [ValueBool] give the zero
    value for null and unknown. *)
Inductive tf_String : Type :=
| StringNull
| StringUnknown
| StringValue (s : string).

Inductive tf_Bool : Type :=
| BoolNull
| BoolUnknown
| BoolValue (b : bool).

Definition String_IsNull (v : tf_String) : bool :=
  match v with StringNull => true | _ => false end.
Definition String_IsUnknown (v : tf_String) : bool :=
  match v with StringUnknown => true | _ => false end.
Definition ValueString (v : tf_String) : string :=
  match v with StringValue s => s | _ => ""%string end.

Definition Bool_IsNull (v : tf_Bool) : bool :=
  match v with BoolNull => true | _ => false end.
Definition Bool_IsUnknown (v : tf_Bool) : bool :=
  match v with BoolUnknown => true | _ => false end.
Definition ValueBool (v : tf_Bool) : bool :=
  match v with BoolValue b => b | _ => false end.

Record seaweedfsProviderModel : Type := SeaweedfsProviderModel {
  model_Endpoint : tf_String;
  model_Region : tf_String;
  model_AccessKey : tf_String;
  model_SecretKey : tf_String;
  model_Insecure : tf_Bool
}.

(** What [Configure] leaves in its response once the configuration is
    read: an error diagnostic, or the client and the provider data that
    the resources share. *)
Inductive configure_response : Type :=
| ConfigureFailed (summary detail : string)
| Configured (client : iamClient) (data : providerData).

Definition Configure (config : seaweedfsProviderModel) : configure_response :=
  let region := "us-east-1"%string in
  let region :=
    if (negb (String_IsNull (model_Region config))
        && negb (String_IsUnknown (model_Region config))
        && negb (String.eqb (ValueString (model_Region config)) ""))%bool
    then ValueString (model_Region config) else region in
  let insecure := false in
  let insecure :=
    if (negb (Bool_IsNull (model_Insecure config))
        && negb (Bool_IsUnknown (model_Insecure config)))%bool
    then ValueBool (model_Insecure config) else insecure in
  match newIAMClient {| Endpoint := ValueString (model_Endpoint config);
                        Region := region;
                        AccessKey := ValueString (model_AccessKey config);
                        SecretKey := ValueString (model_SecretKey config);
                        Insecure := insecure |} with
  | Fail err =>
      ConfigureFailed "Unable to configure SeaweedFS IAM client"
                      ("Failed to build client: " ++ error_Error err)
  | Ok client => Configured client (ProviderData false false (Some ∅) [])
  end.

(* ------------------------------------------------------------------ *)
(** ** Bucket tags (the later revision of [client.go], lines 296-350) *)

(** [aws.ToString]: the string a pointer points to, or the empty string
    for nil. *)
Definition aws_ToString (p : option string) : string :=
  match p with Some s => s | None => ""%string end.

(** The tag set [PutBucketTags] sends: the keys of the map, in the order
    [range_keys] in which [range] hands them out, are sorted, and every key
    is paired with its value. *)
Definition PutBucketTags_tagSet (range_keys : list string) (tags : gmap string string)
  : list (string * string) :=
  map (fun key => (key, default ""%string (tags !! key))) (sort_strings range_keys).

(** The map [GetBucketTags] builds from a tag set, tag by tag. *)
Definition GetBucketTags_tags (tagSet : list (option string * option string))
  : gmap string string :=
  fold_left (fun tags tag => <[aws_ToString (fst tag) := aws_ToString (snd tag)]> tags)
            tagSet ∅.

Section BucketTags.
(** The S3 service behind the client: [Server] is the state of the
    service, which [PutBucketTagging] changes and [GetBucketTagging] reads.
    [isNoSuchTagSetError] is applied to the errors of the S3 client (which
    are not [iamError] values). *)
Context {Server : Type}.
Variable s3_GetBucketTagging :
  Server -> string -> result (list (option string * option string)).
Variable s3_PutBucketTagging :
  Server -> string -> list (option string * option string) -> option error * Server.
Variable isNoSuchTagSetError : error -> bool.

Definition GetBucketTags (srv : Server) (name : string) : result (gmap string string) :=
  match s3_GetBucketTagging srv name with
  | Fail err =>
      if isNoSuchTagSetError err then Ok ∅
      else Fail (ErrWrap "get bucket tagging: " err)
  | Ok tagSet => Ok (GetBucketTags_tags tagSet)
  end.

(** [PutBucketTags] returns its error and leaves the service in the state
    after the call of [PutBucketTagging]. *)
Definition PutBucketTags (range_keys : list string) (srv : Server) (name : string)
           (tags : gmap string string) : option error * Server :=
  let tagSet := map (fun kv => (Some (fst kv), Some (snd kv)))
                    (PutBucketTags_tagSet range_keys tags) in
  match s3_PutBucketTagging srv name tagSet with
  | (Some err, srv') => (Some (ErrWrap "put bucket tagging: " err), srv')
  | (None, srv') => (None, srv')
  end.

(** A service that keeps the tag sets: after a successful
    [PutBucketTagging] for a bucket, [GetBucketTagging] for that bucket
    returns the tag set that was put. *)
Definition keeps_tag_sets : Prop :=
  forall (srv srv' : Server) (name : string) (tagSet : list (option string * option string)),
    s3_PutBucketTagging srv name tagSet = (None, srv') ->
    s3_GetBucketTagging srv' name = Ok tagSet.
End BucketTags.

(** Such a service: its state is the tag set of the last
    [PutBucketTagging] per bucket. *)
Definition stored_tags (store : gmap string (list (option string * option string)))
           (name : string)
  : result (list (option string * option string)) :=
  match store !! name with
  | Some tagSet => Ok tagSet
  | None => Fail (ErrOpaque "NoSuchTagSet")
  end.

Definition store_tags (store : gmap string (list (option string * option string)))
           (name : string) (tagSet : list (option string * option string))
  : option error * gmap string (list (option string * option string)) :=
  (None, <[name := tagSet]> store).

Definition sample_tags : gmap string string :=
  <["env"%string := "prod"%string]> (<["team"%string := "data"%string]> ∅).

(* ------------------------------------------------------------------ *)
(** ** ASCII white space around a string *)

(** An ASCII byte that is not white space. *)
Definition solid (c : ascii) : bool :=
  ((byte_val c <? RuneSelf)%Z && negb (asciiSpace c))%bool.

(** A string that starts and ends with such a byte, or is empty. *)
Definition solid_ends (s : list ascii) : bool :=
  match s with
  | [] => true
  | c :: _ => (solid c && solid (last s c))%bool
  end.

(* ================================================================== *)
(** * Part II: lemmas and theorems *)
(* ================================================================== *)

(* ------------------------------------------------------------------ *)
(** ** The error classifier *)

Lemma orb_eqb_iff (s a : string) (b : bool) :
  (String.eqb s a || b)%bool = true <-> s = a \/ b = true.
Proof.
  rewrite Bool.orb_true_iff, String.eqb_eq. reflexivity.
Qed.

(** The predicates look through wrapping: a wrapped error is classified as
    the error it wraps. *)
Lemma errors_As_wrap (text : string) (err : error) :
  errors_As (Some (ErrWrap text err)) = errors_As (Some err).
Proof. reflexivity. Qed.

Lemma isRetryableIAMError_nil : isRetryableIAMError None = false.
Proof. reflexivity. Qed.

(** C2. On an API error value the classifier predicates are decided by the
    code string alone: not-found is exactly ["NoSuchEntity"], already-exists
    exactly ["EntityAlreadyExists"], bucket-already-exists exactly
    ["BucketAlreadyOwnedByYou"] or ["BucketAlreadyExists"], service-failure
    exactly ["ServiceFailure"], ["HTTP500"] or ["HTTP503"]; retryable is the
    union of not-found and service-failure, so ["NoSuchEntity"] is retryable
    and ["EntityAlreadyExists"] is not. *)
Theorem classifier_decides_by_code (e : iamError) :
  let err := Some (ErrIAM e) in
  (isNoSuchEntityError err = true <-> Code e = "NoSuchEntity"%string)
  /\ (isEntityAlreadyExistsError err = true <-> Code e = "EntityAlreadyExists"%string)
  /\ (isBucketAlreadyExistsError err = true <->
        Code e = "BucketAlreadyOwnedByYou"%string \/ Code e = "BucketAlreadyExists"%string)
  /\ (isServiceFailureError err = true <->
        Code e = "ServiceFailure"%string \/ Code e = "HTTP500"%string
        \/ Code e = "HTTP503"%string)
  /\ (isRetryableIAMError err = true <->
        isNoSuchEntityError err = true \/ isServiceFailureError err = true)
  /\ (Code e = "NoSuchEntity"%string -> isRetryableIAMError err = true)
  /\ (Code e = "EntityAlreadyExists"%string -> isRetryableIAMError err = false).
Proof.
  destruct e as [code msg]; cbn -[String.eqb].
  unfold isNoSuchEntityError, isEntityAlreadyExistsError, isBucketAlreadyExistsError,
    isServiceFailureError, isRetryableIAMError, isNoSuchEntityError, isServiceFailureError;
    cbn -[String.eqb].
  repeat split; try (intros H; subst code; reflexivity).
  all: rewrite ?Bool.orb_true_iff, ?String.eqb_eq; tauto.
Qed.

(** C7. The no-such-bucket predicate holds exactly for the four codes
    ["NoSuchBucket"], ["NotFound"], ["NoSuchKey"] and ["NoSuchEntity"],
    whatever the message is. *)
Theorem isNoSuchBucketError_iff (code msg : string) :
  isNoSuchBucketError (Some (ErrIAM (IamError code msg))) = true <->
  code = "NoSuchBucket"%string \/ code = "NotFound"%string
  \/ code = "NoSuchKey"%string \/ code = "NoSuchEntity"%string.
Proof.
  unfold isNoSuchBucketError; cbn -[String.eqb].
  rewrite !Bool.orb_true_iff, !String.eqb_eq. tauto.
Qed.

(* ------------------------------------------------------------------ *)
(** ** The retry engine *)

Section RetryFacts.
Context {S : Type}.
Variable ctx : Z -> option error.
Variable fn : S -> option error * S.

Lemma outcome_S (k : nat) (s : S) :
  outcome fn (Datatypes.S k) s = outcome fn k (snd (fn s)).
Proof. reflexivity. Qed.

Lemma state_before_S (k : nat) (s : S) :
  state_before fn (Datatypes.S k) s = snd (fn (state_before fn k s)).
Proof.
  revert s; induction k as [|k IH]; intros s; [reflexivity|].
  cbn [state_before]. rewrite <- IH. reflexivity.
Qed.

Lemma retry_loop_succeeds (k : nat) :
  forall fuel attempts i delay lastErr s n ws,
    (forall j, (j < k)%nat -> fails_retryable fn j s) ->
    outcome fn k s = None ->
    (forall j, (i <= j < i + Z.of_nat k)%Z -> ctx j = None) ->
    fuel = Z.to_nat (attempts - i) ->
    (i + Z.of_nat k < attempts)%Z ->
    let r := retry_loop ctx fn fuel attempts i delay lastErr s n ws in
    returned r = None /\ invocations r = (n + k + 1)%nat
    /\ final r = state_before fn (k + 1) s.
Proof.
  induction k as [|k IH]; intros fuel attempts i delay lastErr s n ws Hfail Hok Hctx Hfuel Hlt.
  - destruct fuel as [|fuel]; [lia|]. cbn [retry_loop].
    destruct (Z.ltb_spec i attempts); [|lia].
    unfold outcome in Hok; cbn [state_before] in Hok.
    destruct (fn s) as [err s'] eqn:Efn; cbn in Hok; subst err.
    cbn. repeat split; try lia. rewrite Efn; reflexivity.
  - destruct fuel as [|fuel]; [lia|]. cbn [retry_loop].
    destruct (Z.ltb_spec i attempts); [|lia].
    destruct (Hfail 0%nat ltac:(lia)) as (e & He & Hre).
    unfold outcome in He; cbn [state_before] in He.
    destruct (fn s) as [err s'] eqn:Efn; cbn in He; subst err.
    rewrite Hre; cbn [negb].
    destruct (Z.eqb_spec i (attempts - 1)); [lia|].
    rewrite (Hctx i) by lia.
    cbn zeta.
    edestruct (IH fuel attempts (i + 1)%Z) as (H1 & H2 & H3); cycle 5.
    + rewrite H1, H2, H3. repeat split; try lia.
      cbn [state_before Nat.add]. rewrite Efn. reflexivity.
    + intros j Hj. specialize (Hfail (Datatypes.S j) ltac:(lia)).
      destruct Hfail as (e' & He' & Hr'). exists e'. split; [|exact Hr'].
      rewrite outcome_S, Efn in He'. exact He'.
    + rewrite outcome_S, Efn in Hok. exact Hok.
    + intros j Hj. apply Hctx. lia.
    + lia.
    + lia.
Qed.

Lemma retry_loop_exhausts (fuel : nat) :
  forall attempts i delay lastErr s n ws,
    (forall j, (j <= fuel)%nat -> fails_retryable fn j s) ->
    (forall j, (i <= j < attempts - 1)%Z -> ctx j = None) ->
    Datatypes.S fuel = Z.to_nat (attempts - i) ->
    let r := retry_loop ctx fn (Datatypes.S fuel) attempts i delay lastErr s n ws in
    returned r = outcome fn fuel s /\ invocations r = (n + fuel + 1)%nat
    /\ final r = state_before fn (fuel + 1) s.
Proof.
  induction fuel as [|fuel IH]; intros attempts i delay lastErr s n ws Hfail Hctx Hfuel.
  - cbn [retry_loop].
    destruct (Z.ltb_spec i attempts); [|lia].
    destruct (Hfail 0%nat ltac:(lia)) as (e & He & Hre).
    unfold outcome in *; cbn [state_before] in *.
    destruct (fn s) as [err s'] eqn:Efn; cbn in He; subst err.
    rewrite Hre; cbn [negb].
    destruct (Z.eqb_spec i (attempts - 1)); [|lia].
    cbn. rewrite Efn. repeat split; lia.
  - remember (Datatypes.S fuel) as fuel1. cbn [retry_loop].
    destruct (Z.ltb_spec i attempts); [|lia].
    destruct (Hfail 0%nat ltac:(lia)) as (e & He & Hre).
    unfold outcome in He; cbn [state_before] in He.
    destruct (fn s) as [err s'] eqn:Efn; cbn in He; subst err.
    rewrite Hre; cbn [negb].
    destruct (Z.eqb_spec i (attempts - 1)); [lia|].
    rewrite (Hctx i) by lia.
    cbn zeta. subst fuel1.
    edestruct (IH attempts (i + 1)%Z) as (H1 & H2 & H3); cycle 3.
    + rewrite H1, H2, H3. repeat split; try lia.
      * rewrite outcome_S, Efn. reflexivity.
      * cbn [state_before Nat.add]. rewrite Efn. reflexivity.
    + intros j Hj. specialize (Hfail (Datatypes.S j) ltac:(lia)).
      destruct Hfail as (e' & He' & Hr'). exists e'. split; [|exact Hr'].
      rewrite outcome_S, Efn in He'. exact He'.
    + intros j Hj. apply Hctx. lia.
    + lia.
Qed.
End RetryFacts.

(* ------------------------------------------------------------------ *)
(** ** Every run of the retry engine *)

Lemma next_delay_backoff (i : nat) :
  next_delay (backoff_delay i) = backoff_delay (Datatypes.S i).
Proof.
  unfold next_delay, backoff_delay, Millisecond, Second.
  rewrite Nat2Z.inj_succ, Z.pow_succ_r by lia.
  assert (Hpos : (0 < 2 ^ Z.of_nat i)%Z) by (apply Z.pow_pos_nonneg; lia).
  destruct (Z.gtb_spec (Z.min (200 * 1000000 * 2 ^ Z.of_nat i) (2 * 1000000000) * 2)
                       (2 * 1000000000)); lia.
Qed.

Lemma iter_next_delay (j : nat) : Nat.iter j next_delay (200 * Millisecond)%Z = backoff_delay j.
Proof.
  induction j as [|j IH]; [reflexivity|].
  rewrite Nat.iter_succ, IH. apply next_delay_backoff.
Qed.

Section RetryRuns.
Context {S : Type}.
Variable ctx : Z -> option error.
Variable fn : S -> option error * S.

(** What a run of the loop is, whatever [fn] and the context do: [k + 1]
    invocations, of which the first [k] failed with a retryable error and
    were followed by a wait. *)
Lemma retry_loop_run (fuel : nat) :
  forall attempts i delay lastErr s n ws,
    Datatypes.S fuel = Z.to_nat (attempts - i) ->
    let r := retry_loop ctx fn (Datatypes.S fuel) attempts i delay lastErr s n ws in
    exists k,
      (k <= fuel)%nat
      /\ invocations r = (n + k + 1)%nat
      /\ final r = state_before fn (k + 1) s
      /\ waits r = ws ++ map (fun j => Nat.iter j next_delay delay) (seq 0 k)
      /\ (forall j, (j < k)%nat ->
                    fails_retryable fn j s /\ ctx (i + Z.of_nat j)%Z = None)
      /\ (returned r = outcome fn k s
          /\ (outcome fn k s = None \/ isRetryableIAMError (outcome fn k s) = false
              \/ k = fuel)
          \/ fails_retryable fn k s /\ (k < fuel)%nat
             /\ exists e, ctx (i + Z.of_nat k)%Z = Some e /\ returned r = Some e).
Proof.
  induction fuel as [|fuel IH]; intros attempts i delay lastErr s n ws Hfuel.
  - cbn [retry_loop]. destruct (Z.ltb_spec i attempts); [|lia].
    destruct (fn s) as [err s'] eqn:Efn.
    exists 0%nat. unfold outcome. cbn [state_before Nat.add seq map]. rewrite Efn, app_nil_r.
    cbn [fst snd].
    destruct err as [e|]; [destruct (isRetryableIAMError (Some e)) eqn:Er; cbn [negb];
                           [destruct (Z.eqb_spec i (attempts - 1)); [|lia]|]|];
      cbn; repeat split; try lia; try (intros; lia); left; split; auto.
  - remember (Datatypes.S fuel) as fuel1. cbn [retry_loop].
    destruct (Z.ltb_spec i attempts); [|lia].
    destruct (fn s) as [err s'] eqn:Efn.
    assert (H0 : outcome fn 0 s = err) by (unfold outcome; cbn; rewrite Efn; reflexivity).
    assert (Hs1 : state_before fn 1 s = s') by (cbn; rewrite Efn; reflexivity).
    destruct err as [e|].
    + destruct (isRetryableIAMError (Some e)) eqn:Er; cbn [negb].
      * destruct (Z.eqb_spec i (attempts - 1)); [lia|].
        destruct (ctx i) as [ctxErr|] eqn:Ectx.
        -- exists 0%nat. cbn [invocations final waits returned seq map].
           rewrite app_nil_r, Z.add_0_r. repeat split; try lia; try (intros; lia); auto.
           right. split; [exists e; auto|]. split; [lia|]. exists ctxErr. auto.
        -- subst fuel1.
           destruct (IH attempts (i + 1)%Z
                        (if (delay * 2 >? 2 * Second)%Z then (2 * Second)%Z else (delay * 2)%Z)
                        (Some e) s' (n + 1)%nat (ws ++ [delay]) ltac:(lia))
             as (k & Hk & Hinv & Hfin & Hw & Hbefore & Hret).
           exists (Datatypes.S k). split; [lia|]. split; [lia|].
           split.
           { rewrite Hfin. cbn [state_before Nat.add]. rewrite Efn. reflexivity. }
           split.
           { rewrite Hw, <- app_assoc. f_equal. cbn [seq map app Nat.iter]. f_equal.
             rewrite <- seq_shift, map_map. apply map_ext. intros j.
             rewrite Nat.iter_succ_r. reflexivity. }
           split.
           { intros [|j] Hj.
             - rewrite Z.add_0_r. split; [exists e; auto | exact Ectx].
             - destruct (Hbefore j ltac:(lia)) as [Hf Hc]. split.
               + destruct Hf as (e' & He' & Hr'). exists e'. split; [|exact Hr'].
                 rewrite outcome_S, Efn. exact He'.
               + rewrite <- Hc. f_equal. lia. }
           rewrite !outcome_S, Efn. cbn [snd].
           destruct Hret as [(Hr & Hwhy)|(Hf & Hlt & e' & He' & Hr)].
           ++ left. split; [exact Hr|].
              destruct Hwhy as [?|[?|?]]; [auto | auto | right; right; lia].
           ++ right. split.
              { destruct Hf as (e'' & He'' & Hr''). exists e''. split; [|exact Hr''].
                rewrite outcome_S, Efn. exact He''. }
              split; [lia|]. exists e'. split; [|exact Hr]. rewrite <- He'. f_equal. lia.
      * exists 0%nat. cbn [invocations final waits returned seq map Nat.add].
        rewrite app_nil_r. repeat split; try lia; try (intros; lia); auto.
        all: try (left; rewrite H0; auto).
    + exists 0%nat. cbn [invocations final waits returned seq map Nat.add].
      rewrite app_nil_r. repeat split; try lia; try (intros; lia); auto.
      all: try (left; rewrite H0; auto).
Qed.
End RetryRuns.

(** Every run of [retryIAMEventuallyConsistent]: [k + 1] invocations
    within the budget; the first [k] failed with a retryable error and
    were each followed by a wait that the context let pass; the run ends
    with the result of the last invocation (nil, an error that is not
    retryable, or the last error of an exhausted budget) or with the error
    of the context. *)
Lemma retry_run {S : Type} (ctx : Z -> option error) (fn : S -> option error * S)
      (n : Z) (s : S) :
  let r := retryIAMEventuallyConsistent ctx fn n s in
  let budget := Z.to_nat (Z.max n 1) in
  exists k,
    (k < budget)%nat
    /\ invocations r = (k + 1)%nat
    /\ final r = state_before fn (k + 1) s
    /\ waits r = map backoff_delay (seq 0 k)
    /\ (forall j, (j < k)%nat -> fails_retryable fn j s /\ ctx (Z.of_nat j) = None)
    /\ (returned r = outcome fn k s
        /\ (outcome fn k s = None \/ isRetryableIAMError (outcome fn k s) = false
            \/ (k + 1)%nat = budget)
        \/ fails_retryable fn k s /\ (k + 1 < budget)%nat
           /\ exists e, ctx (Z.of_nat k) = Some e /\ returned r = Some e).
Proof.
  cbv zeta. unfold retryIAMEventuallyConsistent.
  set (attempts := if (n <? 1)%Z then 1%Z else n).
  assert (Hb : Z.max n 1 = attempts)
    by (subst attempts; destruct (Z.ltb_spec n 1); lia).
  rewrite Hb. assert (Hpos : (1 <= attempts)%Z) by lia. clearbody attempts.
  destruct (Z.to_nat attempts) as [|fuel] eqn:Ef; [lia|].
  destruct (retry_loop_run ctx fn fuel attempts 0%Z (200 * Millisecond)%Z None s 0%nat []
              ltac:(lia)) as (k & Hk & Hinv & Hfin & Hw & Hbefore & Hret).
  exists k. split; [lia|]. split; [exact Hinv|]. split; [exact Hfin|]. split.
  { rewrite Hw. cbn [app]. apply map_ext. intros j. apply iter_next_delay. }
  split; [exact Hbefore|].
  destruct Hret as [(Hr & Hwhy)|(Hf & Hlt & e & He & Hr)].
  - left. split; [exact Hr|]. destruct Hwhy as [?|[?|?]]; [auto | auto | right; right; lia].
  - right. split; [exact Hf|]. split; [lia|]. exists e. auto.
Qed.

(** C1 (as amended). The number of invocations of [fn], for every budget
    [n], every operation and every context:
    - when [fn] fails with a retryable error exactly [k] times and then
      succeeds, [max n 1 >= k + 1], and the context is not done during the
      [k] waits in between, the engine returns nil after exactly [k + 1]
      invocations;
    - when the first invocation fails with an error that is not retryable,
      the engine invokes [fn] exactly once and returns that error;
    - when every invocation fails with a retryable error and the context is
      not done during the [max n 1 - 1] waits, the engine invokes [fn]
      exactly [max n 1] times and returns the error of the last
      invocation;
    - when the context is done during a wait, the engine stops there and
      returns the error of the context: when [fn] fails with retryable
      errors on its first [k + 1] invocations, with budget left, and the
      context is done for the first time during the wait after invocation
      [k], the engine returns the error of the context after exactly
      [k + 1] invocations. *)
Theorem retry_invocation_count {S : Type} (ctx : Z -> option error)
    (fn : S -> option error * S) (n : Z) (s : S) :
  let r := retryIAMEventuallyConsistent ctx fn n s in
  let budget := Z.max n 1 in
  (forall k : nat,
      (forall j, (j < k)%nat -> fails_retryable fn j s) ->
      outcome fn k s = None ->
      (Z.of_nat k + 1 <= budget)%Z ->
      (forall i, (0 <= i < Z.of_nat k)%Z -> ctx i = None) ->
      returned r = None /\ invocations r = (k + 1)%nat)
  /\ (forall e,
      outcome fn 0 s = Some e ->
      isRetryableIAMError (Some e) = false ->
      returned r = Some e /\ invocations r = 1%nat)
  /\ ((forall j, fails_retryable fn j s) ->
      (forall i, (0 <= i < budget - 1)%Z -> ctx i = None) ->
      invocations r = Z.to_nat budget
      /\ returned r = outcome fn (Z.to_nat budget - 1) s)
  /\ (forall (k : nat) (e : error),
      (forall j, (j <= k)%nat -> fails_retryable fn j s) ->
      (Z.of_nat k + 1 < budget)%Z ->
      (forall i, (0 <= i < Z.of_nat k)%Z -> ctx i = None) ->
      ctx (Z.of_nat k) = Some e ->
      returned r = Some e /\ invocations r = (k + 1)%nat).
Proof.
  cbv zeta.
  assert (Hdone : forall (k : nat) (e : error),
             (forall j, (j <= k)%nat -> fails_retryable fn j s) ->
             (Z.of_nat k + 1 < Z.max n 1)%Z ->
             (forall i, (0 <= i < Z.of_nat k)%Z -> ctx i = None) ->
             ctx (Z.of_nat k) = Some e ->
             returned (retryIAMEventuallyConsistent ctx fn n s) = Some e
             /\ invocations (retryIAMEventuallyConsistent ctx fn n s) = (k + 1)%nat).
  { intros k e Hfail Hbudget Hctx Hstop.
    destruct (retry_run ctx fn n s) as (k' & Hk & Hinv & Hfin & Hw & Hbefore & Hret).
    assert (Hkk : k' = k).
    { destruct (Nat.lt_trichotomy k' k) as [Hlt|[Heq|Hgt]]; [|exact Heq|].
      - exfalso. destruct (Hfail k' ltac:(lia)) as (e' & He' & Hre').
        destruct Hret as [(_ & Hwhy)|(_ & _ & e'' & He'' & _)].
        + rewrite He' in Hwhy.
          destruct Hwhy as [?|[?|?]]; [discriminate | congruence | lia].
        + rewrite Hctx in He'' by lia. discriminate.
      - exfalso. destruct (Hbefore k Hgt) as [_ Hnone]. congruence. }
    subst k'. split; [|exact Hinv].
    destruct (Hfail k ltac:(lia)) as (e' & He' & Hre').
    destruct Hret as [(_ & Hwhy)|(_ & _ & e'' & He'' & Hr)].
    - exfalso. rewrite He' in Hwhy.
      destruct Hwhy as [?|[?|?]]; [discriminate | congruence | lia].
    - congruence. }
  revert Hdone. unfold retryIAMEventuallyConsistent.
  set (attempts := if (n <? 1)%Z then 1%Z else n).
  assert (Hb : Z.max n 1 = attempts)
    by (subst attempts; destruct (Z.ltb_spec n 1); lia).
  rewrite Hb. assert (Hpos : (1 <= attempts)%Z) by lia. clearbody attempts.
  intros Hdone. split; [|split; [|split; [|exact Hdone]]].
  - intros k Hfail Hok Hk Hctx.
    destruct (retry_loop_succeeds ctx fn k (Z.to_nat attempts) attempts 0%Z
                (200 * Millisecond)%Z None s 0%nat [] Hfail Hok) as (H1 & H2 & _);
      [intros; apply Hctx; lia | f_equal; lia | lia |].
    split; [exact H1 | rewrite H2; lia].
  - intros e He Hnr.
    destruct (Z.to_nat attempts) as [|fuel] eqn:Ef; [lia|].
    cbn [retry_loop]. destruct (Z.ltb_spec 0 attempts); [|lia].
    unfold outcome in He; cbn [state_before] in He.
    destruct (fn s) as [err s'] eqn:Efn; cbn in He; subst err.
    rewrite Hnr. cbn. split; reflexivity.
  - intros Hfail Hctx.
    destruct (Z.to_nat attempts) as [|fuel] eqn:Ef; [lia|].
    destruct (retry_loop_exhausts ctx fn fuel attempts 0%Z (200 * Millisecond)%Z
                None s 0%nat []) as (H1 & H2 & _);
      [intros; apply Hfail | intros; apply Hctx; lia | lia |].
    rewrite H1, H2. split; [lia | f_equal; lia].
Qed.

(** The two tests of [client_test.go], a budget below one and a context
    that is done during the third wait: with a budget of 4 the counting
    closure is invoked 3 times and the engine returns nil; the opaque error
    stops the engine after one invocation; a budget of 0 is a budget of 1;
    and with a budget of 6 the engine returns the error of the context
    after 3 invocations. *)
Lemma retry_invocation_count_witness :
  (returned (retryIAMEventuallyConsistent context_Background fails_twice 4 0%nat) = None
   /\ invocations (retryIAMEventuallyConsistent context_Background fails_twice 4 0%nat) = 3%nat)
  /\ (returned (retryIAMEventuallyConsistent context_Background boom 5 0%nat)
        = Some (ErrOpaque "boom")
      /\ invocations (retryIAMEventuallyConsistent context_Background boom 5 0%nat) = 1%nat)
  /\ (invocations (retryIAMEventuallyConsistent context_Background always_ServiceFailure 0 tt)
        = 1%nat
      /\ returned (retryIAMEventuallyConsistent context_Background always_ServiceFailure 0 tt)
         = Some temporary)
  /\ (returned (retryIAMEventuallyConsistent (context_done_at 2) always_ServiceFailure 6 tt)
        = Some context_Canceled
      /\ invocations (retryIAMEventuallyConsistent (context_done_at 2)
                                                   always_ServiceFailure 6 tt) = 3%nat).
Proof.
  split; [|split; [|split]].
  - apply (proj1 (retry_invocation_count context_Background fails_twice 4 0%nat) 2%nat).
    + intros j Hj. exists temporary.
      destruct j as [|[|j]]; [split; reflexivity | split; reflexivity | lia].
    + reflexivity.
    + simpl; lia.
    + reflexivity.
  - apply (proj1 (proj2 (retry_invocation_count context_Background boom 5 0%nat))).
    + reflexivity.
    + reflexivity.
  - apply (proj1 (proj2 (proj2
             (retry_invocation_count context_Background always_ServiceFailure 0 tt)))).
    + intros j. exists temporary. split; [|reflexivity].
      unfold outcome. destruct (state_before always_ServiceFailure j tt). reflexivity.
    + reflexivity.
  - apply (proj2 (proj2 (proj2
             (retry_invocation_count (context_done_at 2) always_ServiceFailure 6 tt)))
             2%nat context_Canceled).
    + intros j Hj. exists temporary. split; [|reflexivity].
      unfold outcome. destruct (state_before always_ServiceFailure j tt). reflexivity.
    + simpl; lia.
    + intros i Hi. unfold context_done_at. destruct (Z.ltb_spec i 2); [reflexivity | lia].
    + reflexivity.
Defined.

(** C1 as stated fails when the context is done during a wait: with a
    budget of 5 and an operation that fails with [ServiceFailure] on every
    invocation, a cancelled context makes the engine return after one
    invocation, with the context's error and not the last error of [fn]. *)
Lemma retry_cancelled_counterexample :
  let r := retryIAMEventuallyConsistent context_cancelled always_ServiceFailure 5 tt in
  outcome always_ServiceFailure 0 tt = Some temporary
  /\ isRetryableIAMError (Some temporary) = true
  /\ Z.to_nat (Z.max 5 1) = 5%nat
  /\ invocations r = 1%nat
  /\ invocations r <> Z.to_nat (Z.max 5 1)
  /\ returned r = Some context_Canceled
  /\ returned r <> outcome always_ServiceFailure (Z.to_nat (Z.max 5 1) - 1) tt.
Proof.
  cbv zeta. repeat split; try reflexivity; try discriminate.
Qed.

(** The delays of an exhausted budget of 5: 200ms, 400ms, 800ms and 1.6s,
    and a cap of 2s from the fifth wait on. *)
Example retry_waits_budget_5 :
  waits (retryIAMEventuallyConsistent context_Background always_ServiceFailure 5 tt)
  = [200000000; 400000000; 800000000; 1600000000]%Z
  /\ waits (retryIAMEventuallyConsistent context_Background always_ServiceFailure 7 tt)
     = [200000000; 400000000; 800000000; 1600000000; 2000000000; 2000000000]%Z.
Proof. split; reflexivity. Qed.

(* ------------------------------------------------------------------ *)
(** ** Client construction *)

Lemma eqb_empty_iff (s : string) : String.eqb s "" = true <-> s = ""%string.
Proof. apply String.eqb_eq. Qed.

(** C5. [newIAMClient] fails exactly when the endpoint, the access key or
    the secret key is empty; with the three set it builds a client, also
    for an empty region, which becomes ["us-east-1"]. *)
Theorem newIAMClient_fails_iff (cfg : iamClientConfig) :
  (is_Fail (newIAMClient cfg) = true <->
     Endpoint cfg = ""%string \/ AccessKey cfg = ""%string \/ SecretKey cfg = ""%string)
  /\ (Endpoint cfg <> ""%string -> AccessKey cfg <> ""%string -> SecretKey cfg <> ""%string ->
      exists c, newIAMClient cfg = Ok c
                /\ region c = (if String.eqb (Region cfg) "" then "us-east-1"%string
                               else Region cfg)
                /\ creds c = StaticCredentials (AccessKey cfg) (SecretKey cfg) "").
Proof.
  unfold newIAMClient.
  destruct (String.eqb_spec (Endpoint cfg) ""), (String.eqb_spec (AccessKey cfg) ""),
    (String.eqb_spec (SecretKey cfg) ""); cbn; split;
    try (split; [intros; tauto | intros; reflexivity]);
    try (intros; congruence).
  - split; [discriminate | tauto].
  - intros _ _ _. eexists. split; [reflexivity|]. split; reflexivity.
Qed.

Example newIAMClient_empty_region :
  exists c, newIAMClient (IamClientConfig "http://localhost:8333/" "" "key" "secret" false)
            = Ok c
            /\ region c = "us-east-1"%string /\ endpoint c = "http://localhost:8333"%string.
Proof. eexists. split; [reflexivity|]. split; reflexivity. Qed.

(* ------------------------------------------------------------------ *)
(** ** Error bodies *)

(** C6. When neither a code nor a message can be decoded from the body,
    [parseAPIError] returns the synthetic code ["HTTP<status>"] with the
    trimmed body as the message, for every status. *)
Theorem parseAPIError_fallback
    (xml_envelope : list ascii -> option iamErrorEnvelope)
    (xml_direct : list ascii -> option iamAPIError)
    (status : Z) (data : list ascii) :
  nothing_decoded xml_envelope xml_direct data ->
  parseAPIError xml_envelope xml_direct status data
  = ErrIAM {| Code := ("HTTP" ++ itoa status)%string;
              Message := strings_TrimSpace (string_of_list_ascii data) |}.
Proof.
  unfold nothing_decoded, parseAPIError.
  destruct (xml_envelope data) as [[ecode emsg [ncode nmsg]]|]; [|reflexivity].
  cbn [env_Error env_Code env_Message api_Code api_Message].
  intros (-> & -> & -> & -> & Hd). cbn.
  destruct (xml_direct data) as [[dcode dmsg]|]; [|reflexivity].
  cbn in Hd. destruct Hd as [-> ->]. reflexivity.
Qed.

Lemma parseAPIError_fallback_witness :
  parseAPIError sample_xml_envelope sample_xml_direct 502 sample_body_text
  = ErrIAM (IamError "HTTP502" "upstream connect error")
  /\ parseAPIError sample_xml_envelope sample_xml_direct 404 sample_body_empty
     = ErrIAM (IamError "HTTP404" "<Error></Error>").
Proof.
  split.
  - apply (parseAPIError_fallback sample_xml_envelope sample_xml_direct 502 sample_body_text).
    vm_compute. exact I.
  - apply (parseAPIError_fallback sample_xml_envelope sample_xml_direct 404 sample_body_empty).
    vm_compute. repeat split.
Defined.

(** When something is decoded, the decoded code and message are kept. *)
Example parseAPIError_decoded :
  parseAPIError sample_xml_envelope sample_xml_direct 404 sample_body_nested
  = ErrIAM (IamError "NoSuchEntity" "Not found")
  /\ parseAPIError sample_xml_envelope sample_xml_direct 404 sample_body_bare
     = ErrIAM (IamError "NoSuchBucket" "Not Found").
Proof. split; reflexivity. Qed.

(* ------------------------------------------------------------------ *)
(** ** [GetUserPolicy] *)

(** C10. [GetUserPolicy] posts the [GetUserPolicy] form; when the action
    succeeds it returns the unescaped policy document, or the document as
    received when unescaping fails, in both cases with a nil error; an
    error is returned exactly when the action fails, and it is the
    action's. *)
Theorem GetUserPolicy_result
    (doIAMAction : gmap string (list string) -> result getUserPolicyResponse)
    (userName policyName : string) :
  let form := GetUserPolicy_form userName policyName in
  let got := GetUserPolicy doIAMAction userName policyName in
  (forall out decoded,
      doIAMAction form = Ok out ->
      url_QueryUnescape (resp_PolicyDocument out) = Ok decoded ->
      got = (decoded, None))
  /\ (forall out e,
      doIAMAction form = Ok out ->
      url_QueryUnescape (resp_PolicyDocument out) = Fail e ->
      got = (resp_PolicyDocument out, None))
  /\ (forall err, doIAMAction form = Fail err -> got = (""%string, Some err))
  /\ (snd got <> None <-> is_Fail (doIAMAction form) = true).
Proof.
  cbv zeta. unfold GetUserPolicy. fold (GetUserPolicy_form userName policyName).
  destruct (doIAMAction (GetUserPolicy_form userName policyName)) as [out|err].
  - destruct (url_QueryUnescape (resp_PolicyDocument out)) as [d|e] eqn:Eu;
      repeat split; intros; try congruence; cbn in *; try congruence.
  - repeat split; intros; try congruence; cbn in *; try congruence.
Qed.

(** The policy document of [client_test.go], and one with a stray ['%']. *)
Example GetUserPolicy_examples :
  GetUserPolicy
    (fun _ => Ok (GetUserPolicyResponse "alice" "p1" "%7B%22Version%22%3A%222012-10-17%22%7D"))
    "alice" "p1"
  = (string_of_list_ascii
       (list_ascii_of_string "{" ++ [byte_of 34] ++ list_ascii_of_string "Version"
        ++ [byte_of 34] ++ list_ascii_of_string ":" ++ [byte_of 34]
        ++ list_ascii_of_string "2012-10-17" ++ [byte_of 34] ++ list_ascii_of_string "}"),
     None)
  /\ GetUserPolicy (fun _ => Ok (GetUserPolicyResponse "alice" "p1" "100% of s3:*"))
       "alice" "p1"
     = ("100% of s3:*"%string, None).
Proof. split; reflexivity. Qed.

(* ------------------------------------------------------------------ *)
(** ** The per-user lock registry *)

Lemma insert_restore (ms : list bool) (lock : nat) (b : bool) :
  ms !! lock = Some false -> <[lock := false]> (<[lock := b]> ms) = ms.
Proof.
  intros H. rewrite list_insert_insert_eq. apply list_insert_id. exact H.
Qed.

(** The data after lines 52-62: only the registry entry of [userName] and,
    for a new entry, the fresh mutex are added. *)
Lemma getUserLock_lookup_spec (userName : string) (d : providerData) :
  locks_free d ->
  let '(lock, d') := getUserLock_lookup userName d in
  locks_free d'
  /\ mutexes d' !! lock = Some false
  /\ registered userName d' = Some lock
  /\ (forall lock0, registered userName d = Some lock0 -> lock = lock0 /\ mutexes d' = mutexes d)
  /\ (registered userName d = None ->
      lock = length (mutexes d) /\ mutexes d' = mutexes d ++ [false])
  /\ (forall other, other <> userName -> registered other d' = registered other d).
Proof.
  intros (Hg & Hr & Hfree). unfold getUserLock_lookup, registered.
  destruct d as [g r ul ms]; cbn in *. subst g r.
  set (locks := match ul with Some locks => locks | None => ∅ end).
  assert (Hlocks : forall u l, locks !! u = Some l -> ms !! l = Some false).
  { subst locks. destruct ul as [m|]; intros u l H.
    - eapply Hfree; eauto.
    - rewrite lookup_empty in H. discriminate. }
  assert (Hreg : forall u, match ul with Some m => m !! u | None => None end = locks !! u).
  { subst locks. destruct ul; intros; [reflexivity | rewrite lookup_empty; reflexivity]. }
  rewrite !Hreg. clearbody locks.
  destruct (locks !! userName) as [lock|] eqn:El; cbn.
  - repeat split; cbn; try reflexivity.
    + intros m u l [= <-] Hl. eauto.
    + eauto.
    + exact El.
    + congruence.
    + discriminate.
    + discriminate.
    + intros other _. rewrite Hreg. reflexivity.
  - repeat split; cbn; try reflexivity.
    + intros m u l [= <-] Hl.
      destruct (decide (userName = u)) as [->|Hne].
      * rewrite lookup_insert_eq in Hl. injection Hl as <-.
        rewrite lookup_app_r by lia. rewrite Nat.sub_diag. reflexivity.
      * rewrite lookup_insert_ne in Hl by exact Hne.
        rewrite lookup_app_l; [eauto|]. eapply lookup_lt_Some; eauto.
    + rewrite lookup_app_r by lia. rewrite Nat.sub_diag. reflexivity.
    + apply lookup_insert_eq.
    + discriminate.
    + discriminate.
    + intros other Hne. rewrite lookup_insert_ne by congruence. rewrite Hreg. reflexivity.
Qed.

Lemma run_call_step {W : Type} (fuel : nat) (userName : string)
    (fn : W -> fn_outcome * W) (p : pc) (d : providerData) (w : W)
    (p' : pc) (d' : providerData) (w' : W) (ev : event) :
  call_step userName fn p d w = Some (p', d', w', ev) ->
  run_call (Datatypes.S fuel) userName fn p d w
  = match run_call fuel userName fn p' d' w' with
    | None => None
    | Some (res, d'', w'', evs) => Some (res, d'', w'', ev :: evs)
    end.
Proof.
  intros Hs. destruct p; cbn [run_call]; try (rewrite Hs; reflexivity).
  discriminate Hs.
Qed.

Lemma call_trace_step {W : Type} (fuel : nat) (userName : string)
    (fn : W -> fn_outcome * W) (p : pc) (d : providerData) (w : W)
    (p' : pc) (d' : providerData) (w' : W) (ev : event) :
  call_step userName fn p d w = Some (p', d', w', ev) ->
  call_trace (Datatypes.S fuel) userName fn p d w
  = (p, d, w) :: call_trace fuel userName fn p' d' w'.
Proof. intros Hs. cbn [call_trace]. rewrite Hs. reflexivity. Qed.

Lemma call_trace_stuck {W : Type} (fuel : nat) (userName : string)
    (fn : W -> fn_outcome * W) (p : pc) (d : providerData) (w : W) :
  call_step userName fn p d w = None ->
  call_trace fuel userName fn p d w = [(p, d, w)].
Proof. intros Hs. destruct fuel; cbn [call_trace]; [|rewrite Hs]; reflexivity. Qed.

Lemma run_call_stuck {W : Type} (fuel : nat) (userName : string)
    (fn : W -> fn_outcome * W) (p : pc) (d : providerData) (w : W) :
  call_step userName fn p d w = None -> (forall res, p <> Finished res) ->
  run_call fuel userName fn p d w = None.
Proof.
  intros Hs Hp. destruct p; try (destruct fuel; cbn [run_call]; [|rewrite Hs]; reflexivity).
  exfalso. exact (Hp _ eq_refl).
Qed.

(** The eight steps of a call on a provider whose locks are free. *)
Lemma withUserLock_steps {W : Type} (userName : string) (fn : W -> fn_outcome * W)
    (d : providerData) (w : W) (lock : nat) (d' : providerData) :
  locks_free d ->
  getUserLock_lookup userName d = (lock, d') ->
  let held := set_iamWrite true d' in
  let res := fst (fn w) in
  let w' := snd (fn w) in
  call_step userName fn AtGateLock d w
  = Some (AtRegistryLock, set_iamWrite true d, w, Acquire Gate)
  /\ call_step userName fn AtRegistryLock (set_iamWrite true d) w
     = Some (AtRegistryLookup, set_lockMu true (set_iamWrite true d), w, Acquire Registry)
  /\ call_step userName fn AtRegistryLookup (set_lockMu true (set_iamWrite true d)) w
     = Some (AtRegistryUnlock lock, set_lockMu true held, w, Lookup userName lock)
  /\ call_step userName fn (AtRegistryUnlock lock) (set_lockMu true held) w
     = Some (AtUserLock lock, held, w, Release Registry)
  /\ call_step userName fn (AtUserLock lock) held w
     = Some (InBody lock, set_mutex lock true held, w, Acquire (UserLock lock))
  /\ call_step userName fn (InBody lock) (set_mutex lock true held) w
     = Some (AtUserUnlock lock res, set_mutex lock true held, w', Call)
  /\ call_step userName fn (AtUserUnlock lock res) (set_mutex lock true held) w'
     = Some (AtGateUnlock res, held, w', Release (UserLock lock))
  /\ call_step userName fn (AtGateUnlock res) held w'
     = Some (Finished res, d', w', Release Gate).
Proof.
  intros Hfree Elk. cbv zeta.
  pose proof (getUserLock_lookup_spec userName d Hfree) as Hspec.
  rewrite Elk in Hspec. destruct Hspec as (Hfree' & Hmx & _).
  destruct Hfree as (Hg & Hr & _).
  assert (Hg' : iamWrite d' = false /\ lockMu d' = false) by (destruct Hfree'; tauto).
  assert (Elk' : getUserLock_lookup userName (set_lockMu true (set_iamWrite true d))
                 = (lock, set_lockMu true (set_iamWrite true d'))).
  { revert Elk. unfold getUserLock_lookup. cbn.
    destruct (_ !! userName); intros [= <- <-]; reflexivity. }
  assert (Hlen : (lock < length (mutexes d'))%nat) by (eapply lookup_lt_Some; eauto).
  clear Elk Hfree'.
  destruct d' as [g' r' ul' ms']. cbn in Hg', Hmx, Hlen. destruct Hg' as [-> ->].
  repeat split.
  - cbn. rewrite Hg. reflexivity.
  - cbn. rewrite Hr. reflexivity.
  - cbn [call_step]. rewrite Elk'. reflexivity.
  - cbn. rewrite Hmx. reflexivity.
  - cbn. destruct (fn w). reflexivity.
  - cbn. rewrite list_lookup_insert_eq by exact Hlen. unfold set_mutex. cbn.
    rewrite insert_restore by exact Hmx. reflexivity.
Qed.

(** C8. A call [withUserLock(userName, fn)] on a provider whose locks are
    free acquires the gate, then the lock of [userName], runs [fn] once,
    releases the two in the reverse order and ends with the outcome of [fn],
    whether [fn] returns nil, returns an error or panics. The
    configurations the call passes through show the locks: the gate is
    locked from the first step to the last, the lock of [userName] is
    locked while [fn] runs and unlocked before the gate is. The lock is the
    registered one when [userName] has one, and a new mutex otherwise; it
    is registered afterwards, so a later call gets the same lock; the locks
    are free again. To acquire is to wait: a call does not get past the
    gate while the gate is locked, nor past the lock of [userName] while
    that is locked, and [fn] does not run then. *)
Theorem withUserLock_sequential {W : Type} (userName : string) (fn : W -> fn_outcome * W)
    (d : providerData) (w : W) :
  locks_free d ->
  let lock := lock_of userName d in
  let d' := snd (getUserLock_lookup userName d) in
  let held := set_iamWrite true d' in
  let res := fst (fn w) in
  let w' := snd (fn w) in
  withUserLock userName fn d w
  = Some (res, d', w',
          [Acquire Gate; Acquire Registry; Lookup userName lock; Release Registry;
           Acquire (UserLock lock); Call; Release (UserLock lock); Release Gate])
  /\ withUserLock_trace userName fn d w
     = [(AtGateLock, d, w);
        (AtRegistryLock, set_iamWrite true d, w);
        (AtRegistryLookup, set_lockMu true (set_iamWrite true d), w);
        (AtRegistryUnlock lock, set_lockMu true held, w);
        (AtUserLock lock, held, w);
        (InBody lock, set_mutex lock true held, w);
        (AtUserUnlock lock res, set_mutex lock true held, w');
        (AtGateUnlock res, held, w');
        (Finished res, d', w')]
  /\ (iamWrite (set_mutex lock true held) = true
      /\ mutexes (set_mutex lock true held) !! lock = Some true)
  /\ (iamWrite held = true /\ mutexes held !! lock = Some false)
  /\ locks_free d'
  /\ mutexes d' !! lock = Some false
  /\ (forall lock0, registered userName d = Some lock0 -> lock = lock0)
  /\ (registered userName d = None -> lock = length (mutexes d))
  /\ registered userName d' = Some lock
  /\ lock_of userName d' = lock
  /\ (forall other, other <> userName -> registered other d' = registered other d)
  /\ (forall (d0 : providerData) (w0 : W),
         iamWrite d0 = true ->
         withUserLock_trace userName fn d0 w0 = [(AtGateLock, d0, w0)]
         /\ withUserLock userName fn d0 w0 = None)
  /\ (forall (d0 : providerData) (w0 : W) (lock0 : nat),
         iamWrite d0 = false -> lockMu d0 = false ->
         registered userName d0 = Some lock0 -> mutexes d0 !! lock0 = Some true ->
         withUserLock_trace userName fn d0 w0
         = [(AtGateLock, d0, w0);
            (AtRegistryLock, set_iamWrite true d0, w0);
            (AtRegistryLookup, set_lockMu true (set_iamWrite true d0), w0);
            (AtRegistryUnlock lock0, set_lockMu true (set_iamWrite true d0), w0);
            (AtUserLock lock0, set_iamWrite true d0, w0)]
         /\ withUserLock userName fn d0 w0 = None).
Proof.
  intros Hfree. cbv zeta. unfold lock_of.
  pose proof (getUserLock_lookup_spec userName d Hfree) as Hspec.
  destruct (getUserLock_lookup userName d) as [lock d'] eqn:Elk. cbn [fst snd].
  destruct Hspec as (Hfree' & Hmx & Hreg & Hold & Hnew & Hother).
  destruct (withUserLock_steps userName fn d w lock d' Hfree Elk)
    as (S1 & S2 & S3 & S4 & S5 & S6 & S7 & S8).
  assert (Hlen : (lock < length (mutexes d'))%nat) by (eapply lookup_lt_Some; eauto).
  split; [|split; [|split; [|split; [|split; [exact Hfree'|split; [exact Hmx|
    split; [|split; [|split; [exact Hreg|split; [|split; [exact Hother|split]]]]]]]]]]].
  - unfold withUserLock.
    rewrite (run_call_step 7 _ _ _ _ _ _ _ _ _ S1), (run_call_step 6 _ _ _ _ _ _ _ _ _ S2),
      (run_call_step 5 _ _ _ _ _ _ _ _ _ S3), (run_call_step 4 _ _ _ _ _ _ _ _ _ S4),
      (run_call_step 3 _ _ _ _ _ _ _ _ _ S5), (run_call_step 2 _ _ _ _ _ _ _ _ _ S6),
      (run_call_step 1 _ _ _ _ _ _ _ _ _ S7), (run_call_step 0 _ _ _ _ _ _ _ _ _ S8).
    reflexivity.
  - unfold withUserLock_trace.
    rewrite (call_trace_step 7 _ _ _ _ _ _ _ _ _ S1), (call_trace_step 6 _ _ _ _ _ _ _ _ _ S2),
      (call_trace_step 5 _ _ _ _ _ _ _ _ _ S3), (call_trace_step 4 _ _ _ _ _ _ _ _ _ S4),
      (call_trace_step 3 _ _ _ _ _ _ _ _ _ S5), (call_trace_step 2 _ _ _ _ _ _ _ _ _ S6),
      (call_trace_step 1 _ _ _ _ _ _ _ _ _ S7), (call_trace_step 0 _ _ _ _ _ _ _ _ _ S8).
    reflexivity.
  - split; [reflexivity|]. cbn. apply list_lookup_insert_eq. exact Hlen.
  - split; [reflexivity | exact Hmx].
  - intros lock0 H. apply Hold in H. tauto.
  - intros H. apply Hnew in H. tauto.
  - pose proof (getUserLock_lookup_spec userName d' Hfree') as Hspec'.
    destruct (getUserLock_lookup userName d') as [lock' d''].
    destruct Hspec' as (_ & _ & _ & Hold' & _). cbn.
    destruct (Hold' lock Hreg) as [-> _]. reflexivity.
  - intros d0 w0 Hheld.
    assert (Hs : call_step userName fn AtGateLock d0 w0 = None)
      by (cbn [call_step]; rewrite Hheld; reflexivity).
    split; [apply call_trace_stuck, Hs | apply run_call_stuck; [exact Hs | discriminate]].
  - intros d0 w0 lock0 Hg0 Hr0 Hreg0 Hmx0.
    destruct d0 as [g0 r0 ul0 ms0]. cbn [iamWrite lockMu mutexes] in Hg0, Hr0, Hmx0.
    subst g0 r0. unfold registered in Hreg0. cbn [userLocks] in Hreg0.
    destruct ul0 as [locks|]; [|discriminate Hreg0].
    set (d0 := ProviderData false false (Some locks) ms0) in *.
    assert (B1 : call_step userName fn AtGateLock d0 w0
                 = Some (AtRegistryLock, set_iamWrite true d0, w0, Acquire Gate))
      by reflexivity.
    assert (B2 : call_step userName fn AtRegistryLock (set_iamWrite true d0) w0
                 = Some (AtRegistryLookup, set_lockMu true (set_iamWrite true d0), w0,
                         Acquire Registry))
      by reflexivity.
    assert (B3 : call_step userName fn AtRegistryLookup
                   (set_lockMu true (set_iamWrite true d0)) w0
                 = Some (AtRegistryUnlock lock0, set_lockMu true (set_iamWrite true d0), w0,
                         Lookup userName lock0)).
    { unfold d0. cbn [call_step]. unfold getUserLock_lookup.
      cbn [set_lockMu set_iamWrite userLocks iamWrite lockMu mutexes].
      rewrite Hreg0. reflexivity. }
    assert (B4 : call_step userName fn (AtRegistryUnlock lock0)
                   (set_lockMu true (set_iamWrite true d0)) w0
                 = Some (AtUserLock lock0, set_iamWrite true d0, w0, Release Registry)).
    { reflexivity. }
    assert (B5 : call_step userName fn (AtUserLock lock0) (set_iamWrite true d0) w0 = None)
      by (unfold d0; cbn [call_step set_iamWrite mutexes]; rewrite Hmx0; reflexivity).
    split.
    + unfold withUserLock_trace.
      rewrite (call_trace_step 7 _ _ _ _ _ _ _ _ _ B1), (call_trace_step 6 _ _ _ _ _ _ _ _ _ B2),
        (call_trace_step 5 _ _ _ _ _ _ _ _ _ B3), (call_trace_step 4 _ _ _ _ _ _ _ _ _ B4),
        (call_trace_stuck 4 _ _ _ _ _ B5).
      reflexivity.
    + unfold withUserLock.
      rewrite (run_call_step 7 _ _ _ _ _ _ _ _ _ B1), (run_call_step 6 _ _ _ _ _ _ _ _ _ B2),
        (run_call_step 5 _ _ _ _ _ _ _ _ _ B3), (run_call_step 4 _ _ _ _ _ _ _ _ _ B4),
        (run_call_stuck 4 _ _ _ _ _ B5) by discriminate.
      reflexivity.
Qed.

(** On a fresh provider a call for ["alice"] allocates mutex 0 and holds
    the gate and that mutex while the function runs; the next call for
    ["alice"] takes mutex 0 again, also after a panic. *)
Lemma withUserLock_sequential_witness :
  withUserLock "alice" (fun n : nat => (Panics "boom", Datatypes.S n)) fresh_provider 0%nat
  = Some (Panics "boom",
          snd (getUserLock_lookup "alice" fresh_provider), 1%nat,
          [Acquire Gate; Acquire Registry; Lookup "alice" 0; Release Registry;
           Acquire (UserLock 0); Call; Release (UserLock 0); Release Gate])
  /\ nth_error (withUserLock_trace "alice" (fun n : nat => (Panics "boom", Datatypes.S n))
                                   fresh_provider 0%nat) 5
     = Some (InBody 0, ProviderData true false (Some (<["alice"%string := 0%nat]> ∅)) [true],
             0%nat)
  /\ lock_of "alice" (snd (getUserLock_lookup "alice" fresh_provider)) = 0%nat.
Proof.
  assert (Hfree : locks_free fresh_provider).
  { repeat split. intros locks u l [= <-] H. rewrite lookup_empty in H. discriminate. }
  pose proof (withUserLock_sequential "alice"
                (fun n : nat => (Panics "boom", Datatypes.S n)) fresh_provider 0%nat Hfree)
    as (H1 & H2 & _ & _ & _ & _ & _ & _ & _ & H3 & _).
  split; [exact H1 | split; [rewrite H2; reflexivity | exact H3]].
Defined.

Section MutualExclusion.
Context {W : Type}.
Implicit Types (st : system W) (c : call W).

Lemma gate_invariant_initial st : initial st -> gate_invariant st.
Proof.
  intros (_ & _ & _ & Hpc).
  assert (Hno : forall i c, sys_calls st !! i = Some c -> ~ holds_gate (call_pc c)).
  { intros i c Hc. rewrite Forall_forall in Hpc.
    rewrite (Hpc c); [intros []|]. apply list_elem_of_In.
    eapply list_elem_of_lookup_2; eauto. }
  split; [intros _; exact Hno|].
  intros i j ci cj Hi _ Hgi _. exfalso. eapply Hno; eauto.
Qed.

(** A step of a call that holds the gate before and after leaves the gate
    locked; the acquiring step finds it free; the releasing step frees it. *)
Lemma call_step_gate (u : string) (fn : W -> fn_outcome * W) (p p' : pc)
      (d d' : providerData) (w w' : W) (ev : event) :
  call_step u fn p d w = Some (p', d', w', ev) ->
  (holds_gate p /\ holds_gate p' /\ iamWrite d' = iamWrite d)
  \/ (p = AtGateLock /\ holds_gate p' /\ iamWrite d = false /\ iamWrite d' = true)
  \/ (holds_gate p /\ ~ holds_gate p' /\ iamWrite d' = false).
Proof.
  destruct p; cbn.
  - destruct (iamWrite d) eqn:E; [discriminate|]. intros [= <- <- <- <-].
    right; left. cbn. auto.
  - destruct (lockMu d); [discriminate|]. intros [= <- <- <- <-]. left. cbn. auto.
  - unfold getUserLock_lookup. destruct (_ !! u); intros [= <- <- <- <-]; left; cbn; auto.
  - destruct (lockMu d); [|discriminate]. intros [= <- <- <- <-]. left. cbn. auto.
  - destruct (mutexes d !! lock) as [[|]|]; try discriminate.
    intros [= <- <- <- <-]. left. cbn. auto.
  - destruct (fn w). intros [= <- <- <- <-]. left. cbn. auto.
  - destruct (mutexes d !! lock) as [[|]|]; try discriminate.
    intros [= <- <- <- <-]. left. cbn. auto.
  - destruct (iamWrite d); [|discriminate]. intros [= <- <- <- <-].
    right; right. cbn. auto.
  - discriminate.
Qed.

Lemma gate_invariant_step st st' :
  gate_invariant st -> system_step st st' -> gate_invariant st'.
Proof.
  intros [Hfree Hone] Hstep.
  destruct Hstep as [st i c p' d' w' ev Hc Hs].
  unfold gate_invariant. cbn [sys_data sys_calls].
  assert (Hlen : (i < length (sys_calls st))%nat) by (eapply lookup_lt_Some; eauto).
  assert (Hget : forall j cj,
             <[i := CallAt (call_userName c) (call_fn c) p']> (sys_calls st) !! j = Some cj ->
             (j = i /\ call_pc cj = p') \/ (j <> i /\ sys_calls st !! j = Some cj)).
  { intros j cj Hj. destruct (decide (j = i)) as [->|Hne].
    - rewrite list_lookup_insert_eq in Hj by exact Hlen. injection Hj as <-. left; auto.
    - rewrite list_lookup_insert_ne in Hj by congruence. right; auto. }
  apply call_step_gate in Hs.
  destruct Hs as [(Hp & Hp' & Hw) | [(Hp & Hp' & Hd & Hd') | (Hp & Hp' & Hd')]].
  - (* inside the gate *)
    assert (Hlocked : iamWrite (sys_data st) = true).
    { destruct (iamWrite (sys_data st)) eqn:E; [reflexivity|].
      exfalso. exact (Hfree eq_refl i c Hc Hp). }
    split.
    + intros Hf. rewrite Hw, Hlocked in Hf. discriminate.
    + intros j k cj ck Hj Hk Hgj Hgk.
      destruct (Hget _ _ Hj) as [[-> _]|[Hji Hj']], (Hget _ _ Hk) as [[-> _]|[Hki Hk']];
        try reflexivity.
      * symmetry. exact (Hone k i ck c Hk' Hc Hgk Hp).
      * exact (Hone j i cj c Hj' Hc Hgj Hp).
      * exact (Hone j k cj ck Hj' Hk' Hgj Hgk).
  - (* acquiring the gate *)
    split.
    + intros Hf. rewrite Hd' in Hf. discriminate.
    + intros j k cj ck Hj Hk Hgj Hgk.
      destruct (Hget _ _ Hj) as [[-> _]|[Hji Hj']], (Hget _ _ Hk) as [[-> _]|[Hki Hk']];
        try reflexivity.
      * exfalso. exact (Hfree Hd k ck Hk' Hgk).
      * exfalso. exact (Hfree Hd j cj Hj' Hgj).
      * exfalso. exact (Hfree Hd j cj Hj' Hgj).
  - (* releasing the gate *)
    assert (Hothers : forall j cj,
               <[i := CallAt (call_userName c) (call_fn c) p']> (sys_calls st) !! j = Some cj ->
               ~ holds_gate (call_pc cj)).
    { intros j cj Hj Hg. destruct (Hget _ _ Hj) as [[-> Hpc]|[Hji Hj']].
      - rewrite Hpc in Hg. tauto.
      - apply Hji. exact (Hone j i cj c Hj' Hc Hg Hp). }
    split.
    + intros _. exact Hothers.
    + intros j k cj ck Hj Hk Hgj _. exfalso. exact (Hothers j cj Hj Hgj).
Qed.

Lemma reachable_gate_invariant st : reachable st -> gate_invariant st.
Proof.
  induction 1 as [st Hinit | st st' _ IH Hstep].
  - apply gate_invariant_initial; exact Hinit.
  - eapply gate_invariant_step; eauto.
Qed.

Lemma in_body_holds_gate c : in_body c -> holds_gate (call_pc c).
Proof. unfold in_body. destruct (call_pc c); cbn; tauto. Qed.

Lemma run_schedule_reachable (schedule : list nat) :
  forall st st', reachable st -> run_schedule schedule st = Some st' -> reachable st'.
Proof.
  induction schedule as [|i schedule IH]; intros st st' Hr; cbn.
  - intros [= <-]. exact Hr.
  - destruct (sys_calls st !! i) as [c|] eqn:Ec; [|discriminate].
    destruct (call_step _ _ _ _ _) as [[[[p' d'] w'] ev]|] eqn:Es; [|discriminate].
    apply IH. eapply Reach_step; [exact Hr|]. econstructor; eauto.
Qed.
End MutualExclusion.

(** C9. In every state that concurrent calls of [withUserLock] can reach,
    whatever the interleaving of their steps, at most one call is executing
    its wrapped function: two calls that are both in their bodies are the
    same call. This holds for calls with the same user name and, because of
    the gate, for calls with different user names as well. *)
Theorem withUserLock_mutual_exclusion {W : Type} (st : system W) :
  reachable st ->
  forall i j ci cj,
    sys_calls st !! i = Some ci -> sys_calls st !! j = Some cj ->
    in_body ci -> in_body cj -> i = j.
Proof.
  intros Hr i j ci cj Hi Hj Hbi Hbj.
  destruct (reachable_gate_invariant st Hr) as [_ Hone].
  eapply Hone; eauto using in_body_holds_gate.
Qed.

(** After the first call for ["alice"] has entered its body, the second
    call for ["alice"] and the call for ["bob"] cannot move: they wait for
    the gate. *)
Lemma withUserLock_mutual_exclusion_witness :
  exists st c,
    run_schedule [0; 0; 0; 0; 0]%nat three_calls = Some st
    /\ sys_calls st !! 0%nat = Some c /\ in_body c
    /\ run_schedule [1%nat] st = None /\ run_schedule [2%nat] st = None
    /\ (forall j cj, sys_calls st !! j = Some cj -> in_body cj -> 0%nat = j).
Proof.
  destruct (run_schedule [0; 0; 0; 0; 0]%nat three_calls) as [st|] eqn:E; [|discriminate].
  assert (Hr : reachable st).
  { eapply run_schedule_reachable; [|exact E]. apply Reach_initial.
    repeat split; repeat constructor. }
  revert Hr. vm_compute in E. injection E as <-. intros Hr.
  eexists. eexists. split; [reflexivity|]. split; [reflexivity|]. split; [exact I|].
  split; [reflexivity|]. split; [reflexivity|].
  intros j cj Hj Hb.
  eapply (withUserLock_mutual_exclusion _ Hr 0%nat j);
    [reflexivity | exact Hj | exact I | exact Hb].
Defined.

(* ------------------------------------------------------------------ *)
(** ** The scanner on white space and literals *)

Lemma scan_bytes_app (s : scanner) (a b : list ascii) :
  scan_bytes s (a ++ b)
  = match scan_bytes s a with Some s' => scan_bytes s' b | None => None end.
Proof.
  revert s; induction a as [|c a IH]; intros s; cbn; [reflexivity|].
  destruct (scan_byte s c); [apply IH | reflexivity].
Qed.

Lemma isSpace_cases (c : ascii) :
  isSpace c = true -> c = " "%char \/ c = "009"%char \/ c = "013"%char \/ c = "010"%char.
Proof.
  unfold isSpace. rewrite !Bool.orb_true_iff, !Ascii.eqb_eq. tauto.
Qed.

Lemma delimiter_cases (c : ascii) :
  delimiter c = true ->
  isSpace c = true \/ c = ","%char \/ c = "]"%char \/ c = "}"%char.
Proof.
  unfold delimiter. rewrite !Bool.orb_true_iff, !Ascii.eqb_eq. tauto.
Qed.

Ltac space_cases H :=
  apply isSpace_cases in H; destruct H as [->|[->|[->| ->]]].

Ltac delimiter_cases H :=
  apply delimiter_cases in H; destruct H as [H|[->|[->| ->]]]; [space_cases H| | |].

(** Before a value or a key, white space is skipped. *)
Lemma scan_ws_begin (w rest : list ascii) (st : scan_step) (ps : list parse_state)
      (tp : option jvalue) (sv : bool) :
  is_ws w = true ->
  st = stateBeginValue \/ st = stateBeginValueOrEmpty
  \/ st = stateBeginString \/ st = stateBeginStringOrEmpty ->
  scan_bytes (Scanner st ps [] tp sv) (w ++ rest) = scan_bytes (Scanner st ps [] tp sv) rest.
Proof.
  intros Hw Hst. induction w as [|c w IH]; [reflexivity|].
  cbn in Hw. apply andb_prop in Hw as [Hc Hw]. cbn [app scan_bytes].
  assert (Hs : scan_byte (Scanner st ps [] tp sv) c = Some (Scanner st ps [] tp sv)).
  { destruct Hst as [->|[->|[->| ->]]]; space_cases Hc; reflexivity. }
  rewrite Hs. apply IH. exact Hw.
Qed.

(** After a value inside a container, white space is skipped. *)
Lemma scan_ws_end (w rest : list ascii) (p : parse_state) (ps : list parse_state)
      (tp : option jvalue) (sv : bool) :
  is_ws w = true ->
  scan_bytes (Scanner stateEndValue (p :: ps) [] tp sv) (w ++ rest)
  = scan_bytes (Scanner stateEndValue (p :: ps) [] tp sv) rest.
Proof.
  intros Hw. induction w as [|c w IH]; [reflexivity|].
  cbn in Hw. apply andb_prop in Hw as [Hc Hw]. cbn [app scan_bytes].
  assert (Hs : scan_byte (Scanner stateEndValue (p :: ps) [] tp sv) c
               = Some (Scanner stateEndValue (p :: ps) [] tp sv)).
  { space_cases Hc; reflexivity. }
  rewrite Hs. apply IH. exact Hw.
Qed.

(** After the top-level value, white space is all that may follow. *)
Lemma scan_ws_top (w : list ascii) (tp : option jvalue) (sv : bool) :
  is_ws w = true ->
  scan_bytes (Scanner stateEndTop [] [] tp sv) w = Some (Scanner stateEndTop [] [] tp sv).
Proof.
  intros Hw. induction w as [|c w IH]; [reflexivity|].
  cbn in Hw. apply andb_prop in Hw as [Hc Hw]. cbn [scan_bytes].
  assert (Hs : scan_byte (Scanner stateEndTop [] [] tp sv) c
               = Some (Scanner stateEndTop [] [] tp sv)).
  { space_cases Hc; reflexivity. }
  rewrite Hs. apply IH. exact Hw.
Qed.

(** A value at the start of the text is read the same way after an
    opening bracket. *)
Lemma scan_byte_begin_or_empty (c : ascii) (ps : list parse_state) (tp : option jvalue)
      (sv : bool) :
  isSpace c = false -> c <> "]"%char ->
  scan_byte (Scanner stateBeginValueOrEmpty ps [] tp sv) c
  = do_stateBeginValue (Scanner stateBeginValueOrEmpty ps [] tp sv) c.
Proof.
  intros Hs Hc. unfold scan_byte. cbn [step]. rewrite Hs.
  destruct (Ascii.eqb_spec c "]"); [contradiction | reflexivity].
Qed.

(** Storing a value where one is accepted. *)
Lemma deliver_accepts (st st0 : scan_step) (v : jvalue) (ps : list parse_state)
      (lit : list ascii) (tp : option jvalue) (sv : bool) :
  accepts_value ps = true ->
  deliver st v (Scanner st0 ps lit tp sv)
  = Some (Scanner st (store_value v ps) []
                  (match ps with [] => Some v | _ => tp end) sv).
Proof.
  destruct ps as [|[m [k|]|m k|elems] ps]; cbn; intros H;
    try discriminate; reflexivity.
Qed.

(** The bytes [null], [true] and [false]. *)
Lemma scan_literal_null (st : scan_step) (ps : list parse_state) (tp : option jvalue)
      (sv : bool) (rest : list ascii) :
  st = stateBeginValue \/ st = stateBeginValueOrEmpty ->
  accepts_value ps = true ->
  scan_bytes (Scanner st ps [] tp sv) (list_ascii_of_string "null" ++ rest)
  = scan_bytes (Scanner stateEndValue (store_value JNull ps) []
                        (match ps with [] => Some JNull | _ => tp end) sv) rest.
Proof.
  intros Hst Hps.
  destruct Hst as [-> | ->]; cbn -[deliver];
    unfold last_letter, end_literal; cbn -[deliver];
    rewrite deliver_accepts by exact Hps; reflexivity.
Qed.

Lemma scan_literal_true (st : scan_step) (ps : list parse_state) (tp : option jvalue)
      (sv : bool) (rest : list ascii) :
  st = stateBeginValue \/ st = stateBeginValueOrEmpty ->
  accepts_value ps = true ->
  scan_bytes (Scanner st ps [] tp sv) (list_ascii_of_string "true" ++ rest)
  = scan_bytes (Scanner stateEndValue (store_value (JBool true) ps) []
                        (match ps with [] => Some (JBool true) | _ => tp end) sv) rest.
Proof.
  intros Hst Hps.
  destruct Hst as [-> | ->]; cbn -[deliver];
    unfold last_letter, end_literal; cbn -[deliver];
    rewrite deliver_accepts by exact Hps; reflexivity.
Qed.

Lemma scan_literal_false (st : scan_step) (ps : list parse_state) (tp : option jvalue)
      (sv : bool) (rest : list ascii) :
  st = stateBeginValue \/ st = stateBeginValueOrEmpty ->
  accepts_value ps = true ->
  scan_bytes (Scanner st ps [] tp sv) (list_ascii_of_string "false" ++ rest)
  = scan_bytes (Scanner stateEndValue (store_value (JBool false) ps) []
                        (match ps with [] => Some (JBool false) | _ => tp end) sv) rest.
Proof.
  intros Hst Hps.
  destruct Hst as [-> | ->]; cbn -[deliver];
    unfold last_letter, end_literal; cbn -[deliver];
    rewrite deliver_accepts by exact Hps; reflexivity.
Qed.

(* ------------------------------------------------------------------ *)
(** ** [unquote] succeeds on the literals the scanner accepts *)

Lemma valid_string_body (items : list str_item) :
  forallb str_item_ok items = true -> valid_body (string_body items) = true.
Proof.
  induction items as [|it items IH]; [reflexivity|].
  cbn [forallb]. intros H. apply andb_prop in H as [Hit Hitems].
  specialize (IH Hitems). unfold string_body in *. cbn [map concat].
  destruct it as [c|c|h1 h2 h3 h4]; cbn [str_item_text app] in *; cbn [str_item_ok] in Hit.
  - apply andb_prop in Hit as [Hit H32]. apply andb_prop in Hit as [Hq Hb].
    cbn [valid_body]. apply Bool.negb_true_iff in Hb. rewrite Hb, Hq, H32, IH. reflexivity.
  - cbn [valid_body]. cbn. unfold simple_escape. rewrite Hit. exact IH.
  - cbn [valid_body]. cbn. rewrite Hit, IH. reflexivity.
Qed.

Lemma byte_val_high_plain (c : ascii) :
  (128 <= byte_val c)%Z ->
  Ascii.eqb c "\" = false /\ Ascii.eqb c dquote = false /\ (32 <=? byte_val c)%Z = true.
Proof.
  intros H. repeat split.
  - destruct (Ascii.eqb_spec c "\"); [|reflexivity].
    subst. apply Z.le_ngt in H. exfalso. apply H. reflexivity.
  - destruct (Ascii.eqb_spec c dquote); [|reflexivity].
    subst. apply Z.le_ngt in H. exfalso. apply H. reflexivity.
  - apply Z.leb_le. lia.
Qed.

Lemma valid_body_tail_high (c : ascii) (r : list ascii) :
  (128 <= byte_val c)%Z -> valid_body (c :: r) = true -> valid_body r = true.
Proof.
  intros H. destruct (byte_val_high_plain c H) as (Hb & Hq & H32).
  cbn [valid_body]. rewrite Hb, Hq, H32. cbn. tauto.
Qed.

(** A rune of more than one byte is a leading byte and continuation
    bytes, all above the ASCII range. *)
Lemma utf8_DecodeRune_size (c : ascii) (r : list ascii) :
  (128 <= byte_val c)%Z ->
  match snd (utf8_DecodeRune (c :: r)) with
  | 1%nat => True
  | 2%nat => exists c1 r', r = c1 :: r' /\ (128 <= byte_val c1)%Z
  | 3%nat => exists c1 c2 r', r = c1 :: c2 :: r' /\ (128 <= byte_val c1)%Z
                              /\ (128 <= byte_val c2)%Z
  | 4%nat => exists c1 c2 c3 r', r = c1 :: c2 :: c3 :: r' /\ (128 <= byte_val c1)%Z
                                 /\ (128 <= byte_val c2)%Z /\ (128 <= byte_val c3)%Z
  | _ => False
  end.
Proof.
  intros Hc. unfold utf8_DecodeRune.
  destruct (Z.ltb_spec (byte_val c) RuneSelf) as [Hlt|_]; [unfold RuneSelf in Hlt; lia|].
  destruct (utf8_first (byte_val c)) as [[[sz lo] hi]|] eqn:Ef; [|exact I].
  assert (Hlo : (128 <= lo)%Z).
  { revert Ef. unfold utf8_first.
    repeat match goal with |- context [if ?b then _ else _] => destruct b end;
      intros [= <- <- <-]; lia || discriminate. }
  destruct (length (c :: r) <? sz)%nat; [exact I|].
  destruct r as [|c1 r]; [exact I|].
  destruct (Z.ltb_spec (byte_val c1) lo) as [|H1]; [exact I|]. cbn [orb].
  destruct (hi <? byte_val c1)%Z; [exact I|].
  destruct (sz <=? 2)%nat; [cbn; eexists _, _; split; [reflexivity|lia]|].
  destruct r as [|c2 r]; [exact I|].
  destruct (Z.ltb_spec (byte_val c2) 128) as [|H2]; [exact I|]. cbn [orb].
  destruct (191 <? byte_val c2)%Z; [exact I|].
  destruct (sz <=? 3)%nat; [cbn; eexists _, _, _; split; [reflexivity|lia]|].
  destruct r as [|c3 r]; [exact I|].
  destruct (Z.ltb_spec (byte_val c3) 128) as [|H3]; [exact I|]. cbn [orb].
  destruct (191 <? byte_val c3)%Z; [exact I|].
  cbn. eexists _, _, _, _. split; [reflexivity|lia].
Qed.

(** Skipping a rune that starts above the ASCII range keeps the rest
    valid and makes it shorter. *)
Lemma valid_body_skip_rune (c : ascii) (r : list ascii) :
  (128 <= byte_val c)%Z -> valid_body (c :: r) = true ->
  let size := snd (utf8_DecodeRune (c :: r)) in
  valid_body (skipn size (c :: r)) = true
  /\ (length (skipn size (c :: r)) < length (c :: r))%nat.
Proof.
  intros Hc Hv. cbv zeta. pose proof (utf8_DecodeRune_size c r Hc) as Hsz.
  apply valid_body_tail_high in Hv; [|exact Hc].
  destruct (snd (utf8_DecodeRune (c :: r))) as [|[|[|[|[|n]]]]]; try contradiction.
  - change (skipn 1 (c :: r)) with r. cbn [length]. split; [exact Hv | lia].
  - destruct Hsz as (c1 & r' & -> & H1).
    change (skipn 2 (c :: c1 :: r')) with r'. cbn [length].
    split; [|lia]. eapply valid_body_tail_high; eauto.
  - destruct Hsz as (c1 & c2 & r' & -> & H1 & H2).
    change (skipn 3 (c :: c1 :: c2 :: r')) with r'. cbn [length].
    split; [|lia]. eauto using valid_body_tail_high.
  - destruct Hsz as (c1 & c2 & c3 & r' & -> & H1 & H2 & H3).
    change (skipn 4 (c :: c1 :: c2 :: c3 :: r')) with r'. cbn [length].
    split; [|lia]. eauto using valid_body_tail_high.
Qed.

Lemma getu4_Some (s : list ascii) (rr : Z) :
  getu4 s = Some rr ->
  exists h1 h2 h3 h4 r, s = "\"%char :: "u"%char :: h1 :: h2 :: h3 :: h4 :: r.
Proof.
  destruct s as [|b [|u [|h1 [|h2 [|h3 [|h4 r]]]]]]; try discriminate.
  unfold getu4.
  destruct (Ascii.eqb_spec b "\"); [|discriminate].
  destruct (Ascii.eqb_spec u "u"); [|discriminate]. subst. eauto 6.
Qed.

Lemma getu4_valid (h1 h2 h3 h4 : ascii) (r : list ascii) :
  (is_hex h1 && is_hex h2 && is_hex h3 && is_hex h4)%bool = true ->
  exists rr, getu4 ("\"%char :: "u"%char :: h1 :: h2 :: h3 :: h4 :: r) = Some rr.
Proof.
  unfold is_hex, getu4. cbn.
  destruct (hex_val h1), (hex_val h2), (hex_val h3), (hex_val h4); cbn;
    intros; try discriminate; eauto.
Qed.

Lemma valid_body_after_u4 (h1 h2 h3 h4 : ascii) (r : list ascii) :
  valid_body ("\"%char :: "u"%char :: h1 :: h2 :: h3 :: h4 :: r) = true ->
  (is_hex h1 && is_hex h2 && is_hex h3 && is_hex h4)%bool = true /\ valid_body r = true.
Proof.
  cbn. intros H. apply andb_prop in H. exact H.
Qed.

Lemma unquote_escaped_total (fuel : nat) :
  forall s, valid_body s = true -> (length s <= fuel)%nat ->
            exists t, unquote_escaped fuel s = Some t.
Proof.
  induction fuel as [|fuel IH]; intros s Hv Hlen.
  - destruct s; [cbn; eauto | cbn in Hlen; lia].
  - destruct s as [|c r]; [cbn; eauto|].
    cbn [unquote_escaped].
    destruct (Ascii.eqb_spec c "\") as [->|Hnb].
    + destruct r as [|e r']; [discriminate Hv|].
      assert (Hr' : forall r0 (f : list ascii -> list ascii),
                 valid_body r0 = true -> (length r0 <= length r')%nat ->
                 exists t, option_map f (unquote_escaped fuel r0) = Some t).
      { intros r0 f H0 Hl. destruct (IH r0 H0) as [t Ht]; [cbn in Hlen; lia|].
        rewrite Ht. cbn. eauto. }
      cbn [valid_body] in Hv. cbn in Hv.
      destruct (simple_escape e) eqn:Ese.
      * unfold simple_escape in Ese.
        repeat match goal with
               | |- context [Ascii.eqb e ?x] => destruct (Ascii.eqb e x) eqn:?
               end; cbn [orb]; try (apply Hr'; [exact Hv | lia]);
          cbn in Ese; discriminate.
      * unfold simple_escape in Ese.
        destruct (Ascii.eqb_spec e "u") as [->|]; [|discriminate]. cbn.
        destruct r' as [|h1 [|h2 [|h3 [|h4 r'']]]]; try discriminate.
        apply andb_prop in Hv as [Hhex Hv].
        destruct (getu4_valid h1 h2 h3 h4 r'' Hhex) as [rr Hrr].
        cbn in Hrr. cbn. rewrite Hrr, ?skipn_O.
        assert (Hrec : forall r0 (f : list ascii -> list ascii),
                   valid_body r0 = true -> (length r0 <= length r'')%nat ->
                   exists t, option_map f (unquote_escaped fuel r0) = Some t).
        { intros r0 f H0 Hl. apply Hr'; [exact H0 | cbn; lia]. }
        destruct (utf16_IsSurrogate rr); [|apply Hrec; [exact Hv | lia]].
        destruct (getu4 r'') as [rr1|] eqn:E1.
        -- destruct (negb (utf16_DecodeRune rr rr1 =? RuneError)%Z);
             [|apply Hrec; [exact Hv | lia]].
           destruct (getu4_Some _ _ E1) as (a & b & c & d & r3 & ->).
           apply valid_body_after_u4 in Hv as [_ Hv].
           cbn. rewrite ?skipn_O. apply Hrec; [exact Hv | cbn; lia].
        -- rewrite Z.eqb_refl. cbn [negb]. apply Hrec; [exact Hv | lia].
    + cbn [valid_body] in Hv. destruct (Ascii.eqb c "\") eqn:Eb.
      { apply Ascii.eqb_eq in Eb. contradiction. }
      apply andb_prop in Hv as [Hv Hr]. apply andb_prop in Hv as [Hq H32].
      apply Bool.negb_true_iff in Hq. rewrite Hq. apply Z.leb_le in H32.
      destruct (Z.ltb_spec (byte_val c) 32); [lia|]. cbn [orb].
      destruct (Z.ltb_spec (byte_val c) RuneSelf) as [Hlow|Hhigh].
      * destruct (IH r Hr) as [t Ht]; [cbn in Hlen; lia|]. rewrite Ht. cbn. eauto.
      * unfold RuneSelf in Hhigh.
        assert (Hv : valid_body (c :: r) = true).
        { cbn [valid_body]. rewrite Eb, Hq, Hr.
          destruct (Z.leb_spec 32 (byte_val c)); [reflexivity | lia]. }
        destruct (valid_body_skip_rune c r Hhigh Hv) as [Hv' Hl'].
        destruct (utf8_DecodeRune (c :: r)) as [rr size]. cbn [snd] in *.
        destruct (IH _ Hv') as [t Ht]; [cbn in Hlen, Hl'; cbn; lia|].
        rewrite Ht. cbn. eauto.
Qed.

Lemma unquote_plain_rest_valid (fuel : nat) :
  forall s, valid_body s = true -> valid_body (snd (unquote_plain fuel s)) = true.
Proof.
  induction fuel as [|fuel IH]; intros s Hv; [exact Hv|].
  destruct s as [|c r]; [reflexivity|]. cbn [unquote_plain].
  destruct (Ascii.eqb c "\" || Ascii.eqb c dquote || (byte_val c <? 32)%Z)%bool eqn:Esp;
    [exact Hv|].
  apply Bool.orb_false_iff in Esp as [Esp _]. apply Bool.orb_false_iff in Esp as [Eb _].
  destruct (Z.ltb_spec (byte_val c) RuneSelf) as [Hlow|Hhigh].
  - assert (Hr : valid_body r = true).
    { cbn [valid_body] in Hv. rewrite Eb in Hv. apply andb_prop in Hv. tauto. }
    specialize (IH r Hr). destruct (unquote_plain fuel r). exact IH.
  - unfold RuneSelf in Hhigh.
    destruct (valid_body_skip_rune c r Hhigh Hv) as [Hv' _].
    destruct (utf8_DecodeRune (c :: r)) as [rr size]. cbn [snd] in *.
    destruct ((rr =? RuneError)%Z && (size =? 1)%nat)%bool; [exact Hv|].
    specialize (IH _ Hv'). destruct (unquote_plain fuel (skipn size (c :: r))). exact IH.
Qed.

Lemma unquote_body_total (s : list ascii) :
  valid_body s = true -> exists t, unquote_body s = Some t.
Proof.
  intros Hv. unfold unquote_body.
  pose proof (unquote_plain_rest_valid (length s) s Hv) as Hrest.
  destruct (unquote_plain (length s) s) as [p rest]. cbn [snd] in Hrest.
  destruct rest as [|c rest]; [eauto|].
  destruct (unquote_escaped_total (length (c :: rest)) (c :: rest) Hrest) as [t Ht]; [lia|].
  rewrite Ht. cbn. eauto.
Qed.

Lemma unquote_string_text (items : list str_item) :
  unquote (string_text items) = unquote_body (string_body items).
Proof.
  unfold unquote, string_text. rewrite rev_app_distr. cbn [rev app].
  rewrite rev_involutive. reflexivity.
Qed.

(** The decoder's conversion of a string literal of the grammar never
    fails: its result is [string_value]. *)
Lemma unquote_string_value (items : list str_item) :
  forallb str_item_ok items = true ->
  unquote (string_text items) = Some (string_value items).
Proof.
  intros Hok. unfold string_value.
  destruct (unquote_body_total (string_body items) (valid_string_body items Hok)) as [t Ht].
  rewrite unquote_string_text, Ht. reflexivity.
Qed.

(* ------------------------------------------------------------------ *)
(** ** The scanner on string and number literals *)

Lemma scan_string_body (items : list str_item) :
  forallb str_item_ok items = true ->
  forall ps lit tp sv rest,
    scan_bytes (Scanner stateInString ps lit tp sv) (string_body items ++ rest)
    = scan_bytes (Scanner stateInString ps (rev (string_body items) ++ lit) tp sv) rest.
Proof.
  induction items as [|it items IH]; intros Hok ps lit tp sv rest; [reflexivity|].
  cbn [forallb] in Hok. apply andb_prop in Hok as [Hit Hok].
  unfold string_body in *. cbn [map concat]. rewrite <- app_assoc, rev_app_distr, <- app_assoc.
  destruct it as [c|c|h1 h2 h3 h4]; cbn [str_item_text str_item_ok] in *.
  - apply andb_prop in Hit as [Hit H32]. apply andb_prop in Hit as [Hq Hb].
    apply Bool.negb_true_iff in Hq, Hb. apply Z.leb_le in H32.
    cbn [app scan_bytes]. unfold scan_byte. cbn [step]. rewrite Hq, Hb.
    destruct (Z.ltb_spec (byte_val c) 32); [lia|].
    unfold literal_byte. cbn [parseState literal top savedError rev app].
    apply IH. exact Hok.
  - cbn [app scan_bytes]. unfold scan_byte at 1. cbn [step].
    change (Ascii.eqb "\" dquote) with false. cbn [Ascii.eqb Bool.eqb].
    unfold literal_byte. cbn [parseState literal top savedError].
    unfold scan_byte at 1. cbn [step].
    replace (Ascii.eqb c "b" || Ascii.eqb c "f" || Ascii.eqb c "n" || Ascii.eqb c "r"
             || Ascii.eqb c "t" || Ascii.eqb c "\" || Ascii.eqb c "/"
             || Ascii.eqb c dquote)%bool with true.
    + unfold literal_byte. cbn [parseState literal top savedError rev app].
      apply IH. exact Hok.
    + symmetry. revert Hit.
      destruct (Ascii.eqb c dquote), (Ascii.eqb c "\"), (Ascii.eqb c "/"),
        (Ascii.eqb c "b"), (Ascii.eqb c "f"), (Ascii.eqb c "n"), (Ascii.eqb c "r"),
        (Ascii.eqb c "t"); cbn; congruence.
  - apply andb_prop in Hit as [Hit H4]. apply andb_prop in Hit as [Hit H3].
    apply andb_prop in Hit as [H1 H2].
    cbn [app scan_bytes]. unfold scan_byte at 1. cbn [step].
    change (Ascii.eqb "\" dquote) with false. cbn [Ascii.eqb Bool.eqb].
    unfold literal_byte. cbn [parseState literal top savedError].
    unfold scan_byte at 1. cbn [step]. cbn [Ascii.eqb Bool.eqb orb].
    change (Ascii.eqb "u" dquote) with false. cbn [orb].
    unfold literal_byte. cbn [parseState literal top savedError].
    unfold scan_byte at 1. cbn [step]. rewrite H1.
    unfold literal_byte. cbn [parseState literal top savedError].
    unfold scan_byte at 1. cbn [step]. rewrite H2.
    unfold literal_byte. cbn [parseState literal top savedError].
    unfold scan_byte at 1. cbn [step]. rewrite H3.
    unfold literal_byte. cbn [parseState literal top savedError].
    unfold scan_byte at 1. cbn [step]. rewrite H4.
    unfold literal_byte. cbn [parseState literal top savedError rev app].
    apply IH. exact Hok.
Qed.

Lemma rev_string_literal (items : list str_item) :
  rev (dquote :: rev (string_body items) ++ [dquote]) = string_text items.
Proof.
  cbn [rev]. rewrite rev_app_distr, rev_involutive. reflexivity.
Qed.

Lemma literal_value_string (items : list str_item) (st : scan_step)
      (ps : list parse_state) (tp : option jvalue) (sv : bool) :
  forallb str_item_ok items = true ->
  literal_value (Scanner st ps (dquote :: rev (string_body items) ++ [dquote]) tp sv)
  = Some (JString (string_value items), sv).
Proof.
  intros Hok. unfold literal_value. cbn [literal savedError].
  rewrite rev_string_literal. unfold string_text at 1.
  change (Ascii.eqb dquote "n") with false. change (Ascii.eqb dquote "t") with false.
  change (Ascii.eqb dquote "f") with false. change (Ascii.eqb dquote dquote) with true.
  cbv iota. fold (string_text items). rewrite (unquote_string_value items Hok). reflexivity.
Qed.

(** A string literal where a value is expected. *)
Lemma scan_string_literal (items : list str_item) (st : scan_step) (ps : list parse_state)
      (tp : option jvalue) (sv : bool) (rest : list ascii) :
  forallb str_item_ok items = true ->
  st = stateBeginValue \/ st = stateBeginValueOrEmpty ->
  accepts_value ps = true ->
  scan_bytes (Scanner st ps [] tp sv) (string_text items ++ rest)
  = scan_bytes (Scanner stateEndValue (store_value (JString (string_value items)) ps) []
                        (match ps with [] => Some (JString (string_value items)) | _ => tp end)
                        sv) rest.
Proof.
  intros Hok Hst Hps. unfold string_text. cbn [app scan_bytes].
  assert (H1 : scan_byte (Scanner st ps [] tp sv) dquote
               = Some (Scanner stateInString ps [dquote] tp sv))
    by (destruct Hst as [-> | ->]; reflexivity).
  rewrite H1, <- app_assoc, scan_string_body by exact Hok.
  cbn [app scan_bytes]. unfold scan_byte. cbn [step].
  change (Ascii.eqb dquote dquote) with true. cbv iota.
  unfold end_literal, literal_byte. cbn [parseState literal top savedError step].
  rewrite literal_value_string by exact Hok.
  rewrite deliver_accepts by exact Hps. reflexivity.
Qed.

(** A string literal where a key is expected. *)
Lemma scan_key (items : list str_item) (st : scan_step) (m : list (list ascii * jvalue))
      (ps : list parse_state) (tp : option jvalue) (sv : bool) (rest : list ascii) :
  forallb str_item_ok items = true ->
  st = stateBeginString \/ st = stateBeginStringOrEmpty ->
  scan_bytes (Scanner st (parseObjectKey m None :: ps) [] tp sv) (string_text items ++ rest)
  = scan_bytes (Scanner stateEndValue (parseObjectKey m (Some (string_value items)) :: ps) []
                        tp sv) rest.
Proof.
  intros Hok Hst. unfold string_text. cbn [app scan_bytes].
  assert (H1 : scan_byte (Scanner st (parseObjectKey m None :: ps) [] tp sv) dquote
               = Some (Scanner stateInString (parseObjectKey m None :: ps) [dquote] tp sv))
    by (destruct Hst as [-> | ->]; reflexivity).
  rewrite H1, <- app_assoc, scan_string_body by exact Hok.
  cbn [app scan_bytes]. unfold scan_byte. cbn [step].
  change (Ascii.eqb dquote dquote) with true. cbv iota.
  unfold end_literal, literal_byte. cbn [parseState literal top savedError step].
  rewrite literal_value_string by exact Hok. reflexivity.
Qed.

Lemma digit_cases (c : ascii) :
  is_digit c = true ->
  c = "0"%char \/ c = "1"%char \/ c = "2"%char \/ c = "3"%char \/ c = "4"%char
  \/ c = "5"%char \/ c = "6"%char \/ c = "7"%char \/ c = "8"%char \/ c = "9"%char.
Proof.
  unfold is_digit. intros H. apply andb_prop in H as [H1 H2].
  apply Z.leb_le in H1, H2.
  assert (Hc : c = byte_of (byte_val c)).
  { unfold byte_of, byte_val. rewrite N2Z.id, ascii_N_embedding. reflexivity. }
  rewrite Hc.
  assert (Hv : (byte_val c = 48 \/ byte_val c = 49 \/ byte_val c = 50 \/ byte_val c = 51
               \/ byte_val c = 52 \/ byte_val c = 53 \/ byte_val c = 54 \/ byte_val c = 55
               \/ byte_val c = 56 \/ byte_val c = 57)%Z) by lia.
  repeat (destruct Hv as [->|Hv]; [tauto|]). rewrite Hv. tauto.
Qed.

Ltac digit_cases H :=
  apply digit_cases in H;
  destruct H as [->|[->|[->|[->|[->|[->|[->|[->|[->| ->]]]]]]]]].

(** A run of digits in a state that loops on digits. *)
Lemma scan_digits (ds : list ascii) (st : scan_step) :
  st = state1 \/ st = stateDot0 \/ st = stateE0 ->
  forallb is_digit ds = true ->
  forall ps lit tp sv rest,
    scan_bytes (Scanner st ps lit tp sv) (ds ++ rest)
    = scan_bytes (Scanner st ps (rev ds ++ lit) tp sv) rest.
Proof.
  intros Hst. induction ds as [|c ds IH]; intros Hds ps lit tp sv rest; [reflexivity|].
  cbn [forallb] in Hds. apply andb_prop in Hds as [Hc Hds].
  cbn [app scan_bytes rev]. rewrite <- app_assoc. cbn [app].
  assert (H1 : scan_byte (Scanner st ps lit tp sv) c = Some (Scanner st ps (c :: lit) tp sv)).
  { destruct Hst as [->|[->| ->]]; unfold scan_byte; cbn [step]; rewrite Hc; reflexivity. }
  rewrite H1. apply IH. exact Hds.
Qed.

(** The digits after a point or after the [e] of an exponent: at least
    one. *)
Lemma scan_digits1 (ds : list ascii) (st st' : scan_step) :
  (st = stateDot /\ st' = stateDot0) \/ (st = stateESign /\ st' = stateE0) ->
  digits_ok ds = true ->
  forall ps lit tp sv rest,
    scan_bytes (Scanner st ps lit tp sv) (ds ++ rest)
    = scan_bytes (Scanner st' ps (rev ds ++ lit) tp sv) rest.
Proof.
  intros Hst Hds ps lit tp sv rest. unfold digits_ok in Hds.
  apply andb_prop in Hds as [Hne Hds].
  destruct ds as [|c ds]; [discriminate Hne|].
  cbn [forallb] in Hds. apply andb_prop in Hds as [Hc Hds].
  cbn [app scan_bytes rev]. rewrite <- app_assoc. cbn [app].
  assert (H1 : scan_byte (Scanner st ps lit tp sv) c = Some (Scanner st' ps (c :: lit) tp sv)).
  { destruct Hst as [[-> ->]|[-> ->]]; unfold scan_byte, do_stateESign; cbn [step];
      rewrite Hc; reflexivity. }
  rewrite H1. apply scan_digits; [|exact Hds].
  destruct Hst as [[_ ->]|[_ ->]]; tauto.
Qed.

Lemma scan_first_digit (c : ascii) (st : scan_step) (ps : list parse_state)
      (lit : list ascii) (tp : option jvalue) (sv : bool) :
  is_digit c = true ->
  st = stateBeginValue \/ st = stateBeginValueOrEmpty \/ st = stateNeg ->
  scan_byte (Scanner st ps lit tp sv) c
  = Some (Scanner (if Ascii.eqb c "0" then state0 else state1) ps (c :: lit) tp sv).
Proof.
  intros Hc Hst. digit_cases Hc; destruct Hst as [->|[->| ->]]; reflexivity.
Qed.

Lemma scan_exponent_digit (c : ascii) (st : scan_step) (ps : list parse_state)
      (lit : list ascii) (tp : option jvalue) (sv : bool) :
  is_digit c = true ->
  st = stateE \/ st = stateESign ->
  scan_byte (Scanner st ps lit tp sv) c = Some (Scanner stateE0 ps (c :: lit) tp sv).
Proof.
  intros Hc Hst. digit_cases Hc; destruct Hst as [-> | ->]; reflexivity.
Qed.

(** The integer part of a number. *)
Lemma scan_int (ds : list ascii) (st : scan_step) :
  digits_ok ds = true ->
  match ds with c :: _ :: _ => negb (Ascii.eqb c "0") | _ => true end = true ->
  st = stateBeginValue \/ st = stateBeginValueOrEmpty \/ st = stateNeg ->
  forall ps lit tp sv rest,
    scan_bytes (Scanner st ps lit tp sv) (ds ++ rest)
    = scan_bytes (Scanner (match ds with
                           | [c] => if Ascii.eqb c "0" then state0 else state1
                           | _ => state1
                           end) ps (rev ds ++ lit) tp sv) rest.
Proof.
  intros Hds Hz Hst ps lit tp sv rest. unfold digits_ok in Hds.
  apply andb_prop in Hds as [Hne Hds].
  destruct ds as [|c ds]; [discriminate Hne|].
  cbn [forallb] in Hds. apply andb_prop in Hds as [Hc Hds].
  cbn [app scan_bytes rev]. rewrite <- app_assoc. cbn [app].
  rewrite scan_first_digit by assumption.
  destruct ds as [|c' ds]; [reflexivity|].
  apply Bool.negb_true_iff in Hz. rewrite Hz.
  apply (scan_digits (c' :: ds) state1); [tauto | exact Hds].
Qed.

(** The digits of an exponent, after the sign if there is one. *)
Lemma scan_exponent_digits (ds : list ascii) (st : scan_step) :
  st = stateE \/ st = stateESign ->
  digits_ok ds = true ->
  forall ps lit tp sv rest,
    scan_bytes (Scanner st ps lit tp sv) (ds ++ rest)
    = scan_bytes (Scanner stateE0 ps (rev ds ++ lit) tp sv) rest.
Proof.
  intros Hst Hds ps lit tp sv rest. unfold digits_ok in Hds.
  apply andb_prop in Hds as [Hne Hds].
  destruct ds as [|c ds]; [discriminate Hne|].
  cbn [forallb] in Hds. apply andb_prop in Hds as [Hc Hds].
  cbn [app scan_bytes rev]. rewrite <- app_assoc. cbn [app].
  rewrite scan_exponent_digit by assumption.
  apply scan_digits; [tauto | exact Hds].
Qed.

(** The fraction of a number, if there is one. *)
Lemma scan_frac (frac : option (list ascii)) (st : scan_step) :
  match frac with Some ds => digits_ok ds | None => true end = true ->
  st = state0 \/ st = state1 ->
  forall ps lit tp sv rest,
    scan_bytes (Scanner st ps lit tp sv)
               (match frac with Some ds => "."%char :: ds | None => [] end ++ rest)
    = scan_bytes (Scanner (match frac with Some _ => stateDot0 | None => st end) ps
                          (rev (match frac with Some ds => "."%char :: ds | None => [] end)
                           ++ lit) tp sv) rest.
Proof.
  intros Hok Hst ps lit tp sv rest. destruct frac as [ds|]; [|reflexivity].
  cbn [app scan_bytes rev]. rewrite <- app_assoc. cbn [app].
  assert (H1 : scan_byte (Scanner st ps lit tp sv) "."
               = Some (Scanner stateDot ps ("."%char :: lit) tp sv))
    by (destruct Hst as [-> | ->]; reflexivity).
  rewrite H1. apply (scan_digits1 ds stateDot stateDot0); [tauto | exact Hok].
Qed.

(** The exponent of a number, if there is one. *)
Lemma scan_exp (exp : option (ascii * option ascii * list ascii)) (st : scan_step) :
  match exp with
  | Some (e, sg, ds) =>
      ((Ascii.eqb e "e" || Ascii.eqb e "E")
       && match sg with Some c => Ascii.eqb c "+" || Ascii.eqb c "-" | None => true end
       && digits_ok ds)%bool
  | None => true
  end = true ->
  st = state0 \/ st = state1 \/ st = stateDot0 ->
  forall ps lit tp sv rest,
    scan_bytes (Scanner st ps lit tp sv)
               (match exp with
                | Some (e, sg, ds) => e :: match sg with Some c => [c] | None => [] end ++ ds
                | None => []
                end ++ rest)
    = scan_bytes (Scanner (match exp with Some _ => stateE0 | None => st end) ps
                          (rev (match exp with
                                | Some (e, sg, ds) =>
                                    e :: match sg with Some c => [c] | None => [] end ++ ds
                                | None => []
                                end) ++ lit) tp sv) rest.
Proof.
  intros Hok Hst ps lit tp sv rest. destruct exp as [[[e sg] ds]|]; [|reflexivity].
  apply andb_prop in Hok as [Hok Hds]. apply andb_prop in Hok as [He Hsg].
  cbn [app scan_bytes rev]. rewrite rev_app_distr, <- !app_assoc. cbn [app].
  assert (H1 : scan_byte (Scanner st ps lit tp sv) e
               = Some (Scanner stateE ps (e :: lit) tp sv)).
  { apply Bool.orb_true_iff in He. rewrite !Ascii.eqb_eq in He.
    destruct He as [-> | ->]; destruct Hst as [->|[->| ->]]; reflexivity. }
  rewrite H1. destruct sg as [c|].
  - cbn [app scan_bytes rev].
    assert (H2 : scan_byte (Scanner stateE ps (e :: lit) tp sv) c
                 = Some (Scanner stateESign ps (c :: e :: lit) tp sv)).
    { apply Bool.orb_true_iff in Hsg. rewrite !Ascii.eqb_eq in Hsg.
      destruct Hsg as [-> | ->]; reflexivity. }
    rewrite H2, scan_exponent_digits by tauto. reflexivity.
  - cbn [app rev]. rewrite scan_exponent_digits by tauto. reflexivity.
Qed.

(** A number literal: the scanner keeps its bytes and stops in a state
    that ends the number at the next byte. *)
Lemma scan_number (n : number_literal) (st : scan_step) (ps : list parse_state)
      (tp : option jvalue) (sv : bool) (rest : list ascii) :
  number_ok n = true ->
  st = stateBeginValue \/ st = stateBeginValueOrEmpty ->
  scan_bytes (Scanner st ps [] tp sv) (number_text n ++ rest)
  = scan_bytes (Scanner (number_end_state n) ps (rev (number_text n)) tp sv) rest.
Proof.
  intros Hok Hst. destruct n as [minus int frac exp].
  unfold number_ok, number_text, number_end_state in *.
  cbn [num_minus num_int num_frac num_exp] in *.
  apply andb_prop in Hok as [Hok Hexp]. apply andb_prop in Hok as [Hok Hfrac].
  apply andb_prop in Hok as [Hint Hz].
  set (fr := match frac with Some ds => "."%char :: ds | None => [] end) in *.
  set (ex := match exp with
             | Some (e, sg, ds) => e :: match sg with Some c => [c] | None => [] end ++ ds
             | None => []
             end) in *.
  assert (Hminus : exists st1,
             (st1 = stateBeginValue \/ st1 = stateBeginValueOrEmpty \/ st1 = stateNeg)
             /\ forall rest',
                 scan_bytes (Scanner st ps [] tp sv)
                            ((if minus then ["-"%char] else []) ++ rest')
                 = scan_bytes (Scanner st1 ps (rev (if minus then ["-"%char] else [])) tp sv)
                              rest').
  { destruct minus.
    - exists stateNeg. split; [tauto|]. intros rest'.
      destruct Hst as [-> | ->]; reflexivity.
    - exists st. split; [tauto|]. reflexivity. }
  destruct Hminus as (st1 & Hst1 & Hm).
  rewrite <- !app_assoc, Hm, (scan_int int st1 Hint Hz Hst1).
  set (st2 := match int with
              | [c] => if Ascii.eqb c "0" then state0 else state1
              | _ => state1
              end).
  assert (Hst2 : st2 = state0 \/ st2 = state1).
  { subst st2. destruct int as [|c [|c' int]]; try tauto. destruct (Ascii.eqb c "0"); tauto. }
  fold fr. rewrite (scan_frac frac st2 Hfrac Hst2). fold fr.
  set (st3 := match frac with Some _ => stateDot0 | None => st2 end).
  assert (Hst3 : st3 = state0 \/ st3 = state1 \/ st3 = stateDot0).
  { subst st3. destruct frac; tauto. }
  fold ex. rewrite (scan_exp exp st3 Hexp Hst3). fold ex.
  rewrite !rev_app_distr, <- !app_assoc.
  replace (match exp with Some _ => stateE0 | None => st3 end)
    with (match exp with
          | Some _ => stateE0
          | None =>
              match frac with
              | Some _ => stateDot0
              | None =>
                  match int with
                  | [c] => if Ascii.eqb c "0" then state0 else state1
                  | _ => state1
                  end
              end
          end).
  - reflexivity.
  - subst st3 st2. destruct exp, frac; reflexivity.
Qed.

Lemma number_end_state_cases (n : number_literal) :
  number_end_state n = state0 \/ number_end_state n = state1
  \/ number_end_state n = stateDot0 \/ number_end_state n = stateE0.
Proof.
  unfold number_end_state.
  destruct (num_exp n), (num_frac n), (num_int n) as [|c [|c' ds]]; try tauto.
  destruct (Ascii.eqb c "0"); tauto.
Qed.

(** The byte after a number ends it. *)
Lemma scan_number_end (st : scan_step) (ps : list parse_state) (lit : list ascii)
      (tp : option jvalue) (sv : bool) (c : ascii) :
  st = state0 \/ st = state1 \/ st = stateDot0 \/ st = stateE0 ->
  delimiter c = true ->
  scan_byte (Scanner st ps lit tp sv) c = end_number (Scanner st ps lit tp sv) c.
Proof.
  intros Hst Hc. delimiter_cases Hc; destruct Hst as [->|[->|[->| ->]]]; reflexivity.
Qed.

Lemma number_text_head (n : number_literal) :
  number_ok n = true ->
  exists c tl, number_text n = c :: tl /\ (c = "-"%char \/ is_digit c = true).
Proof.
  intros Hok. destruct n as [minus int frac exp]. unfold number_ok, number_text in *.
  cbn [num_minus num_int num_frac num_exp] in *.
  destruct minus; [cbn; eauto|].
  apply andb_prop in Hok as [Hok _]. apply andb_prop in Hok as [Hok _].
  apply andb_prop in Hok as [Hint _]. unfold digits_ok in Hint.
  apply andb_prop in Hint as [Hne Hds].
  destruct int as [|c int]; [discriminate Hne|].
  cbn [forallb] in Hds. apply andb_prop in Hds as [Hc _]. cbn. eauto.
Qed.

(** [literalInterface] on a number literal. *)
Lemma literal_value_number (n : number_literal) (st : scan_step) (ps : list parse_state)
      (tp : option jvalue) (sv : bool) :
  number_ok n = true ->
  literal_value (Scanner st ps (rev (number_text n)) tp sv)
  = Some (layout_value (LNumber n), (sv || negb (layout_in_range (LNumber n)))%bool).
Proof.
  intros Hok. unfold literal_value. cbn [literal savedError layout_value layout_in_range].
  rewrite rev_involutive.
  destruct (number_text_head n Hok) as (c & tl & Htext & Hc). rewrite Htext.
  assert (Hnot : Ascii.eqb c "n" = false /\ Ascii.eqb c "t" = false
                 /\ Ascii.eqb c "f" = false /\ Ascii.eqb c dquote = false).
  { destruct Hc as [-> | Hc]; [repeat split|]. digit_cases Hc; repeat split. }
  destruct Hnot as (-> & -> & -> & ->).
  destruct (strconv_ParseFloat (c :: tl)); cbn [negb].
  - rewrite Bool.orb_false_r. reflexivity.
  - rewrite Bool.orb_true_r. reflexivity.
Qed.

(** A number literal where a value is expected, and the byte after it. *)
Lemma scan_number_literal (n : number_literal) (st : scan_step) (ps : list parse_state)
      (tp : option jvalue) (sv : bool) (c : ascii) (rest : list ascii) :
  number_ok n = true ->
  st = stateBeginValue \/ st = stateBeginValueOrEmpty ->
  accepts_value ps = true ->
  delimiter c = true ->
  scan_bytes (Scanner st ps [] tp sv) (number_text n ++ c :: rest)
  = match do_stateEndValue
            (Scanner stateEndValue (store_value (layout_value (LNumber n)) ps) []
                     (match ps with [] => Some (layout_value (LNumber n)) | _ => tp end)
                     (sv || negb (layout_in_range (LNumber n)))) c with
    | Some s' => scan_bytes s' rest
    | None => None
    end.
Proof.
  intros Hok Hst Hps Hc. rewrite scan_number by assumption.
  cbn [scan_bytes]. rewrite scan_number_end by (auto using number_end_state_cases).
  unfold end_number, end_literal. rewrite literal_value_number by exact Hok.
  cbn [step parseState literal top]. rewrite deliver_accepts by exact Hps. reflexivity.
Qed.

(* ------------------------------------------------------------------ *)
(** ** The scanner on the text of a layout *)

(** Induction on layouts, with the hypothesis for every element and
    member. *)
Lemma layout_induction (P : layout -> Prop) :
  P LNull -> P LTrue -> P LFalse ->
  (forall n, P (LNumber n)) ->
  (forall items, P (LString items)) ->
  (forall w, P (LArray0 w)) ->
  (forall elems, Forall (fun e => P (el_value e)) elems -> P (LArray elems)) ->
  (forall w, P (LObject0 w)) ->
  (forall members, Forall (fun m => P (mb_value m)) members -> P (LObject members)) ->
  forall d, P d.
Proof.
  intros Hnull Htrue Hfalse Hnum Hstr Harr0 Harr Hobj0 Hobj.
  fix IH 1. intros [| | |n|items|w|elems|w|members];
    [exact Hnull | exact Htrue | exact Hfalse | apply Hnum | apply Hstr | apply Harr0
    | apply Harr | apply Hobj0 | apply Hobj].
  - induction elems as [|e elems IHe]; constructor; [apply IH | exact IHe].
  - induction members as [|m members IHm]; constructor; [apply IH | exact IHm].
Qed.

Lemma scan_after_inside (v : jvalue) (p : parse_state) (ps : list parse_state)
      (tp : option jvalue) (sv : bool) (c : ascii) (rest : list ascii) :
  scan_after v (p :: ps) tp sv c rest
  = scan_bytes (Scanner stateEndValue (store_value v (p :: ps)) [] tp sv) (c :: rest).
Proof. reflexivity. Qed.

(** A finished container is stored, and the next byte is read. *)
Lemma pop_then (v : jvalue) (st0 : scan_step) (p : parse_state) (ps : list parse_state)
      (tp : option jvalue) (sv : bool) (c : ascii) (rest : list ascii) :
  accepts_value ps = true ->
  match popParseState v (Scanner st0 (p :: ps) [] tp sv) with
  | Some s' => scan_bytes s' (c :: rest)
  | None => None
  end = scan_after v ps tp sv c rest.
Proof.
  intros Hps. unfold popParseState. cbn [parseState step literal top savedError].
  rewrite deliver_accepts by exact Hps. unfold scan_after.
  destruct ps as [|p' ps]; [|reflexivity].
  cbn [scan_bytes store_value]. unfold scan_byte, do_stateEndValue, do_stateEndTop.
  cbn [step parseState]. destruct (isSpace c); reflexivity.
Qed.

(** A value inside a container, the white space after it, and the
    delimiter that follows. *)
Lemma value_then_ws (d : layout) (w : list ascii) (st : scan_step) (p : parse_state)
      (ps : list parse_state) (tp : option jvalue) (sv : bool) (c : ascii)
      (rest : list ascii) :
  reads_value d -> layout_ok d = true -> is_ws w = true ->
  st = stateBeginValue \/ st = stateBeginValueOrEmpty ->
  accepts_value (p :: ps) = true ->
  delimiter c = true ->
  (length (p :: ps) + layout_depth d <= maxNestingDepth)%nat ->
  scan_bytes (Scanner st (p :: ps) [] tp sv) (layout_text d ++ w ++ c :: rest)
  = scan_bytes (Scanner stateEndValue (store_value (layout_value d) (p :: ps)) [] tp
                        (sv || negb (layout_in_range d))) (c :: rest).
Proof.
  intros Hd Hok Hw Hst Hps Hc Hdepth.
  destruct w as [|s w].
  - cbn [app]. rewrite (Hd Hok) by assumption. apply scan_after_inside.
  - cbn [is_ws forallb] in Hw. apply andb_prop in Hw as [Hs Hw].
    cbn [app]. rewrite (Hd Hok st (p :: ps) tp sv s (w ++ c :: rest)); try assumption.
    + rewrite scan_after_inside.
      change (s :: w ++ c :: rest) with ((s :: w) ++ c :: rest).
      destruct (store_value (layout_value d) (p :: ps)) as [|p' ps'] eqn:Es.
      { destruct p; discriminate Es. }
      apply scan_ws_end. cbn [is_ws forallb]. rewrite Hs. exact Hw.
    + unfold delimiter. rewrite Hs. reflexivity.
Qed.

Lemma depth_elems_le (e : element layout) (elems : list (element layout)) :
  In e elems ->
  (layout_depth (el_value e)
   <= fold_right (fun e n => Nat.max (layout_depth (el_value e)) n) 0 elems)%nat.
Proof.
  induction elems as [|e' elems IH]; [intros []|].
  intros [->|Hin]; cbn [fold_right]; [lia|]. specialize (IH Hin). lia.
Qed.

Lemma depth_members_le (m : member layout) (members : list (member layout)) :
  In m members ->
  (layout_depth (mb_value m)
   <= fold_right (fun m n => Nat.max (layout_depth (mb_value m)) n) 0 members)%nat.
Proof.
  induction members as [|m' members IH]; [intros []|].
  intros [->|Hin]; cbn [fold_right]; [lia|]. specialize (IH Hin). lia.
Qed.

(** One element of an array, up to the comma or bracket after it. *)
Lemma scan_element (e : element layout) (st : scan_step) (acc : list jvalue)
      (ps : list parse_state) (tp : option jvalue) (sv : bool) (c : ascii)
      (rest : list ascii) :
  reads_value (el_value e) ->
  (is_ws (el_pre e) && layout_ok (el_value e) && is_ws (el_post e))%bool = true ->
  st = stateBeginValue \/ st = stateBeginValueOrEmpty ->
  delimiter c = true ->
  (Datatypes.S (length ps) + layout_depth (el_value e) <= maxNestingDepth)%nat ->
  scan_bytes (Scanner st (parseArrayValue acc :: ps) [] tp sv)
             (el_pre e ++ layout_text (el_value e) ++ el_post e ++ c :: rest)
  = scan_bytes (Scanner stateEndValue (parseArrayValue (acc ++ [layout_value (el_value e)]) :: ps)
                        [] tp (sv || negb (layout_in_range (el_value e)))) (c :: rest).
Proof.
  intros Hd Hok Hst Hc Hdepth.
  apply andb_prop in Hok as [Hok Hpost]. apply andb_prop in Hok as [Hpre Hok].
  rewrite scan_ws_begin by tauto.
  rewrite (value_then_ws (el_value e) (el_post e) st (parseArrayValue acc) ps tp sv c rest);
    auto.
Qed.

(** The elements after the first, and the closing bracket. *)
Lemma scan_elems_tail (elems : list (element layout)) :
  Forall (fun e => reads_value (el_value e)) elems ->
  forallb (fun e => is_ws (el_pre e) && layout_ok (el_value e) && is_ws (el_post e)) elems
  = true ->
  forall acc ps tp sv c rest,
    accepts_value ps = true ->
    (Datatypes.S (length ps)
     + fold_right (fun e n => Nat.max (layout_depth (el_value e)) n) 0 elems
     <= maxNestingDepth)%nat ->
    scan_bytes (Scanner stateEndValue (parseArrayValue acc :: ps) [] tp sv)
               (match elems with [] => [] | _ => [","%char] end
                ++ elems_text layout_text elems ++ c :: rest)
    = scan_after (JArray (acc ++ map (fun e => layout_value (el_value e)) elems)) ps tp
                 (sv || negb (forallb (fun e => layout_in_range (el_value e)) elems)) c rest.
Proof.
  induction 1 as [|e elems He _ IH]; intros Hok acc ps tp sv c rest Hps Hdepth.
  - cbn [app elems_text map forallb negb scan_bytes].
    rewrite app_nil_r, Bool.orb_false_r.
    change (scan_byte (Scanner stateEndValue (parseArrayValue acc :: ps) [] tp sv) "]")
      with (popParseState (JArray acc) (Scanner stateEndValue (parseArrayValue acc :: ps)
                                                [] tp sv)).
    apply pop_then. exact Hps.
  - cbn [forallb] in Hok. apply andb_prop in Hok as [Hoke Hok].
    cbn [fold_right] in Hdepth.
    cbn [app elems_text scan_bytes].
    change (scan_byte (Scanner stateEndValue (parseArrayValue acc :: ps) [] tp sv) ",")
      with (Some (Scanner stateBeginValue (parseArrayValue acc :: ps) [] tp sv)).
    cbv iota.
    assert (Hnext : exists c' rest',
               match elems with [] => [] | _ => [","%char] end
               ++ elems_text layout_text elems ++ c :: rest = c' :: rest'
               /\ delimiter c' = true).
    { destruct elems; cbn; eauto. }
    destruct Hnext as (c' & rest' & Hnext & Hc').
    rewrite <- !app_assoc.
    replace (el_pre e ++ layout_text (el_value e) ++ el_post e
             ++ match elems with [] => [] | _ => [","%char] end
             ++ elems_text layout_text elems ++ c :: rest)
      with (el_pre e ++ layout_text (el_value e) ++ el_post e ++ c' :: rest')
      by (rewrite Hnext; reflexivity).
    rewrite scan_element; try assumption; [|tauto|lia].
    rewrite <- Hnext, IH; try assumption; [|lia].
    cbn [map forallb]. rewrite <- app_assoc. cbn [app].
    rewrite Bool.negb_andb, Bool.orb_assoc. reflexivity.
Qed.

(** One member of an object, up to the comma or brace after it. *)
Lemma scan_member (mb : member layout) (st : scan_step) (m : list (list ascii * jvalue))
      (ps : list parse_state) (tp : option jvalue) (sv : bool) (c : ascii)
      (rest : list ascii) :
  reads_value (mb_value mb) ->
  (is_ws (mb_pre mb) && forallb str_item_ok (mb_key mb) && is_ws (mb_mid mb)
   && is_ws (mb_sep mb) && layout_ok (mb_value mb) && is_ws (mb_post mb))%bool = true ->
  st = stateBeginString \/ st = stateBeginStringOrEmpty ->
  delimiter c = true ->
  (Datatypes.S (length ps) + layout_depth (mb_value mb) <= maxNestingDepth)%nat ->
  scan_bytes (Scanner st (parseObjectKey m None :: ps) [] tp sv)
             (member_text layout_text mb ++ c :: rest)
  = scan_bytes (Scanner stateEndValue
                        (parseObjectValue
                           (map_assign (string_value (mb_key mb)) (layout_value (mb_value mb)) m)
                           (string_value (mb_key mb)) :: ps)
                        [] tp (sv || negb (layout_in_range (mb_value mb)))) (c :: rest).
Proof.
  intros Hd Hok Hst Hc Hdepth.
  apply andb_prop in Hok as [Hok Hpost]. apply andb_prop in Hok as [Hok Hval].
  apply andb_prop in Hok as [Hok Hsep]. apply andb_prop in Hok as [Hok Hmid].
  apply andb_prop in Hok as [Hpre Hkey].
  unfold member_text. rewrite <- !app_assoc.
  rewrite scan_ws_begin by tauto.
  rewrite scan_key by assumption.
  rewrite scan_ws_end by assumption.
  cbn [app scan_bytes].
  change (scan_byte (Scanner stateEndValue
                             (parseObjectKey m (Some (string_value (mb_key mb))) :: ps)
                             [] tp sv) ":")
    with (Some (Scanner stateBeginValue
                        (parseObjectValue m (string_value (mb_key mb)) :: ps) [] tp sv)).
  cbv iota. rewrite <- !app_assoc.
  rewrite scan_ws_begin by tauto.
  rewrite (value_then_ws (mb_value mb) (mb_post mb) stateBeginValue
             (parseObjectValue m (string_value (mb_key mb))) ps tp sv c rest); auto.
Qed.

(** The members after the first, and the closing brace. *)
Lemma scan_members_tail (members : list (member layout)) :
  Forall (fun m => reads_value (mb_value m)) members ->
  forallb (fun m => is_ws (mb_pre m) && forallb str_item_ok (mb_key m)
                    && is_ws (mb_mid m) && is_ws (mb_sep m)
                    && layout_ok (mb_value m) && is_ws (mb_post m)) members = true ->
  forall m key ps tp sv c rest,
    accepts_value ps = true ->
    (Datatypes.S (length ps)
     + fold_right (fun m n => Nat.max (layout_depth (mb_value m)) n) 0 members
     <= maxNestingDepth)%nat ->
    scan_bytes (Scanner stateEndValue (parseObjectValue m key :: ps) [] tp sv)
               (match members with [] => [] | _ => [","%char] end
                ++ members_text layout_text members ++ c :: rest)
    = scan_after (JObject (assign_members members m)) ps tp
                 (sv || negb (forallb (fun m => layout_in_range (mb_value m)) members)) c rest.
Proof.
  induction 1 as [|mb members Hmb _ IH]; intros Hok m key ps tp sv c rest Hps Hdepth.
  - cbn [app members_text forallb negb scan_bytes assign_members fold_left].
    rewrite Bool.orb_false_r.
    change (scan_byte (Scanner stateEndValue (parseObjectValue m key :: ps) [] tp sv) "}")
      with (popParseState (JObject m) (Scanner stateEndValue (parseObjectValue m key :: ps)
                                               [] tp sv)).
    apply pop_then. exact Hps.
  - cbn [forallb] in Hok. apply andb_prop in Hok as [Hokm Hok].
    cbn [fold_right] in Hdepth.
    cbn [app members_text scan_bytes].
    change (scan_byte (Scanner stateEndValue (parseObjectValue m key :: ps) [] tp sv) ",")
      with (Some (Scanner stateBeginString (parseObjectKey m None :: ps) [] tp sv)).
    cbv iota.
    assert (Hnext : exists c' rest',
               match members with [] => [] | _ => [","%char] end
               ++ members_text layout_text members ++ c :: rest = c' :: rest'
               /\ delimiter c' = true).
    { destruct members; cbn; eauto. }
    destruct Hnext as (c' & rest' & Hnext & Hc').
    rewrite <- !app_assoc.
    replace (member_text layout_text mb
             ++ match members with [] => [] | _ => [","%char] end
             ++ members_text layout_text members ++ c :: rest)
      with (member_text layout_text mb ++ c' :: rest')
      by (rewrite Hnext; reflexivity).
    rewrite scan_member; try assumption; [|tauto|lia].
    rewrite <- Hnext, IH; try assumption; [|lia].
    cbn [forallb assign_members fold_left].
    rewrite Bool.negb_andb, Bool.orb_assoc. reflexivity.
Qed.

Lemma push_fits (st st' : scan_step) (p : parse_state) (ps : list parse_state)
      (tp : option jvalue) (sv : bool) (n : nat) :
  (length ps + Datatypes.S n <= maxNestingDepth)%nat ->
  pushParseState st' p (Scanner st ps [] tp sv) = Some (Scanner st' (p :: ps) [] tp sv).
Proof.
  intros H. unfold pushParseState. cbn [parseState top savedError].
  destruct (Nat.leb_spec (length ps + 1) maxNestingDepth); [reflexivity|lia].
Qed.

(** The text of a layout, followed by a delimiter, is read as its value. *)
Lemma scan_layout (d : layout) : reads_value d.
Proof.
  induction d as [| | |n|items|w|elems IH|w|members IH] using layout_induction;
    intros Hok st ps tp sv c rest Hst Hps Hc Hdepth.
  - etransitivity; [apply scan_literal_null; assumption|].
    cbn [layout_in_range negb layout_value]. rewrite Bool.orb_false_r. reflexivity.
  - etransitivity; [apply scan_literal_true; assumption|].
    cbn [layout_in_range negb layout_value]. rewrite Bool.orb_false_r. reflexivity.
  - etransitivity; [apply scan_literal_false; assumption|].
    cbn [layout_in_range negb layout_value]. rewrite Bool.orb_false_r. reflexivity.
  - apply scan_number_literal; assumption.
  - cbn [layout_text layout_ok] in *.
    rewrite scan_string_literal by assumption.
    cbn [layout_in_range negb layout_value]. rewrite Bool.orb_false_r. reflexivity.
  - cbn [layout_text layout_ok layout_depth layout_value layout_in_range negb] in *.
    rewrite Bool.orb_false_r. cbn [app scan_bytes].
    assert (Hpush : scan_byte (Scanner st ps [] tp sv) "["
                    = Some (Scanner stateBeginValueOrEmpty (parseArrayValue [] :: ps) [] tp sv)).
    { transitivity (pushParseState stateBeginValueOrEmpty (parseArrayValue [])
                                   (Scanner st ps [] tp sv));
        [destruct Hst as [-> | ->]; reflexivity | eapply push_fits; exact Hdepth]. }
    rewrite Hpush, <- app_assoc, scan_ws_begin by tauto.
    cbn [app scan_bytes].
    change (scan_byte (Scanner stateBeginValueOrEmpty (parseArrayValue [] :: ps) [] tp sv) "]")
      with (popParseState (JArray []) (Scanner stateBeginValueOrEmpty
                                               (parseArrayValue [] :: ps) [] tp sv)).
    apply pop_then. exact Hps.
  - cbn [layout_text layout_ok layout_depth layout_value layout_in_range] in *.
    apply andb_prop in Hok as [Hne Hok].
    destruct elems as [|e elems]; [discriminate Hne|].
    cbn [app scan_bytes].
    assert (Hpush : scan_byte (Scanner st ps [] tp sv) "["
                    = Some (Scanner stateBeginValueOrEmpty (parseArrayValue [] :: ps) [] tp sv)).
    { transitivity (pushParseState stateBeginValueOrEmpty (parseArrayValue [])
                                   (Scanner st ps [] tp sv));
        [destruct Hst as [-> | ->]; reflexivity | eapply push_fits; exact Hdepth]. }
    rewrite Hpush. inversion IH as [|? ? He Helems]; subst.
    cbn [forallb] in Hok. apply andb_prop in Hok as [Hoke Hok].
    cbn [fold_right] in Hdepth. cbn [elems_text].
    assert (Hnext : exists c' rest',
               match elems with [] => [] | _ => [","%char] end
               ++ elems_text layout_text elems ++ c :: rest = c' :: rest'
               /\ delimiter c' = true).
    { destruct elems; cbn; eauto. }
    destruct Hnext as (c' & rest' & Hnext & Hc').
    rewrite <- !app_assoc.
    replace (el_pre e ++ layout_text (el_value e) ++ el_post e
             ++ match elems with [] => [] | _ => [","%char] end
             ++ elems_text layout_text elems ++ c :: rest)
      with (el_pre e ++ layout_text (el_value e) ++ el_post e ++ c' :: rest')
      by (rewrite Hnext; reflexivity).
    rewrite scan_element; try assumption; [|tauto|lia].
    rewrite <- Hnext, scan_elems_tail; try assumption; [|lia].
    cbn [map forallb app]. rewrite Bool.negb_andb, Bool.orb_assoc. reflexivity.
  - cbn [layout_text layout_ok layout_depth layout_value layout_in_range negb] in *.
    rewrite Bool.orb_false_r. cbn [app scan_bytes].
    assert (Hpush : scan_byte (Scanner st ps [] tp sv) "{"
                    = Some (Scanner stateBeginStringOrEmpty (parseObjectKey [] None :: ps)
                                    [] tp sv)).
    { transitivity (pushParseState stateBeginStringOrEmpty (parseObjectKey [] None)
                                   (Scanner st ps [] tp sv));
        [destruct Hst as [-> | ->]; reflexivity | eapply push_fits; exact Hdepth]. }
    rewrite Hpush, <- app_assoc, scan_ws_begin by tauto.
    cbn [app scan_bytes].
    change (scan_byte (Scanner stateBeginStringOrEmpty (parseObjectKey [] None :: ps)
                               [] tp sv) "}")
      with (popParseState (JObject [])
                          (Scanner stateBeginStringOrEmpty (parseObjectValue [] [] :: ps)
                                   [] tp sv)).
    apply pop_then. exact Hps.
  - cbn [layout_text layout_ok layout_depth layout_value layout_in_range] in *.
    apply andb_prop in Hok as [Hne Hok].
    destruct members as [|mb members]; [discriminate Hne|].
    cbn [app scan_bytes].
    assert (Hpush : scan_byte (Scanner st ps [] tp sv) "{"
                    = Some (Scanner stateBeginStringOrEmpty (parseObjectKey [] None :: ps)
                                    [] tp sv)).
    { transitivity (pushParseState stateBeginStringOrEmpty (parseObjectKey [] None)
                                   (Scanner st ps [] tp sv));
        [destruct Hst as [-> | ->]; reflexivity | eapply push_fits; exact Hdepth]. }
    rewrite Hpush. inversion IH as [|? ? Hmb Hmembers]; subst.
    cbn [forallb] in Hok. apply andb_prop in Hok as [Hokm Hok].
    cbn [fold_right] in Hdepth. cbn [members_text].
    assert (Hnext : exists c' rest',
               match members with [] => [] | _ => [","%char] end
               ++ members_text layout_text members ++ c :: rest = c' :: rest'
               /\ delimiter c' = true).
    { destruct members; cbn; eauto. }
    destruct Hnext as (c' & rest' & Hnext & Hc').
    rewrite <- !app_assoc.
    replace (member_text layout_text mb
             ++ match members with [] => [] | _ => [","%char] end
             ++ members_text layout_text members ++ c :: rest)
      with (member_text layout_text mb ++ c' :: rest')
      by (rewrite Hnext; reflexivity).
    rewrite scan_member; try assumption; [|tauto|lia].
    rewrite <- Hnext, scan_members_tail; try assumption; [|lia].
    cbn [forallb fold_left]. rewrite Bool.negb_andb, Bool.orb_assoc. reflexivity.
Qed.

(** ** [json.Unmarshal] on a laid out document *)

(** The end of the input is a space for the scanner. *)
Lemma json_Unmarshal_space (data : list ascii) :
  json_Unmarshal data
  = match scan_bytes scanner_reset (data ++ [" "%char]) with
    | Some s =>
        match step s with
        | stateEndTop => if savedError s then None else top s
        | _ => None
        end
    | None => None
    end.
Proof.
  unfold json_Unmarshal. rewrite scan_bytes_app.
  destruct (scan_bytes scanner_reset data) as [s|]; [|reflexivity].
  cbn [scan_bytes]. unfold scan_eof.
  destruct s as [st ps lit tp sv].
  destruct st; cbn [step];
    try (destruct (scan_byte _ " ") as [s'|]; [destruct (step s')|]; reflexivity).
  unfold scan_byte. cbn [step]. unfold do_stateEndTop. reflexivity.
Qed.

Lemma is_ws_app (w w' : list ascii) :
  is_ws (w ++ w') = (is_ws w && is_ws w')%bool.
Proof. unfold is_ws. apply forallb_app. Qed.

(** A document in white space is decoded as its value, unless one of its
    numbers is out of range. *)
Lemma json_Unmarshal_layout (d : layout) (w w' : list ascii) :
  layout_ok d = true -> is_ws w = true -> is_ws w' = true ->
  (layout_depth d <= maxNestingDepth)%nat ->
  json_Unmarshal (w ++ layout_text d ++ w')
  = if layout_in_range d then Some (layout_value d) else None.
Proof.
  intros Hok Hw Hw' Hdepth. rewrite json_Unmarshal_space.
  unfold scanner_reset. rewrite <- !app_assoc.
  rewrite scan_ws_begin by (auto).
  assert (Hsp : exists c rest, w' ++ [" "%char] = c :: rest
                               /\ isSpace c = true /\ is_ws rest = true).
  { destruct w' as [|c w'].
    - exists " "%char, []. repeat split.
    - cbn in Hw'. apply andb_prop in Hw' as [Hc Hw'].
      exists c, (w' ++ [" "%char]). repeat split; [exact Hc|].
      rewrite is_ws_app. apply andb_true_intro. split; [exact Hw' | reflexivity]. }
  destruct Hsp as (c & rest & -> & Hc & Hrest).
  rewrite (scan_layout d Hok stateBeginValue [] None false c rest);
    [ | auto | reflexivity | unfold delimiter; rewrite Hc; reflexivity | exact Hdepth ].
  unfold scan_after, do_stateEndValue, do_stateEndTop.
  cbn [parseState store_value]. rewrite Hc. unfold with_step.
  cbn [parseState literal top savedError].
  rewrite scan_ws_top by exact Hrest. cbn [step savedError top].
  destruct (layout_in_range d); reflexivity.
Qed.

(* ------------------------------------------------------------------ *)
(** ** Decoded values can be encoded

    Every number of a decoded value is finite, so [json.Marshal] of a
    decoded value does not fail. *)

Lemma strconv_ParseFloat_finite (s : list ascii) (f : spec_float) :
  strconv_ParseFloat s = Some f -> is_finite f = true.
Proof.
  unfold strconv_ParseFloat. destruct (read_decimal s) as [[neg mant] e].
  destruct (round_decimal neg mant e); intros [= <-]; reflexivity.
Qed.

Lemma encode_float_finite (f : spec_float) :
  is_finite f = true -> exists c, encode_float f = Some c.
Proof.
  destruct f as [sg|sg| |sg m e]; try discriminate; intros _; unfold encode_float.
  - eexists; reflexivity.
  - destruct (shortest_digits m e) as [ds dp].
    destruct (_ || _)%bool; eexists; reflexivity.
Qed.

(** Induction on values, with the hypothesis for every element and for
    the value of every entry. *)
Lemma jvalue_induction (P : jvalue -> Prop) :
  P JNull -> (forall b, P (JBool b)) -> (forall f, P (JNumber f)) ->
  (forall s, P (JString s)) ->
  (forall elems, Forall P elems -> P (JArray elems)) ->
  (forall members, Forall (fun kv => P (snd kv)) members -> P (JObject members)) ->
  forall v, P v.
Proof.
  intros Hnull Hbool Hnum Hstr Harr Hobj.
  fix IH 1. intros [|b|f|s|elems|members];
    [exact Hnull | apply Hbool | apply Hnum | apply Hstr | apply Harr | apply Hobj].
  - induction elems as [|e elems IHe]; constructor; [apply IH | exact IHe].
  - induction members as [|m members IHm]; constructor; [apply IH | exact IHm].
Qed.

Lemma encode_value_finite (v : jvalue) :
  finite_value v = true -> exists c, encode_value v = Some c.
Proof.
  induction v as [|b|f|s|elems IH|members IH] using jvalue_induction; intros Hfin.
  - eexists; reflexivity.
  - destruct b; eexists; reflexivity.
  - apply encode_float_finite, Hfin.
  - eexists; reflexivity.
  - cbn [finite_value] in Hfin. cbn [encode_value].
    assert (Hall : exists parts, encode_all encode_value elems = Some parts).
    { induction IH as [|e elems He _ IHl]; [eexists; reflexivity|].
      cbn [forallb] in Hfin. apply andb_prop in Hfin as [Hfe Hfl].
      destruct (He Hfe) as [p Hp]. destruct (IHl Hfl) as [parts Hparts].
      cbn [encode_all]. rewrite Hp, Hparts. eexists; reflexivity. }
    destruct Hall as [parts ->]. eexists; reflexivity.
  - cbn [finite_value] in Hfin. cbn [encode_value].
    assert (Hall : exists entries, encode_entries encode_value members = Some entries).
    { induction IH as [|[k x] members He _ IHl]; [eexists; reflexivity|].
      cbn [forallb snd] in Hfin. apply andb_prop in Hfin as [Hfe Hfl].
      destruct (He Hfe) as [p Hp]. destruct (IHl Hfl) as [entries Hentries].
      cbn [encode_entries]. cbn [snd] in Hp. rewrite Hp, Hentries. eexists; reflexivity. }
    destruct Hall as [entries ->]. eexists; reflexivity.
Qed.

Lemma finite_scanner_intro (st : scan_step) (ps : list parse_state) (lit : list ascii)
      (tp : option jvalue) (sv : bool) :
  forallb finite_parse_state ps = true ->
  match tp with Some v => finite_value v | None => true end = true ->
  finite_scanner (Scanner st ps lit tp sv) = true.
Proof.
  intros Hps Htp. unfold finite_scanner. cbn [parseState top]. rewrite Hps, Htp. reflexivity.
Qed.

Lemma finite_scanner_elim (s : scanner) :
  finite_scanner s = true ->
  forallb finite_parse_state (parseState s) = true
  /\ match top s with Some v => finite_value v | None => true end = true.
Proof. unfold finite_scanner. intros H. apply andb_prop in H. exact H. Qed.

Lemma finite_map_assign (key : list ascii) (v : jvalue) (m : list (list ascii * jvalue)) :
  finite_value v = true ->
  forallb (fun kv => finite_value (snd kv)) m = true ->
  forallb (fun kv => finite_value (snd kv)) (map_assign key v m) = true.
Proof.
  intros Hv. induction m as [|[k x] m IH]; cbn [map_assign forallb snd].
  - intros _. rewrite Hv. reflexivity.
  - intros H. apply andb_prop in H as [Hx Hm].
    destruct (bytes_eqb k key); cbn [forallb snd].
    + rewrite Hv, Hm. reflexivity.
    + rewrite Hx, (IH Hm). reflexivity.
Qed.

Lemma finite_store_value (v : jvalue) (ps : list parse_state) :
  finite_value v = true ->
  forallb finite_parse_state ps = true ->
  forallb finite_parse_state (store_value v ps) = true.
Proof.
  intros Hv. destruct ps as [|[m k|m k|elems] ps]; cbn [store_value]; try (intros H; exact H).
  - cbn [forallb finite_parse_state]. intros H. apply andb_prop in H as [Hm Hps].
    rewrite (finite_map_assign k v m Hv Hm), Hps. reflexivity.
  - cbn [forallb finite_parse_state]. intros H. apply andb_prop in H as [Hm Hps].
    rewrite forallb_app, Hm, Hps. cbn [forallb]. rewrite Hv. reflexivity.
Qed.

Lemma keeps_deliver (st : scan_step) (v : jvalue) (s : scanner) :
  finite_scanner s = true -> finite_value v = true -> keeps_finite (deliver st v s).
Proof.
  intros Hs Hv. apply finite_scanner_elim in Hs as [Hps Htp].
  unfold deliver. destruct (parseState s) as [|p ps] eqn:Eps.
  - apply finite_scanner_intro; [reflexivity | exact Hv].
  - destruct p as [m [key|]|m key|elems].
    + exact I.
    + destruct v; try exact I. apply finite_scanner_intro; [exact Hps | exact Htp].
    + apply finite_scanner_intro; [|exact Htp]. apply finite_store_value; assumption.
    + apply finite_scanner_intro; [|exact Htp]. apply finite_store_value; assumption.
Qed.

Lemma keeps_pushParseState (st : scan_step) (p : parse_state) (s : scanner) :
  finite_scanner s = true -> finite_parse_state p = true ->
  keeps_finite (pushParseState st p s).
Proof.
  intros Hs Hp. apply finite_scanner_elim in Hs as [Hps Htp].
  unfold pushParseState. destruct (_ <=? _)%nat; [|exact I].
  apply finite_scanner_intro; [|exact Htp]. cbn [forallb]. rewrite Hp, Hps. reflexivity.
Qed.

Lemma keeps_popParseState (v : jvalue) (s : scanner) :
  finite_scanner s = true -> finite_value v = true -> keeps_finite (popParseState v s).
Proof.
  intros Hs Hv. apply finite_scanner_elim in Hs as [Hps Htp].
  unfold popParseState. destruct (parseState s) as [|p ps]; [exact I|].
  cbn [forallb] in Hps. apply andb_prop in Hps as [_ Hps].
  apply keeps_deliver; [|exact Hv]. apply finite_scanner_intro; assumption.
Qed.

Lemma literal_value_finite (s : scanner) (v : jvalue) (saved : bool) :
  literal_value s = Some (v, saved) -> finite_value v = true.
Proof.
  unfold literal_value. destruct (rev (literal s)) as [|c item]; [discriminate|].
  destruct (Ascii.eqb c "n"); [intros [= <- _]; reflexivity|].
  destruct (Ascii.eqb c "t"); [intros [= <- _]; reflexivity|].
  destruct (Ascii.eqb c "f"); [intros [= <- _]; reflexivity|].
  destruct (Ascii.eqb c dquote).
  - destruct (unquote (c :: item)); [intros [= <- _]; reflexivity | discriminate].
  - destruct (strconv_ParseFloat (c :: item)) as [f|] eqn:Ef; intros [= <- _];
      [exact (strconv_ParseFloat_finite _ _ Ef) | reflexivity].
Qed.

Lemma keeps_end_literal (s : scanner) :
  finite_scanner s = true -> keeps_finite (end_literal s).
Proof.
  intros Hs. unfold end_literal.
  destruct (literal_value s) as [[v saved]|] eqn:Ev; [|exact I].
  apply keeps_deliver; [|exact (literal_value_finite _ _ _ Ev)].
  apply finite_scanner_elim in Hs as [Hps Htp]. apply finite_scanner_intro; assumption.
Qed.

Lemma keeps_do_stateEndTop (s : scanner) (c : ascii) :
  finite_scanner s = true -> keeps_finite (do_stateEndTop s c).
Proof.
  intros Hs. unfold do_stateEndTop. destruct (isSpace c); [exact Hs | exact I].
Qed.

Lemma keeps_do_stateEndValue (s : scanner) (c : ascii) :
  finite_scanner s = true -> keeps_finite (do_stateEndValue s c).
Proof.
  intros Hs. unfold do_stateEndValue.
  destruct (parseState s) as [|p ps] eqn:Eps; [apply keeps_do_stateEndTop, Hs|].
  destruct (isSpace c); [exact Hs|].
  pose proof (finite_scanner_elim s Hs) as [Hps Htp]. rewrite Eps in Hps.
  cbn [forallb] in Hps. apply andb_prop in Hps as [Hp Hps].
  destruct p as [m [key|]|m key|elems].
  - destruct (Ascii.eqb c ":"); [|exact I].
    apply finite_scanner_intro; [|exact Htp]. cbn [forallb]. rewrite Hps.
    cbn [finite_parse_state] in *. rewrite Hp. reflexivity.
  - exact I.
  - destruct (Ascii.eqb c ",").
    + apply finite_scanner_intro; [|exact Htp]. cbn [forallb]. rewrite Hps.
      cbn [finite_parse_state] in *. rewrite Hp. reflexivity.
    + destruct (Ascii.eqb c "}"); [|exact I].
      apply keeps_popParseState; [exact Hs | exact Hp].
  - destruct (Ascii.eqb c ","); [exact Hs|].
    destruct (Ascii.eqb c "]"); [|exact I].
    apply keeps_popParseState; [exact Hs | exact Hp].
Qed.

Lemma keeps_end_number (s : scanner) (c : ascii) :
  finite_scanner s = true -> keeps_finite (end_number s c).
Proof.
  intros Hs. unfold end_number. pose proof (keeps_end_literal s Hs) as H.
  destruct (end_literal s) as [s'|]; [|exact I]. apply keeps_do_stateEndValue, H.
Qed.

Lemma keeps_do_stateBeginString (s : scanner) (c : ascii) :
  finite_scanner s = true -> keeps_finite (do_stateBeginString s c).
Proof.
  intros Hs. unfold do_stateBeginString.
  destruct (isSpace c); [exact Hs|]. destruct (Ascii.eqb c dquote); [exact Hs | exact I].
Qed.

Lemma keeps_do_stateBeginValue (s : scanner) (c : ascii) :
  finite_scanner s = true -> keeps_finite (do_stateBeginValue s c).
Proof.
  intros Hs. unfold do_stateBeginValue.
  destruct (isSpace c); [exact Hs|].
  destruct (Ascii.eqb c "{"); [apply keeps_pushParseState; [exact Hs | reflexivity]|].
  destruct (Ascii.eqb c "["); [apply keeps_pushParseState; [exact Hs | reflexivity]|].
  repeat (match goal with
          | |- keeps_finite (if ?b then _ else _) => destruct b; [exact Hs|]
          end).
  exact I.
Qed.

Lemma keeps_do_state0 (s : scanner) (c : ascii) :
  finite_scanner s = true -> keeps_finite (do_state0 s c).
Proof.
  intros Hs. unfold do_state0.
  destruct (Ascii.eqb c "."); [exact Hs|].
  destruct (_ || _)%bool; [exact Hs|]. apply keeps_end_number, Hs.
Qed.

Lemma keeps_last_letter (expected : ascii) (s : scanner) (c : ascii) :
  finite_scanner s = true -> keeps_finite (last_letter expected s c).
Proof.
  intros Hs. unfold last_letter. destruct (Ascii.eqb c expected); [|exact I].
  apply keeps_end_literal. exact Hs.
Qed.

Lemma keeps_letter (expected : ascii) (st : scan_step) (s : scanner) (c : ascii) :
  finite_scanner s = true -> keeps_finite (letter expected st s c).
Proof.
  intros Hs. unfold letter. destruct (Ascii.eqb c expected); [exact Hs | exact I].
Qed.

Lemma scan_byte_finite (s : scanner) (c : ascii) :
  finite_scanner s = true -> keeps_finite (scan_byte s c).
Proof.
  intros Hs. unfold scan_byte.
  destruct (step s) eqn:Est;
    try apply keeps_letter; try apply keeps_last_letter; try apply keeps_do_state0;
    try apply keeps_do_stateBeginValue; try apply keeps_do_stateBeginString;
    try apply keeps_do_stateEndValue; try apply keeps_do_stateEndTop;
    try exact Hs.
  all: repeat (match goal with
               | |- keeps_finite (if ?b then _ else _) => destruct b
               | |- keeps_finite None => exact I
               | |- keeps_finite (Some _) => exact Hs
               end);
    try apply keeps_do_stateBeginValue; try apply keeps_do_stateBeginString;
    try apply keeps_do_stateEndValue; try apply keeps_do_state0;
    try apply keeps_end_number; try apply keeps_end_literal;
    try exact Hs.
  - pose proof (finite_scanner_elim s Hs) as [Hps Htp].
    destruct (parseState s) as [|[m k|m k|elems] ps]; try exact I.
    apply keeps_do_stateEndValue. apply finite_scanner_intro; [exact Hps | exact Htp].
  - unfold do_stateESign. destruct (is_digit c); [exact Hs | exact I].
  - unfold do_stateESign. destruct (is_digit c); [exact Hs | exact I].
Qed.

Lemma scan_bytes_finite (data : list ascii) (s s' : scanner) :
  finite_scanner s = true -> scan_bytes s data = Some s' -> finite_scanner s' = true.
Proof.
  revert s. induction data as [|c data IH]; intros s Hs; cbn [scan_bytes].
  - intros [= <-]. exact Hs.
  - pose proof (scan_byte_finite s c Hs) as H.
    destruct (scan_byte s c) as [s1|]; [|discriminate]. apply IH, H.
Qed.

(** A decoded value has finite numbers only. *)
Lemma json_Unmarshal_finite (data : list ascii) (v : jvalue) :
  json_Unmarshal data = Some v -> finite_value v = true.
Proof.
  rewrite json_Unmarshal_space.
  destruct (scan_bytes scanner_reset (data ++ [" "%char])) as [s|] eqn:Es; [|discriminate].
  apply scan_bytes_finite in Es; [|reflexivity].
  apply finite_scanner_elim in Es as [_ Htp].
  destruct (step s); try discriminate.
  destruct (savedError s); [discriminate|]. intros Hv. rewrite Hv in Htp. exact Htp.
Qed.

(** [json.Marshal] of a decoded value succeeds. *)
Lemma json_Marshal_decoded (data : list ascii) (v : jvalue) :
  json_Unmarshal data = Some v -> exists c, json_Marshal v = Some c.
Proof.
  intros Hv. apply encode_value_finite, (json_Unmarshal_finite data), Hv.
Qed.

(* ------------------------------------------------------------------ *)
(** ** The order of the keys of a map *)


Lemma byte_val_inj (x y : ascii) : byte_val x = byte_val y -> x = y.
Proof.
  unfold byte_val. intros H. apply N2Z.inj in H.
  rewrite <- (ascii_N_embedding x), <- (ascii_N_embedding y), H. reflexivity.
Qed.

Lemma bytes_ltb_irrefl (a : list ascii) : bytes_ltb a a = false.
Proof.
  induction a as [|x a IH]; [reflexivity|]. cbn [bytes_ltb].
  rewrite Z.ltb_irrefl. exact IH.
Qed.

Lemma bytes_ltb_trans (a b c : list ascii) :
  bytes_ltb a b = true -> bytes_ltb b c = true -> bytes_ltb a c = true.
Proof.
  revert b c. induction a as [|x a IH]; intros [|y b] [|z c]; cbn [bytes_ltb];
    try discriminate; try reflexivity.
  destruct (Z.ltb_spec (byte_val x) (byte_val y)) as [Hxy|Hxy];
    destruct (Z.ltb_spec (byte_val y) (byte_val z)) as [Hyz|Hyz];
    destruct (Z.ltb_spec (byte_val x) (byte_val z)) as [Hxz|Hxz];
    try reflexivity; try lia;
    destruct (Z.ltb_spec (byte_val y) (byte_val x)) as [Hyx|Hyx];
    destruct (Z.ltb_spec (byte_val z) (byte_val y)) as [Hzy|Hzy];
    destruct (Z.ltb_spec (byte_val z) (byte_val x)) as [Hzx|Hzx];
    try discriminate; try lia.
  apply IH.
Qed.

Lemma bytes_ltb_total (a b : list ascii) :
  bytes_ltb a b = false -> bytes_ltb b a = false -> a = b.
Proof.
  revert b. induction a as [|x a IH]; intros [|y b]; cbn [bytes_ltb];
    try discriminate; [reflexivity|].
  destruct (Z.ltb_spec (byte_val x) (byte_val y)) as [Hxy|Hxy]; [discriminate|].
  destruct (Z.ltb_spec (byte_val y) (byte_val x)) as [Hyx|Hyx]; [discriminate|].
  intros Hab Hba. assert (Heq : byte_val x = byte_val y) by lia.
  rewrite (byte_val_inj x y Heq), (IH b Hab Hba). reflexivity.
Qed.

Section Sorting.
Context {A : Type}.
Implicit Types (l : list (list ascii * A)) (k : list ascii) (x : A).

Lemma insert_sorted_In k x l (y : list ascii * A) :
  In y (insert_sorted k x l) <-> y = (k, x) \/ In y l.
Proof.
  induction l as [|[k' x'] l IH]; cbn [insert_sorted].
  - cbn. intuition.
  - destruct (bytes_ltb k' k); cbn [In]; [rewrite IH|]; intuition.
Qed.

Lemma sort_by_key_In l (y : list ascii * A) : In y (sort_by_key l) <-> In y l.
Proof.
  induction l as [|[k x] l IH]; [reflexivity|].
  unfold sort_by_key in *. cbn [fold_right fst snd]. rewrite insert_sorted_In, IH.
  cbn [In]. intuition.
Qed.

Lemma insert_sorted_sorted k x l :
  sorted_by_key l -> ~ In k (map fst l) -> sorted_by_key (insert_sorted k x l).
Proof.
  induction l as [|[k' x'] l IH]; cbn [insert_sorted]; intros Hs Hk.
  - cbn. auto.
  - cbn [sorted_by_key fst] in Hs. destruct Hs as [Hall Hs].
    cbn [map fst In] in Hk.
    destruct (bytes_ltb k' k) eqn:Elt; cbn [sorted_by_key fst].
    + split; [|apply IH; [exact Hs | tauto]].
      apply Forall_forall. intros y Hy. apply insert_sorted_In in Hy as [->|Hy];
        [exact Elt | exact (proj1 (Forall_forall _ _) Hall y Hy)].
    + assert (Hlt : bytes_ltb k k' = true).
      { destruct (bytes_ltb k k') eqn:E; [reflexivity|].
        exfalso. apply Hk. left. symmetry. apply bytes_ltb_total; assumption. }
      split; [|split; assumption].
      constructor; [exact Hlt|].
      apply Forall_forall. intros y Hy.
      apply (bytes_ltb_trans k k' (fst y) Hlt).
      exact (proj1 (Forall_forall _ _) Hall y Hy).
Qed.

Lemma sort_by_key_sorted l : NoDup (map fst l) -> sorted_by_key (sort_by_key l).
Proof.
  induction l as [|[k x] l IH]; intros Hnd; [exact I|].
  cbn [map fst] in Hnd. apply NoDup_cons_iff in Hnd as [Hk Hnd].
  unfold sort_by_key in *. cbn [fold_right fst snd].
  apply insert_sorted_sorted; [apply IH, Hnd|].
  intros Hin. apply Hk. apply in_map_iff in Hin as (y & <- & Hy).
  apply in_map, (sort_by_key_In l y), Hy.
Qed.

(** Two sorted lists with the same entries are the same list. *)
Lemma sorted_by_key_ext l1 l2 :
  sorted_by_key l1 -> sorted_by_key l2 ->
  (forall y, In y l1 <-> In y l2) -> l1 = l2.
Proof.
  revert l2. induction l1 as [|a l1 IH]; intros [|b l2] Hs1 Hs2 Hin.
  - reflexivity.
  - exfalso. apply (proj2 (Hin b)). left. reflexivity.
  - exfalso. apply (proj1 (Hin a)). left. reflexivity.
  - cbn [sorted_by_key] in Hs1, Hs2. destruct Hs1 as [Ha Hs1], Hs2 as [Hb Hs2].
    pose proof (proj1 (Forall_forall _ _) Ha) as Ha'.
    pose proof (proj1 (Forall_forall _ _) Hb) as Hb'.
    assert (Hab : a = b).
    { destruct (proj1 (Hin a) (or_introl eq_refl)) as [Hba|Hal2]; [symmetry; exact Hba|].
      destruct (proj2 (Hin b) (or_introl eq_refl)) as [Hab|Hbl1]; [exact Hab|].
      exfalso. pose proof (bytes_ltb_trans _ _ _ (Ha' b Hbl1) (Hb' a Hal2)) as Hc.
      rewrite bytes_ltb_irrefl in Hc. discriminate. }
    subst b. f_equal. apply IH; [assumption | assumption |].
    intros y. split; intros Hy.
    + destruct (proj1 (Hin y) (or_intror Hy)) as [Hay|Hy2]; [|exact Hy2].
      exfalso. subst y. pose proof (Ha' a Hy) as Hc. cbv beta in Hc.
      rewrite bytes_ltb_irrefl in Hc. discriminate.
    + destruct (proj2 (Hin y) (or_intror Hy)) as [Hay|Hy1]; [|exact Hy1].
      exfalso. subst y. pose proof (Hb' a Hy) as Hc. cbv beta in Hc.
      rewrite bytes_ltb_irrefl in Hc. discriminate.
Qed.

(** Sorting forgets the order of entries with distinct keys. *)
Lemma sort_by_key_ext l1 l2 :
  NoDup (map fst l1) -> NoDup (map fst l2) ->
  (forall y, In y l1 <-> In y l2) -> sort_by_key l1 = sort_by_key l2.
Proof.
  intros H1 H2 Hin. apply sorted_by_key_ext; try (apply sort_by_key_sorted; assumption).
  intros y. rewrite !sort_by_key_In. apply Hin.
Qed.

End Sorting.

(* ------------------------------------------------------------------ *)
(** ** Documents with the same structure have the same encoding *)














(* ------------------------------------------------------------------ *)
(** ** [policiesSemanticallyEqual] ([policy_json.go], lines 22-30) *)







(** Documents that differ in a value the decoder tells apart compare
    different. *)
Example policies_differing_value : policiesSemanticallyEqual "[1, 2]" "[1, 3]" = false.
Proof. vm_compute. reflexivity. Qed.

(** C4: for all strings A and B of which at least one is not decoded by
    [json.Unmarshal], [policiesSemanticallyEqual] returns whether the two
    strings are equal once the white space around them is trimmed. The
    function is total: it has a boolean result for every pair of strings. *)
Theorem policiesSemanticallyEqual_fallback (a b : string) :
  json_Unmarshal (list_ascii_of_string a) = None
  \/ json_Unmarshal (list_ascii_of_string b) = None ->
  policiesSemanticallyEqual a b = String.eqb (strings_TrimSpace a) (strings_TrimSpace b).
Proof.
  unfold policiesSemanticallyEqual, normalizeJSONString. intros [Ha|Hb].
  - rewrite Ha. reflexivity.
  - rewrite Hb. destruct (json_Unmarshal (list_ascii_of_string a)) as [va|]; [|reflexivity].
    destruct (json_Marshal va); reflexivity.
Qed.

(** The example of the specification: ["  x  "] and ["x"] are not JSON,
    and compare equal once trimmed. *)
Lemma policiesSemanticallyEqual_fallback_witness :
  json_Unmarshal (list_ascii_of_string "  x  ") = None
  /\ policiesSemanticallyEqual "  x  " "x" = true.
Proof.
  split; [reflexivity|].
  rewrite (policiesSemanticallyEqual_fallback "  x  " "x"); [reflexivity|].
  left. reflexivity.
Defined.

(** A number out of the range of [float64] is an error of the decoder, so
    two texts that differ in white space only then compare different. *)
Example policies_out_of_range : policiesSemanticallyEqual "[1e999, 1]" "[1e999,1]" = false.
Proof. vm_compute. reflexivity. Qed.

(* ------------------------------------------------------------------ *)
(** ** The retry engine, for every operation and every context *)

(** Whatever the operation and the context do, [fn] is invoked at least
    once and at most [max n 1] times, and the engine waits exactly once
    between two invocations. *)
Theorem retry_invocations_bounded {S : Type} (ctx : Z -> option error)
    (fn : S -> option error * S) (n : Z) (s : S) :
  let r := retryIAMEventuallyConsistent ctx fn n s in
  (1 <= invocations r <= Z.to_nat (Z.max n 1))%nat
  /\ invocations r = (length (waits r) + 1)%nat
  /\ final r = state_before fn (invocations r) s.
Proof.
  cbv zeta. destruct (retry_run ctx fn n s) as (k & Hk & Hinv & Hfin & Hw & _).
  rewrite Hinv, Hw, length_map, length_seq, Hfin. repeat split; lia.
Qed.

(** The waits of every run are the backoff schedule: after the failed
    attempt [i] the engine waits [min (200ms * 2^i) 2s]; no wait is shorter
    than 200ms or longer than 2s. *)
Theorem retry_backoff_schedule {S : Type} (ctx : Z -> option error)
    (fn : S -> option error * S) (n : Z) (s : S) :
  let r := retryIAMEventuallyConsistent ctx fn n s in
  waits r = map backoff_delay (seq 0 (invocations r - 1))
  /\ Forall (fun w => 200 * Millisecond <= w <= 2 * Second)%Z (waits r).
Proof.
  cbv zeta. destruct (retry_run ctx fn n s) as (k & Hk & Hinv & Hfin & Hw & _).
  rewrite Hinv, Hw. replace (k + 1 - 1)%nat with k by lia. split; [reflexivity|].
  apply Forall_forall. intros w Hin. apply in_map_iff in Hin as (j & <- & _).
  unfold backoff_delay, Millisecond, Second.
  assert (Hpos : (0 < 2 ^ Z.of_nat j)%Z) by (apply Z.pow_pos_nonneg; lia).
  lia.
Qed.

(** What the engine returns: nil exactly when the last invocation of [fn]
    returned nil; otherwise the error of that invocation or, when the
    context was done during the wait after it, the error of the context; a
    retryable error of [fn] is returned only when the budget is exhausted.
    Every invocation before the last one failed with a retryable error. *)
Theorem retry_result {S : Type} (ctx : Z -> option error)
    (fn : S -> option error * S) (n : Z) (s : S) :
  let r := retryIAMEventuallyConsistent ctx fn n s in
  let last := (invocations r - 1)%nat in
  (returned r = None <-> outcome fn last s = None)
  /\ (forall e, returned r = Some e ->
                (outcome fn last s = Some e
                 /\ (isRetryableIAMError (Some e) = true ->
                     invocations r = Z.to_nat (Z.max n 1)))
                \/ (ctx (Z.of_nat last) = Some e
                    /\ (invocations r < Z.to_nat (Z.max n 1))%nat))
  /\ (forall j, (j < last)%nat -> fails_retryable fn j s).
Proof.
  cbv zeta. destruct (retry_run ctx fn n s) as (k & Hk & Hinv & Hfin & Hw & Hbefore & Hret).
  rewrite Hinv. replace (k + 1 - 1)%nat with k by lia. split; [|split].
  - destruct Hret as [(Hr & _)|((e0 & He0 & _) & _ & e & _ & Hr)].
    + rewrite Hr. reflexivity.
    + rewrite Hr, He0. split; discriminate.
  - intros e Hr. destruct Hret as [(Hr' & Hwhy)|(_ & Hlt & e' & He' & Hr')].
    + left. rewrite Hr' in Hr. split; [exact Hr|]. intros Hre.
      rewrite Hr in Hwhy. destruct Hwhy as [?|[?|?]]; [discriminate | congruence | lia].
    + right. rewrite Hr' in Hr. injection Hr as <-. split; [exact He' | lia].
  - intros j Hj. apply Hbefore. exact Hj.
Qed.

(** An error that is not retryable ends the run wherever it occurs: when
    [fn] fails with retryable errors [k] times and then with an error that
    is not retryable, within the budget and with the context not done
    during the [k] waits, the engine returns that error after [k + 1]
    invocations. *)
Theorem retry_stops_at_permanent_error {S : Type} (ctx : Z -> option error)
    (fn : S -> option error * S) (n : Z) (s : S) (k : nat) (e : error) :
  (forall j, (j < k)%nat -> fails_retryable fn j s) ->
  outcome fn k s = Some e ->
  isRetryableIAMError (Some e) = false ->
  (Z.of_nat k + 1 <= Z.max n 1)%Z ->
  (forall i, (0 <= i < Z.of_nat k)%Z -> ctx i = None) ->
  let r := retryIAMEventuallyConsistent ctx fn n s in
  returned r = Some e /\ invocations r = (k + 1)%nat.
Proof.
  intros Hfail He Hnr Hbudget Hctx. cbv zeta.
  destruct (retry_run ctx fn n s) as (k' & Hk & Hinv & Hfin & Hw & Hbefore & Hret).
  assert (Hkk : k' = k).
  { destruct (Nat.lt_trichotomy k' k) as [Hlt|[Heq|Hgt]]; [|exact Heq|].
    - exfalso. destruct (Hfail k' Hlt) as (e' & He' & Hre').
      destruct Hret as [(_ & Hwhy)|(_ & _ & e'' & He'' & _)].
      + rewrite He' in Hwhy. destruct Hwhy as [?|[?|?]]; [discriminate | congruence | lia].
      + rewrite Hctx in He'' by lia. discriminate.
    - exfalso. destruct (Hbefore k Hgt) as [(e' & He' & Hre') _]. congruence. }
  subst k'. split; [|exact Hinv].
  destruct Hret as [(Hr & _)|((e' & He' & Hre') & _)]; congruence.
Qed.

Lemma retry_stops_at_permanent_error_witness :
  let r := retryIAMEventuallyConsistent context_Background fails_then_denied 5 0%nat in
  returned r = Some denied /\ invocations r = 3%nat.
Proof.
  apply (retry_stops_at_permanent_error context_Background fails_then_denied 5 0%nat 2%nat
           denied).
  - intros j Hj. exists temporary.
    destruct j as [|[|j]]; [split; reflexivity | split; reflexivity | lia].
  - reflexivity.
  - reflexivity.
  - lia.
  - intros i Hi. reflexivity.
Defined.

(** A context that is done during a wait ends the run there: when [fn]
    fails with retryable errors on its first [k + 1] invocations, with
    budget left, and the context is done for the first time during the wait
    after invocation [k], the engine returns the error of the context after
    [k + 1] invocations. *)
Theorem retry_stops_when_context_done {S : Type} (ctx : Z -> option error)
    (fn : S -> option error * S) (n : Z) (s : S) (k : nat) (e : error) :
  (forall j, (j <= k)%nat -> fails_retryable fn j s) ->
  (Z.of_nat k + 1 < Z.max n 1)%Z ->
  (forall i, (0 <= i < Z.of_nat k)%Z -> ctx i = None) ->
  ctx (Z.of_nat k) = Some e ->
  let r := retryIAMEventuallyConsistent ctx fn n s in
  returned r = Some e /\ invocations r = (k + 1)%nat.
Proof.
  intros Hfail Hbudget Hctx Hdone. cbv zeta.
  destruct (retry_run ctx fn n s) as (k' & Hk & Hinv & Hfin & Hw & Hbefore & Hret).
  assert (Hkk : k' = k).
  { destruct (Nat.lt_trichotomy k' k) as [Hlt|[Heq|Hgt]]; [|exact Heq|].
    - exfalso. destruct (Hfail k' ltac:(lia)) as (e' & He' & Hre').
      destruct Hret as [(_ & Hwhy)|(_ & _ & e'' & He'' & _)].
      + rewrite He' in Hwhy. destruct Hwhy as [?|[?|?]]; [discriminate | congruence | lia].
      + rewrite Hctx in He'' by lia. discriminate.
    - exfalso. destruct (Hbefore k Hgt) as [_ Hnone]. congruence. }
  subst k'. split; [|exact Hinv].
  destruct (Hfail k ltac:(lia)) as (e' & He' & Hre').
  destruct Hret as [(_ & Hwhy)|(_ & _ & e'' & He'' & Hr)].
  - exfalso. rewrite He' in Hwhy. destruct Hwhy as [?|[?|?]]; [discriminate | congruence | lia].
  - congruence.
Qed.

Lemma retry_stops_when_context_done_witness :
  let r := retryIAMEventuallyConsistent (context_done_at 1) always_ServiceFailure 5 tt in
  returned r = Some context_Canceled /\ invocations r = 2%nat.
Proof.
  apply (retry_stops_when_context_done (context_done_at 1) always_ServiceFailure 5 tt 1%nat
           context_Canceled).
  - intros j Hj. exists temporary. split; reflexivity.
  - lia.
  - intros i Hi. unfold context_done_at. destruct (Z.ltb_spec i 1); [reflexivity | lia].
  - reflexivity.
Defined.

(* ------------------------------------------------------------------ *)
(** ** Escaping and unescaping *)

Lemma escaped_digits (c : ascii) :
  ishex (upperhex (Z.shiftr (byte_val c) 4)) = true
  /\ ishex (upperhex (Z.land (byte_val c) 15)) = true
  /\ byte_of (Z.lor (Z.shiftl (unhex (upperhex (Z.shiftr (byte_val c) 4))) 4)
                    (unhex (upperhex (Z.land (byte_val c) 15)))) = c.
Proof.
  destruct c as [[] [] [] [] [] [] [] []]; vm_compute; repeat split.
Qed.

Lemma kept_byte (c : ascii) :
  shouldEscape c = false -> Ascii.eqb c "%" = false /\ Ascii.eqb c "+" = false
                            /\ Ascii.eqb c " " = false.
Proof.
  destruct c as [[] [] [] [] [] [] [] []]; vm_compute; intros H;
    try discriminate H; repeat split.
Qed.

Lemma space_escaped : shouldEscape " " = true.
Proof. reflexivity. Qed.

Lemma unescape_escape_bytes (s : list ascii) :
  unescape_check (escape_bytes s) = None /\ unescape_decode (escape_bytes s) = s.
Proof.
  induction s as [|c s [IHc IHd]]; [split; reflexivity|].
  cbn [escape_bytes]. destruct (Ascii.eqb_spec c " ") as [->|Hsp].
  - cbn [unescape_check unescape_decode]. cbn [Ascii.eqb Bool.eqb].
    rewrite IHc, IHd. split; reflexivity.
  - destruct (shouldEscape c) eqn:Ec.
    + destruct (escaped_digits c) as (H1 & H2 & H3).
      cbn [unescape_check unescape_decode]. cbn [Ascii.eqb Bool.eqb].
      rewrite H1, H2, H3, IHc, IHd. split; reflexivity.
    + destruct (kept_byte c Ec) as (Hp & Hplus & _).
      cbn [unescape_check unescape_decode]. rewrite Hp, Hplus, IHc, IHd.
      split; reflexivity.
Qed.

Lemma filter_nil_forall {A : Type} (f : A -> bool) (l : list A) :
  length (List.filter f l) = 0%nat -> forall x, In x l -> f x = false.
Proof.
  induction l as [|a l IH]; cbn [List.filter]; intros H x Hx; [destruct Hx|].
  destruct (f a) eqn:Ea; [discriminate H|].
  destruct Hx as [<-|Hx]; [exact Ea | exact (IH H x Hx)].
Qed.

Lemma escape_bytes_spaces (l : list ascii) :
  (forall x, In x l -> (shouldEscape x && negb (Ascii.eqb x " "))%bool = false) ->
  escape_bytes l = map (fun c => if Ascii.eqb c " " then "+"%char else c) l.
Proof.
  induction l as [|c l IH]; intros Hhex; [reflexivity|].
  cbn [escape_bytes map]. rewrite IH by (intros x Hx; apply Hhex; right; exact Hx).
  destruct (Ascii.eqb c " ") eqn:Esp; [reflexivity|].
  specialize (Hhex c (or_introl eq_refl)). rewrite Esp in Hhex.
  cbn [negb] in Hhex. rewrite Bool.andb_true_r in Hhex. rewrite Hhex. reflexivity.
Qed.

Lemma no_spaces_map (l : list ascii) :
  (forall x, In x l -> (shouldEscape x && Ascii.eqb x " ")%bool = false) ->
  map (fun c => if Ascii.eqb c " " then "+"%char else c) l = l.
Proof.
  induction l as [|c l IH]; intros Hspace; [reflexivity|].
  cbn [map]. rewrite IH by (intros x Hx; apply Hspace; right; exact Hx).
  destruct (Ascii.eqb_spec c " ") as [->|Hc]; [|reflexivity].
  specialize (Hspace " "%char (or_introl eq_refl)). discriminate Hspace.
Qed.

(** The three paths of [escape] give what its last loop gives. *)
Lemma url_QueryEscape_bytes (s : string) :
  url_QueryEscape s = string_of_list_ascii (escape_bytes (list_ascii_of_string s)).
Proof.
  unfold url_QueryEscape.
  destruct (Nat.eqb_spec (hexCount (list_ascii_of_string s)) 0) as [Hh|Hh];
    [|rewrite Bool.andb_false_r; reflexivity].
  rewrite (escape_bytes_spaces _ (filter_nil_forall _ _ Hh)).
  destruct (Nat.eqb_spec (spaceCount (list_ascii_of_string s)) 0) as [Hs|Hs];
    cbn [andb]; [|reflexivity].
  rewrite (no_spaces_map _ (filter_nil_forall _ _ Hs)).
  symmetry. apply string_of_list_ascii_of_string.
Qed.

Lemma unescape_escaped (s : string) : url_QueryUnescape (url_QueryEscape s) = Ok s.
Proof.
  rewrite url_QueryEscape_bytes. unfold url_QueryUnescape.
  rewrite list_ascii_of_string_of_list_ascii.
  destruct (unescape_escape_bytes (list_ascii_of_string s)) as [-> ->].
  rewrite string_of_list_ascii_of_string. reflexivity.
Qed.

Lemma escaped_alphabet (l : list ascii) (c : ascii) :
  In c (escape_bytes l) -> shouldEscape c = false \/ c = "+"%char \/ c = "%"%char.
Proof.
  induction l as [|x l IH]; [intros []|].
  cbn [escape_bytes]. destruct (Ascii.eqb x " ").
  - intros [<-|H]; [right; left; reflexivity | exact (IH H)].
  - destruct (shouldEscape x) eqn:Ex.
    + intros [<-|[<-|[<-|H]]]; [right; right; reflexivity | | | exact (IH H)].
      * left. clear. destruct x as [[] [] [] [] [] [] [] []]; reflexivity.
      * left. clear. destruct x as [[] [] [] [] [] [] [] []]; reflexivity.
    + intros [<-|H]; [left; exact Ex | exact (IH H)].
Qed.

(** [QueryUnescape] undoes [QueryEscape], for every string; and an escaped
    string holds letters, digits, the four marks, ['+'] and ['%'] only, so
    nothing that separates the fields of a form. *)
Theorem url_QueryEscape_round_trip (s : string) :
  url_QueryUnescape (url_QueryEscape s) = Ok s
  /\ forall c, In c (list_ascii_of_string (url_QueryEscape s)) ->
               shouldEscape c = false \/ c = "+"%char \/ c = "%"%char.
Proof.
  split; [apply unescape_escaped|].
  rewrite url_QueryEscape_bytes, list_ascii_of_string_of_list_ascii.
  apply escaped_alphabet.
Qed.

(** When the server returns the policy document escaped as the form value
    was that [PutUserPolicy] sent, [GetUserPolicy] returns the document
    itself. *)
Theorem GetUserPolicy_round_trip
    (doIAMAction : gmap string (list string) -> result getUserPolicyResponse)
    (userName policyName document : string) (out : getUserPolicyResponse) :
  doIAMAction (GetUserPolicy_form userName policyName) = Ok out ->
  resp_PolicyDocument out = url_QueryEscape document ->
  GetUserPolicy doIAMAction userName policyName = (document, None).
Proof.
  intros Hout Hdoc. unfold GetUserPolicy. unfold GetUserPolicy_form in Hout.
  rewrite Hout, Hdoc, unescape_escaped. reflexivity.
Qed.

Lemma GetUserPolicy_round_trip_witness :
  GetUserPolicy (escaped_reply "alice" "p1" "{ a: [1, 2] } + 100%") "alice" "p1"
  = ("{ a: [1, 2] } + 100%"%string, None).
Proof.
  apply (GetUserPolicy_round_trip _ "alice" "p1" "{ a: [1, 2] } + 100%"
           (GetUserPolicyResponse "alice" "p1" (url_QueryEscape "{ a: [1, 2] } + 100%")));
    reflexivity.
Defined.

Lemma percent_not_hex : ishex "%" = false.
Proof. reflexivity. Qed.

Lemma unescape_check_stray (n : nat) :
  forall s, (length s <= n)%nat ->
            (exists bad, unescape_check s = Some bad) <-> exists i, stray_percent s i.
Proof.
  induction n as [|n IH]; intros s Hlen.
  - destruct s; [|cbn in Hlen; lia]. split.
    + intros [bad H]. discriminate H.
    + intros [i [H _]]. destruct i; discriminate H.
  - destruct s as [|c r].
    { split; [intros [bad H]; discriminate H | intros [i [H _]]; destruct i; discriminate H]. }
    cbn [length] in Hlen. cbn [unescape_check].
    destruct (Ascii.eqb_spec c "%") as [->|Hc].
    + destruct r as [|h1 [|h2 r']].
      * split; [intros _|eexists; reflexivity]. exists 0%nat. split; [reflexivity|].
        intros (h1 & h2 & H1 & _). discriminate H1.
      * split; [intros _|eexists; reflexivity]. exists 0%nat. split; [reflexivity|].
        intros (x1 & x2 & _ & H2 & _). discriminate H2.
      * destruct (ishex h1 && ishex h2)%bool eqn:Eh.
        -- apply andb_prop in Eh as [Eh1 Eh2]. cbn [length] in Hlen.
           rewrite (IH r') by lia. split.
           ++ intros [i [Hi Hn]]. exists (Datatypes.S (Datatypes.S (Datatypes.S i))).
              split; [exact Hi|]. exact Hn.
           ++ intros [i [Hi Hn]]. destruct i as [|[|[|i]]].
              ** exfalso. apply Hn. exists h1, h2. auto.
              ** exfalso. cbn in Hi. injection Hi as ->. rewrite percent_not_hex in Eh1.
                 discriminate.
              ** exfalso. cbn in Hi. injection Hi as ->. rewrite percent_not_hex in Eh2.
                 discriminate.
              ** exists i. split; [exact Hi | exact Hn].
        -- split; [intros _|eexists; reflexivity]. exists 0%nat. split; [reflexivity|].
           intros (x1 & x2 & H1 & H2 & Hx1 & Hx2). cbn in H1, H2.
           injection H1 as <-. injection H2 as <-. rewrite Hx1, Hx2 in Eh. discriminate.
    + rewrite (IH r) by lia. split.
      * intros [i [Hi Hn]]. exists (Datatypes.S i). split; [exact Hi | exact Hn].
      * intros [i [Hi Hn]]. destruct i as [|i].
        -- cbn in Hi. congruence.
        -- exists i. split; [exact Hi | exact Hn].
Qed.

(** [QueryUnescape] fails exactly when some ['%'] of the string is not
    followed by two hexadecimal digits; [GetUserPolicy] then returns the
    document as the server sent it: a call whose action succeeds with a
    policy document that has such a ['%'] returns that document, and no
    error. *)
Theorem url_QueryUnescape_fails_iff (s : string) :
  (is_Fail (url_QueryUnescape s) = true
   <-> exists i, stray_percent (list_ascii_of_string s) i)
  /\ (forall (doIAMAction : gmap string (list string) -> result getUserPolicyResponse)
             (userName policyName : string) (out : getUserPolicyResponse),
         doIAMAction (GetUserPolicy_form userName policyName) = Ok out ->
         resp_PolicyDocument out = s ->
         (exists i, stray_percent (list_ascii_of_string s) i) ->
         GetUserPolicy doIAMAction userName policyName = (s, None)).
Proof.
  assert (Hiff : is_Fail (url_QueryUnescape s) = true
                 <-> exists i, stray_percent (list_ascii_of_string s) i).
  { rewrite <- (unescape_check_stray (length (list_ascii_of_string s)) _ (le_n _)).
    unfold url_QueryUnescape. destruct (unescape_check (list_ascii_of_string s)) as [bad|].
    - split; [intros _; eexists; reflexivity | reflexivity].
    - split; [discriminate | intros [bad H]; discriminate H]. }
  split; [exact Hiff|].
  intros doIAMAction userName policyName out Hout Hdoc Hstray.
  apply Hiff in Hstray. unfold GetUserPolicy.
  fold (GetUserPolicy_form userName policyName). rewrite Hout, Hdoc.
  destruct (url_QueryUnescape s) as [decoded|err]; [discriminate Hstray | reflexivity].
Qed.

(** A policy document that ends in a ['%'] comes back as it was sent. *)
Lemma url_QueryUnescape_fails_iff_witness :
  GetUserPolicy (fun _ => Ok (GetUserPolicyResponse "alice" "p1" "up to 100%")) "alice" "p1"
  = ("up to 100%"%string, None).
Proof.
  apply (proj2 (url_QueryUnescape_fails_iff "up to 100%")
           (fun _ => Ok (GetUserPolicyResponse "alice" "p1" "up to 100%")) "alice" "p1"
           (GetUserPolicyResponse "alice" "p1" "up to 100%")).
  - reflexivity.
  - reflexivity.
  - exists 9%nat. split; [reflexivity|].
    intros (h1 & h2 & H1 & _). discriminate H1.
Defined.

Lemma unescape_without_percent (l : list ascii) :
  ~ In "%"%char l ->
  unescape_check l = None
  /\ unescape_decode l = map (fun c => if Ascii.eqb c "+" then " "%char else c) l.
Proof.
  induction l as [|c l IH]; intros Hp; [split; reflexivity|].
  cbn [unescape_check unescape_decode map].
  destruct (Ascii.eqb_spec c "%") as [->|_]; [exfalso; apply Hp; left; reflexivity|].
  destruct IH as [-> ->]; [intros H; apply Hp; right; exact H|].
  destruct (Ascii.eqb c "+"); split; reflexivity.
Qed.

(** A policy document that the server sends unescaped, without any ['%'],
    comes out of [GetUserPolicy] with every ['+'] turned into a space, and
    unchanged otherwise. *)
Theorem GetUserPolicy_plus_becomes_space
    (doIAMAction : gmap string (list string) -> result getUserPolicyResponse)
    (userName policyName : string) (out : getUserPolicyResponse) :
  doIAMAction (GetUserPolicy_form userName policyName) = Ok out ->
  ~ In "%"%char (list_ascii_of_string (resp_PolicyDocument out)) ->
  GetUserPolicy doIAMAction userName policyName
  = (string_of_list_ascii
       (map (fun c => if Ascii.eqb c "+" then " "%char else c)
            (list_ascii_of_string (resp_PolicyDocument out))),
     None).
Proof.
  intros Hout Hp. unfold GetUserPolicy. unfold GetUserPolicy_form in Hout.
  rewrite Hout. unfold url_QueryUnescape.
  destruct (unescape_without_percent _ Hp) as [-> ->]. reflexivity.
Qed.

Lemma GetUserPolicy_plus_becomes_space_witness :
  GetUserPolicy (fun _ => Ok (GetUserPolicyResponse "alice" "p1" "{ prefix: a+b }"))
                "alice" "p1"
  = ("{ prefix: a b }"%string, None).
Proof.
  apply (GetUserPolicy_plus_becomes_space _ "alice" "p1"
           (GetUserPolicyResponse "alice" "p1" "{ prefix: a+b }")).
  - reflexivity.
  - cbn. intros H. repeat (destruct H as [H|H]; [discriminate H|]). exact H.
Defined.

(* ------------------------------------------------------------------ *)
(** ** Error bodies, codes and classes *)

Lemma itoa_inj (a b : Z) : itoa a = itoa b -> a = b.
Proof.
  unfold itoa. intros H.
  assert (Hnn : forall z, Z.to_int z <> Decimal.Pos Decimal.Nil
                          /\ Z.to_int z <> Decimal.Neg Decimal.Nil).
  { intros [|p|p]; cbn; split; try discriminate; intros [= Hp];
      exact (DecimalPos.Unsigned.to_uint_nonnil p Hp). }
  pose proof (NilZero.isi (Z.to_int a) (proj1 (Hnn a)) (proj2 (Hnn a))) as Ha.
  pose proof (NilZero.isi (Z.to_int b) (proj1 (Hnn b)) (proj2 (Hnn b))) as Hb.
  rewrite H, Hb in Ha. injection Ha as Ha. apply DecimalZ.to_int_inj. symmetry. exact Ha.
Qed.

Lemma first_nonempty_last (l : list string) (s : string) :
  s <> ""%string -> first_nonempty (l ++ [s]) <> ""%string.
Proof.
  intros Hs. induction l as [|x l IH]; cbn [app first_nonempty].
  - destruct (String.eqb_spec s ""); [contradiction | exact Hs].
  - destruct (String.eqb_spec x ""); [exact IH | assumption].
Qed.

(** What [parseAPIError] returns when the body is decoded: the code is the
    first non-empty one of the code of the nested [Error] element, the code
    at the top level, the code of the body read as a bare error element and
    ["HTTP<status>"]; the message likewise, ending with the trimmed body. *)
Lemma parseAPIError_decoded_envelope
      (xml_envelope : list ascii -> option iamErrorEnvelope)
      (xml_direct : list ascii -> option iamAPIError)
      (status : Z) (data : list ascii) (envelope : iamErrorEnvelope) :
  xml_envelope data = Some envelope ->
  let direct := match xml_direct data with
                | Some direct => direct
                | None => IamAPIError "" ""
                end in
  parseAPIError xml_envelope xml_direct status data
  = ErrIAM {| Code := first_nonempty [api_Code (env_Error envelope); env_Code envelope;
                                      api_Code direct; ("HTTP" ++ itoa status)%string];
              Message := first_nonempty [api_Message (env_Error envelope);
                                         env_Message envelope; api_Message direct;
                                         strings_TrimSpace (string_of_list_ascii data)] |}.
Proof.
  intros Henv. cbv zeta. unfold parseAPIError, synthetic. rewrite Henv.
  set (t := strings_TrimSpace (string_of_list_ascii data)).
  set (h := ("HTTP" ++ itoa status)%string).
  assert (Hh : String.eqb h "" = false) by reflexivity.
  clearbody t h.
  destruct envelope as [ecode emsg [ncode nmsg]].
  cbn [env_Error env_Code env_Message api_Code api_Message].
  assert (Hcase : forall x : string, x = ""%string \/ String.eqb x "" = false).
  { intros x. destruct (String.eqb_spec x ""); [left; assumption | right; reflexivity]. }
  destruct (xml_direct data) as [[dcode dmsg]|]; cbn [api_Code api_Message];
    [destruct (Hcase dcode) as [->|Hdc], (Hcase dmsg) as [->|Hdm]|];
    destruct (Hcase ncode) as [->|Hnc], (Hcase nmsg) as [->|Hnm],
      (Hcase ecode) as [->|Hec], (Hcase emsg) as [->|Hem], (Hcase t) as [->|Ht];
    repeat (cbn [first_nonempty orb negb andb String.eqb Code Message];
            rewrite ?Hdc, ?Hdm, ?Hnc, ?Hnm, ?Hec, ?Hem, ?Ht, ?Hh);
    reflexivity.
Qed.


Lemma parseAPIError_undecoded
      (xml_envelope : list ascii -> option iamErrorEnvelope)
      (xml_direct : list ascii -> option iamAPIError)
      (status : Z) (data : list ascii) :
  nothing_decoded xml_envelope xml_direct data ->
  parseAPIError xml_envelope xml_direct status data = ErrIAM (synthetic status data).
Proof.
  unfold nothing_decoded, parseAPIError.
  destruct (xml_envelope data) as [[ecode emsg [ncode nmsg]]|]; [|reflexivity].
  cbn [env_Error env_Code env_Message api_Code api_Message].
  intros (-> & -> & -> & -> & Hd). cbn.
  destruct (xml_direct data) as [[dcode dmsg]|]; [|reflexivity].
  cbn in Hd. destruct Hd as [-> ->]. reflexivity.
Qed.

(** The precedence of [parseAPIError]: when the decoder rejects the body,
    the synthetic error; otherwise the code is the first non-empty one of
    the code of the nested [Error] element, the code at the top level, the
    code of the body read as a bare error element and ["HTTP<status>"], and
    the message likewise, ending with the trimmed body. *)
Theorem parseAPIError_precedence
    (xml_envelope : list ascii -> option iamErrorEnvelope)
    (xml_direct : list ascii -> option iamAPIError)
    (status : Z) (data : list ascii) :
  parseAPIError xml_envelope xml_direct status data
  = ErrIAM
      match xml_envelope data with
      | None => synthetic status data
      | Some envelope =>
          let direct := match xml_direct data with
                        | Some direct => direct
                        | None => IamAPIError "" ""
                        end in
          {| Code := first_nonempty [api_Code (env_Error envelope); env_Code envelope;
                                     api_Code direct; ("HTTP" ++ itoa status)%string];
             Message := first_nonempty [api_Message (env_Error envelope);
                                        env_Message envelope; api_Message direct;
                                        strings_TrimSpace (string_of_list_ascii data)] |}
      end.
Proof.
  destruct (xml_envelope data) as [envelope|] eqn:Henv.
  - apply parseAPIError_decoded_envelope, Henv.
  - unfold parseAPIError. rewrite Henv. reflexivity.
Qed.

(** [parseAPIError] always returns an [iamError] with a code, so its text
    is never ["unknown IAM error"]: it is the code, a colon and the
    message. *)
Theorem parseAPIError_has_code
    (xml_envelope : list ascii -> option iamErrorEnvelope)
    (xml_direct : list ascii -> option iamAPIError)
    (status : Z) (data : list ascii) :
  exists e,
    parseAPIError xml_envelope xml_direct status data = ErrIAM e
    /\ Code e <> ""%string
    /\ iamError_Error e = (Code e ++ ": " ++ Message e)%string.
Proof.
  assert (Htext : forall e, Code e <> ""%string ->
                            iamError_Error e = (Code e ++ ": " ++ Message e)%string).
  { intros e He. unfold iamError_Error.
    destruct (String.eqb_spec (Code e) ""); [contradiction | reflexivity]. }
  destruct (xml_envelope data) as [envelope|] eqn:Henv.
  - eexists. split; [apply (parseAPIError_decoded_envelope _ _ _ _ _ Henv)|].
    cbv zeta. cbn [Code].
    assert (Hc : forall a b c, first_nonempty [a; b; c; ("HTTP" ++ itoa status)%string]
                               <> ""%string).
    { intros a b c. apply (first_nonempty_last [a; b; c]). discriminate. }
    split; [apply Hc | apply Htext, Hc].
  - exists (synthetic status data). unfold parseAPIError. rewrite Henv.
    split; [reflexivity|]. split; [discriminate | apply Htext; discriminate].
Qed.

Lemma HTTP_code_eqb (status : Z) (digits : string) :
  String.eqb ("HTTP" ++ itoa status) ("HTTP" ++ digits) = true <-> itoa status = digits.
Proof.
  rewrite String.eqb_eq. split; [intros [= H]; exact H | intros ->; reflexivity].
Qed.

(** A response whose body carries neither a code nor a message is classed
    by its status alone: it is retryable exactly for the statuses 500 and
    503, and it is never a not-found or an already-exists error, whatever
    the status (404 and 409 included). *)
Theorem parseAPIError_undecoded_class
    (xml_envelope : list ascii -> option iamErrorEnvelope)
    (xml_direct : list ascii -> option iamAPIError)
    (status : Z) (data : list ascii) :
  nothing_decoded xml_envelope xml_direct data ->
  let err := Some (parseAPIError xml_envelope xml_direct status data) in
  (isRetryableIAMError err = true <-> status = 500%Z \/ status = 503%Z)
  /\ isNoSuchEntityError err = false
  /\ isNoSuchBucketError err = false
  /\ isEntityAlreadyExistsError err = false
  /\ isBucketAlreadyExistsError err = false.
Proof.
  intros Hnd. cbv zeta. rewrite (parseAPIError_undecoded _ _ status data Hnd).
  unfold isRetryableIAMError, isServiceFailureError, isNoSuchEntityError,
    isNoSuchBucketError, isEntityAlreadyExistsError, isBucketAlreadyExistsError.
  cbn [errors_As as_iamError synthetic Code].
  split; [|repeat split; reflexivity].
  change (String.eqb ("HTTP" ++ itoa status) "NoSuchEntity") with false.
  change (String.eqb ("HTTP" ++ itoa status) "ServiceFailure") with false.
  cbn [orb].
  change "HTTP500"%string with ("HTTP" ++ "500")%string.
  change "HTTP503"%string with ("HTTP" ++ "503")%string.
  rewrite Bool.orb_true_iff, !HTTP_code_eqb.
  change "500"%string with (itoa 500). change "503"%string with (itoa 503).
  split; (intros [H|H]; [left | right]); first [apply itoa_inj; exact H | rewrite H; reflexivity].
Qed.

Lemma parseAPIError_undecoded_class_witness :
  isRetryableIAMError
    (Some (parseAPIError sample_xml_envelope sample_xml_direct 503 sample_body_text)) = true
  /\ isNoSuchBucketError
       (Some (parseAPIError sample_xml_envelope sample_xml_direct 404 [])) = false.
Proof.
  split.
  - apply (parseAPIError_undecoded_class sample_xml_envelope sample_xml_direct 503
             sample_body_text); [vm_compute; exact I | right; reflexivity].
  - apply (parseAPIError_undecoded_class sample_xml_envelope sample_xml_direct 404 []).
    vm_compute. exact I.
Defined.

(* ------------------------------------------------------------------ *)
(** ** The bucket resource *)

(** When the server answers [HeadBucket] with an error status and a body
    that carries neither a code nor a message (a reply to [HEAD] has no
    body), [Read] does not remove the bucket from the state, whatever the
    status: it fails with ["HTTP<status>: <trimmed body>"]. *)
Theorem bucket_Read_undecoded
    (xml_envelope : list ascii -> option iamErrorEnvelope)
    (xml_direct : list ascii -> option iamAPIError)
    (network : request -> exchange) (client : iamClient)
    (state : bucketResourceModel) (status : Z) (data : list ascii) :
  network (Request "s3" "HEAD" (endpoint client ++ "/" ++ bucket_Bucket state) "" ""
                   (region client) (creds client))
  = Response status data ->
  (400 <= status)%Z ->
  nothing_decoded xml_envelope xml_direct data ->
  bucket_Read xml_envelope xml_direct network client state
  = Failed "Failed to read bucket"
           ("HTTP" ++ itoa status ++ ": " ++ strings_TrimSpace (string_of_list_ascii data)).
Proof.
  intros Hnet Hstatus Hnd. unfold bucket_Read, HeadBucket, doSignedRequest.
  rewrite Hnet. destruct (Z.geb_spec status 400) as [_|]; [|lia].
  cbn [error_of]. rewrite (parseAPIError_undecoded _ _ status data Hnd).
  unfold isNoSuchBucketError. cbn [errors_As as_iamError synthetic Code].
  change (String.eqb ("HTTP" ++ itoa status) "NoSuchBucket") with false.
  change (String.eqb ("HTTP" ++ itoa status) "NotFound") with false.
  change (String.eqb ("HTTP" ++ itoa status) "NoSuchKey") with false.
  change (String.eqb ("HTTP" ++ itoa status) "NoSuchEntity") with false.
  cbn [orb error_Error]. unfold iamError_Error. cbn [Code Message].
  change (String.eqb ("HTTP" ++ itoa status) "") with false. cbn [andb].
  reflexivity.
Qed.

Lemma bucket_Read_undecoded_witness :
  bucket_Read sample_xml_envelope sample_xml_direct (always_answers 404 []) local_client
              (BucketResourceModel "logs" "logs" "arn:aws:s3:::logs")
  = Failed "Failed to read bucket" "HTTP404: ".
Proof.
  apply (bucket_Read_undecoded sample_xml_envelope sample_xml_direct (always_answers 404 [])
           local_client (BucketResourceModel "logs" "logs" "arn:aws:s3:::logs") 404 []).
  - reflexivity.
  - lia.
  - vm_compute. exact I.
Defined.



(* ------------------------------------------------------------------ *)
(** ** The body of a form *)

Lemma insert_string_with_bytes (k : string) (l : list (list ascii * string)) :
  Forall (fun bs => fst bs = list_ascii_of_string (snd bs)) l ->
  insert_string k (map snd l) = map snd (insert_sorted (list_ascii_of_string k) k l).
Proof.
  induction 1 as [|[b s] l Hbs _ IH]; [reflexivity|].
  cbn [map snd insert_string insert_sorted]. cbn [fst snd] in Hbs. subst b.
  destruct (bytes_ltb (list_ascii_of_string s) (list_ascii_of_string k));
    [cbn [map snd]; rewrite IH|]; reflexivity.
Qed.

Lemma insert_sorted_with_bytes (k : string) (l : list (list ascii * string)) :
  Forall (fun bs => fst bs = list_ascii_of_string (snd bs)) l ->
  Forall (fun bs => fst bs = list_ascii_of_string (snd bs))
         (insert_sorted (list_ascii_of_string k) k l).
Proof.
  induction 1 as [|[b s] l Hbs Hl IH]; cbn [insert_sorted].
  - constructor; [reflexivity | constructor].
  - destruct (bytes_ltb b (list_ascii_of_string k)); constructor; auto.
Qed.

Lemma sort_strings_with_bytes (l : list string) :
  sort_strings l = map snd (sort_by_key (map with_bytes l))
  /\ Forall (fun bs => fst bs = list_ascii_of_string (snd bs))
            (sort_by_key (map with_bytes l)).
Proof.
  induction l as [|k l [IH1 IH2]]; [split; [reflexivity | constructor]|].
  unfold sort_strings, sort_by_key in *. cbn [map fold_right with_bytes fst snd].
  rewrite IH1. split; [apply insert_string_with_bytes, IH2|].
  apply insert_sorted_with_bytes, IH2.
Qed.

Lemma list_ascii_of_string_inj (a b : string) :
  list_ascii_of_string a = list_ascii_of_string b -> a = b.
Proof.
  intros H. rewrite <- (string_of_list_ascii_of_string a),
              <- (string_of_list_ascii_of_string b), H. reflexivity.
Qed.

Lemma NoDup_bytes (l : list string) :
  List.NoDup l -> List.NoDup (map list_ascii_of_string l).
Proof.
  induction 1 as [|k l Hk _ IH]; cbn [map]; constructor; [|exact IH].
  intros Hin. apply in_map_iff in Hin as (k' & Heq & Hk').
  apply list_ascii_of_string_inj in Heq. subst k'. exact (Hk Hk').
Qed.

(** Sorting forgets the order of distinct keys. *)
Lemma sort_strings_permutation (l l' : list string) :
  List.NoDup l -> Permutation l l' -> sort_strings l = sort_strings l'.
Proof.
  intros Hnd Hperm.
  rewrite (proj1 (sort_strings_with_bytes l)), (proj1 (sort_strings_with_bytes l')).
  f_equal. apply sort_by_key_ext.
  - rewrite map_map. cbn [with_bytes fst]. apply NoDup_bytes, Hnd.
  - rewrite map_map. cbn [with_bytes fst]. apply NoDup_bytes.
    apply (Permutation_NoDup Hperm), Hnd.
  - intros y. rewrite !in_map_iff. split; intros (k & <- & Hk); exists k; split; auto.
    + apply (Permutation_in _ Hperm), Hk.
    + apply (Permutation_in _ (Permutation_sym Hperm)), Hk.
Qed.

(** [Values.Encode] gives the same body in whatever order the map hands
    out its keys. *)
Theorem url_Values_Encode_any_order (range_keys : list string)
    (v : gmap string (list string)) :
  Permutation range_keys (map fst (map_to_list v)) ->
  url_Values_Encode_range range_keys v = url_Values_Encode v.
Proof.
  intros Hperm. unfold url_Values_Encode, url_Values_Encode_range.
  rewrite (sort_strings_permutation (map fst (map_to_list v)) range_keys);
    [reflexivity | apply NoDup_ListNoDup, NoDup_fst_map_to_list | symmetry; exact Hperm].
Qed.

Lemma url_Values_Encode_any_order_witness :
  url_Values_Encode_range ["Version"; "PolicyName"; "Action"; "PolicyDocument"; "UserName"]
                          (PutUserPolicy_form "alice" "p1" "{}")
  = url_Values_Encode (PutUserPolicy_form "alice" "p1" "{}").
Proof.
  apply (url_Values_Encode_any_order
           ["Version"; "PolicyName"; "Action"; "PolicyDocument"; "UserName"]
           (PutUserPolicy_form "alice" "p1" "{}")).
  apply (bool_decide_unpack _). vm_compute. exact I.
Defined.

Lemma string_append_assoc (a b c : string) : ((a ++ b) ++ c = a ++ (b ++ c))%string.
Proof.
  induction a as [|x a IH]; [reflexivity|].
  change (String x ((a ++ b) ++ c) = String x (a ++ (b ++ c)))%string.
  f_equal. exact IH.
Qed.

(** The body [PutUserPolicy] posts: the five fields in the order of their
    keys, every value escaped, whatever the names and the document are. *)
Theorem PutUserPolicy_body (userName policyName policyDocument : string) :
  url_Values_Encode (PutUserPolicy_form userName policyName policyDocument)
  = ("Action=PutUserPolicy&PolicyDocument=" ++ url_QueryEscape policyDocument
     ++ "&PolicyName=" ++ url_QueryEscape policyName
     ++ "&UserName=" ++ url_QueryEscape userName ++ "&Version=2010-05-08")%string.
Proof.
  unfold url_Values_Encode, url_Values_Encode_range.
  set (form := PutUserPolicy_form userName policyName policyDocument).
  replace (sort_strings (map fst (map_to_list form)))
    with ["Action"; "PolicyDocument"; "PolicyName"; "UserName"; "Version"]%string
    by (vm_compute; reflexivity).
  cbn [fold_left].
  replace (form !! "Action"%string) with (Some ["PutUserPolicy"%string])
    by (vm_compute; reflexivity).
  replace (form !! "PolicyDocument"%string) with (Some [policyDocument])
    by (vm_compute; reflexivity).
  replace (form !! "PolicyName"%string) with (Some [policyName])
    by (vm_compute; reflexivity).
  replace (form !! "UserName"%string) with (Some [userName]) by (vm_compute; reflexivity).
  replace (form !! "Version"%string) with (Some ["2010-05-08"%string])
    by (vm_compute; reflexivity).
  cbn [default encode_values from_option].
  change (url_QueryEscape "Action") with "Action"%string.
  change (url_QueryEscape "PutUserPolicy") with "PutUserPolicy"%string.
  change (url_QueryEscape "PolicyDocument") with "PolicyDocument"%string.
  change (url_QueryEscape "PolicyName") with "PolicyName"%string.
  change (url_QueryEscape "UserName") with "UserName"%string.
  change (url_QueryEscape "Version") with "Version"%string.
  change (url_QueryEscape "2010-05-08") with "2010-05-08"%string.
  transitivity
    (((((((("Action=PutUserPolicy" ++ "&")
             ++ ("PolicyDocument=" ++ url_QueryEscape policyDocument)) ++ "&")
           ++ ("PolicyName=" ++ url_QueryEscape policyName)) ++ "&")
         ++ ("UserName=" ++ url_QueryEscape userName)) ++ "&")
       ++ "Version=2010-05-08")%string; [reflexivity|].
  rewrite !string_append_assoc. reflexivity.
Qed.

(* ------------------------------------------------------------------ *)
(** ** Calls of [withUserLock] never block each other for good *)

Lemma all_false_lookup (l : list bool) (i : nat) :
  Forall (fun b => b = false) l -> (i < length l)%nat -> l !! i = Some false.
Proof.
  intros Hall Hi. destruct (lookup_lt_is_Some_2 l i Hi) as [b Hb].
  rewrite (proj1 (Forall_lookup _ _) Hall i b Hb) in Hb. exact Hb.
Qed.

Lemma registry_valid_lookup (u : string) (d : providerData) :
  registry_valid d ->
  registry_valid (snd (getUserLock_lookup u d))
  /\ (fst (getUserLock_lookup u d) < length (mutexes (snd (getUserLock_lookup u d))))%nat
  /\ iamWrite (snd (getUserLock_lookup u d)) = iamWrite d
  /\ lockMu (snd (getUserLock_lookup u d)) = lockMu d
  /\ (Forall (fun b => b = false) (mutexes d) ->
      Forall (fun b => b = false) (mutexes (snd (getUserLock_lookup u d)))).
Proof.
  intros Hv. unfold getUserLock_lookup.
  set (locks := match userLocks d with None => ∅ | Some locks => locks end).
  assert (Hlocks : forall x l, locks !! x = Some l -> (l < length (mutexes d))%nat).
  { intros x l Hx. subst locks. destruct (userLocks d) as [locks|] eqn:E.
    - exact (Hv locks x l E Hx).
    - rewrite lookup_empty in Hx. discriminate. }
  destruct (locks !! u) as [lock|] eqn:Eu; cbn [fst snd mutexes iamWrite lockMu].
  - repeat split; auto.
    + intros locks' x l [= <-] Hx. cbn [mutexes]. exact (Hlocks x l Hx).
    + exact (Hlocks u lock Eu).
  - repeat split; auto.
    + intros locks' x l [= <-] Hx. cbn [mutexes]. rewrite length_app. cbn [length].
      destruct (decide (x = u)) as [->|Hne].
      * rewrite lookup_insert_eq in Hx. injection Hx as <-. lia.
      * rewrite lookup_insert_ne in Hx by congruence. specialize (Hlocks x l Hx). lia.
    + rewrite length_app. cbn [length]. lia.
    + intros Hall. apply Forall_app. split; [exact Hall | repeat constructor].
Qed.

Lemma classic_holds (p : pc) : holds_gate p \/ ~ holds_gate p.
Proof. destruct p; cbn; tauto. Qed.

Section Progress.
Context {W : Type}.
Implicit Types (st : system W) (c : call W).

Lemma lock_invariant_initial st :
  initial st -> registry_valid (sys_data st) -> lock_invariant st.
Proof.
  intros (Hgate & Hreg & Hmut & Hpc) Hv. split; [exact Hv|]. left. split.
  - intros i c Hc. rewrite Forall_forall in Hpc.
    rewrite (Hpc c); [intros []|]. apply list_elem_of_In.
    eapply list_elem_of_lookup_2; eauto.
  - repeat split; assumption.
Qed.

(** A call that does not hold the gate moves only by taking it, and only
    when it is free. *)
Lemma outside_step (u : string) (fn : W -> fn_outcome * W) (p p' : pc)
      (d d' : providerData) (w w' : W) (ev : event) :
  ~ holds_gate p -> call_step u fn p d w = Some (p', d', w', ev) ->
  p = AtGateLock /\ iamWrite d = false /\ p' = AtRegistryLock
  /\ d' = set_iamWrite true d.
Proof.
  destruct p; cbn; try tauto; intros _.
  - destruct (iamWrite d); [discriminate|]. intros [= <- <- <- <-]. auto.
  - discriminate.
Qed.

(** The step of the call that holds the gate. *)
Lemma inside_step (u : string) (fn : W -> fn_outcome * W) (p p' : pc)
      (d d' : providerData) (w w' : W) (ev : event) :
  holds_gate p -> expects p d -> registry_valid d ->
  call_step u fn p d w = Some (p', d', w', ev) ->
  registry_valid d'
  /\ (holds_gate p' /\ expects p' d' \/ (exists res, p' = Finished res) /\ idle d').
Proof.
  intros Hp He Hv. destruct p; cbn in Hp; try tauto; cbn [call_step expects] in *.
  - destruct He as (Hg & Hr & Hall). rewrite Hr. intros [= <- <- <- <-].
    split; [exact Hv|]. left. cbn. auto.
  - destruct He as (Hg & Hr & Hall).
    destruct (registry_valid_lookup u d Hv) as (Hv' & Hlt & Hg' & Hr' & Hall').
    destruct (getUserLock_lookup u d) as [lock d1]. cbn [fst snd] in *.
    intros [= <- <- <- <-]. split; [exact Hv'|]. left. cbn.
    rewrite Hg', Hr'. repeat split; [exact Hg | exact Hr | exact (Hall' Hall) | exact Hlt].
  - destruct He as (Hg & Hr & Hall & Hlt). rewrite Hr. intros [= <- <- <- <-].
    split; [exact Hv|]. left. cbn. auto.
  - destruct He as (Hg & Hr & Hall & Hlt). rewrite (all_false_lookup _ _ Hall Hlt).
    intros [= <- <- <- <-]. split.
    + intros locks x l Hl Hx. cbn [set_mutex mutexes userLocks] in *.
      rewrite length_insert. exact (Hv locks x l Hl Hx).
    + left. cbn. repeat split; auto.
      * apply list_lookup_insert_eq. exact Hlt.
      * intros other Hne Hother. rewrite list_lookup_insert_ne in Hother by congruence.
        rewrite (all_false_lookup _ _ Hall (lookup_lt_Some _ _ _ Hother)) in Hother.
        discriminate.
  - destruct He as (Hg & Hr & Hl & Hothers). destruct (fn w) as [res w1].
    intros [= <- <- <- <-]. split; [exact Hv|]. left. cbn. auto.
  - destruct He as (Hg & Hr & Hl & Hothers). rewrite Hl. intros [= <- <- <- <-]. split.
    + intros locks x l Hlk Hx. cbn [set_mutex mutexes userLocks] in *.
      rewrite length_insert. exact (Hv locks x l Hlk Hx).
    + left. cbn. repeat split; auto.
      apply Forall_lookup. intros k b Hk.
      destruct (decide (k = lock)) as [->|Hne].
      * rewrite list_lookup_insert_eq in Hk by (eapply lookup_lt_Some; eauto).
        congruence.
      * rewrite list_lookup_insert_ne in Hk by congruence.
        destruct b; [exfalso; exact (Hothers k Hne Hk) | reflexivity].
  - destruct He as (Hg & Hr & Hall). rewrite Hg. intros [= <- <- <- <-].
    split; [exact Hv|]. right. split; [eexists; reflexivity|].
    repeat split; assumption.
Qed.

Lemma expects_locked (p : pc) (d : providerData) :
  holds_gate p -> expects p d -> iamWrite d = true.
Proof. destruct p; cbn; tauto. Qed.

Lemma lock_invariant_step st st' :
  lock_invariant st -> system_step st st' -> lock_invariant st'.
Proof.
  intros [Hv Hinv] Hstep.
  destruct Hstep as [st i c p' d' w' ev Hc Hs].
  unfold lock_invariant. cbn [sys_data sys_calls].
  assert (Hlen : (i < length (sys_calls st))%nat) by (eapply lookup_lt_Some; eauto).
  assert (Hget : forall j cj,
             <[i := CallAt (call_userName c) (call_fn c) p']> (sys_calls st) !! j = Some cj ->
             (j = i /\ call_pc cj = p') \/ (j <> i /\ sys_calls st !! j = Some cj)).
  { intros j cj Hj. destruct (decide (j = i)) as [->|Hne].
    - rewrite list_lookup_insert_eq in Hj by exact Hlen. injection Hj as <-. left; auto.
    - rewrite list_lookup_insert_ne in Hj by congruence. right; auto. }
  assert (Hi : <[i := CallAt (call_userName c) (call_fn c) p']> (sys_calls st) !! i
               = Some (CallAt (call_userName c) (call_fn c) p'))
    by (apply list_lookup_insert_eq; exact Hlen).
  destruct Hinv as [[Hnone Hidle]|(h & ch & Hh & Hgh & Heh & Huniq)].
  - (* the gate is free: the call takes it *)
    destruct (outside_step _ _ _ _ _ _ _ _ _ (Hnone i c Hc) Hs) as (Hp & Hg & -> & ->).
    destruct Hidle as (_ & Hr & Hall).
    split; [exact Hv|]. right.
    exists i, (CallAt (call_userName c) (call_fn c) AtRegistryLock).
    split; [exact Hi|]. split; [exact I|]. split; [cbn; auto|].
    intros j cj Hj Hgj. destruct (Hget _ _ Hj) as [[-> _]|[Hne Hj']]; [reflexivity|].
    exfalso. exact (Hnone j cj Hj' Hgj).
  - (* a call holds the gate: it is the one that moves *)
    assert (Hih : i = h).
    { destruct (classic_holds (call_pc c)) as [Hg|Hng]; [exact (Huniq i c Hc Hg)|].
      exfalso. destruct (outside_step _ _ _ _ _ _ _ _ _ Hng Hs) as (_ & Hfree & _).
      rewrite (expects_locked _ _ Hgh Heh) in Hfree. discriminate. }
    subst h. rewrite Hc in Hh. injection Hh as <-.
    destruct (inside_step _ _ _ _ _ _ _ _ _ Hgh Heh Hv Hs)
      as (Hv' & [(Hg' & He')|((res & ->) & Hidle')]).
    + split; [exact Hv'|]. right.
      exists i, (CallAt (call_userName c) (call_fn c) p').
      split; [exact Hi|]. split; [exact Hg'|]. split; [exact He'|].
      intros j cj Hj Hgj. destruct (Hget _ _ Hj) as [[-> _]|[Hne Hj']]; [reflexivity|].
      exact (Huniq j cj Hj' Hgj).
    + split; [exact Hv'|]. left. split; [|exact Hidle'].
      intros j cj Hj Hgj. destruct (Hget _ _ Hj) as [[-> Hpc]|[Hne Hj']].
      * rewrite Hpc in Hgj. exact Hgj.
      * exact (Hne (Huniq j cj Hj' Hgj)).
Qed.
End Progress.

Lemma progress_le (p : pc) : (progress p <= 8)%nat.
Proof. destruct p; cbn; lia. Qed.

Lemma progress_finished (p : pc) : progress p = 8%nat <-> exists res, p = Finished res.
Proof.
  destruct p; cbn; split; try discriminate; try (intros [r H]; discriminate H).
  - intros _. eexists; reflexivity.
  - reflexivity.
Qed.

Lemma list_sum_insert (l : list nat) (i x y : nat) :
  l !! i = Some x -> (list_sum (<[i := y]> l) + x = list_sum l + y)%nat.
Proof.
  revert i. induction l as [|a l IH]; intros [|i]; try discriminate.
  - intros [= ->]. change (y + list_sum l + x = x + list_sum l + y)%nat. lia.
  - intros Hi. specialize (IH i Hi).
    change (a + list_sum (<[i := y]> l) + x = a + list_sum l + y)%nat. lia.
Qed.

Lemma map_insert {A B : Type} (f : A -> B) (l : list A) (i : nat) (x : A) :
  map f (<[i := x]> l) = <[i := f x]> (map f l).
Proof.
  revert i. induction l as [|a l IH]; intros [|i]; try reflexivity.
  change (f a :: map f (<[i := x]> l) = f a :: <[i := f x]> (map f l)).
  rewrite IH. reflexivity.
Qed.

Lemma map_lookup_Some {A B : Type} (f : A -> B) (l : list A) (i : nat) (x : A) :
  l !! i = Some x -> map f l !! i = Some (f x).
Proof.
  revert i. induction l as [|a l IH]; intros [|i]; try discriminate.
  - intros [= ->]. reflexivity.
  - intros Hi. exact (IH i Hi).
Qed.

Lemma list_sum_full (l : list nat) :
  Forall (fun x => x <= 8)%nat l ->
  (list_sum l <= 8 * length l)%nat
  /\ (list_sum l = 8 * length l <-> Forall (fun x => x = 8%nat) l)%nat.
Proof.
  induction 1 as [|a l Ha _ [IH1 IH2]].
  - split; [cbn; lia|]. split; [constructor | reflexivity].
  - cbv beta in Ha. change (list_sum (a :: l)) with (a + list_sum l)%nat.
    cbn [length]. split; [lia|]. split.
    + intros Hsum. assert (a = 8%nat /\ list_sum l = (8 * length l)%nat) as [-> Hl] by lia.
      constructor; [reflexivity | apply IH2, Hl].
    + intros Hall. inversion Hall as [|? ? -> Hl]; subst.
      apply IH2 in Hl. lia.
Qed.

Section Runs.
Context {W : Type}.
Implicit Types (st : system W) (c : call W).

Lemma lock_invariant_run st0 st :
  initial st0 -> registry_valid (sys_data st0) -> rtc system_step st0 st ->
  lock_invariant st.
Proof.
  intros Hinit Hv Hrun.
  apply (rtc_ind_r (R := system_step) (fun st => lock_invariant st) st0); [| |exact Hrun].
  - apply lock_invariant_initial; assumption.
  - intros y z _ Hstep IH. exact (lock_invariant_step _ _ IH Hstep).
Qed.

(** Calls that do not hold the gate have all finished, or one of them is
    at its first statement. *)
Lemma outside_calls (l : list (call W)) :
  (forall i c, l !! i = Some c -> ~ holds_gate (call_pc c)) ->
  Forall (fun c => exists res, call_pc c = Finished res) l
  \/ exists i c, l !! i = Some c /\ call_pc c = AtGateLock.
Proof.
  induction l as [|c l IH]; intros Hnone; [left; constructor|].
  pose proof (Hnone 0%nat c eq_refl) as Hc.
  destruct (call_pc c) eqn:Epc; cbn in Hc; try tauto.
  - right. exists 0%nat, c. auto.
  - destruct IH as [Hall|(i & c' & Hi & Hpc)].
    + intros i c' Hi. exact (Hnone (Datatypes.S i) c' Hi).
    + left. constructor; [eexists; exact Epc | exact Hall].
    + right. exists (Datatypes.S i), c'. auto.
Qed.

(** The call that holds the gate can take its next step. *)
Lemma inside_enabled (u : string) (fn : W -> fn_outcome * W) (p : pc)
      (d : providerData) (w : W) :
  holds_gate p -> expects p d -> exists next, call_step u fn p d w = Some next.
Proof.
  intros Hp He. destruct p; cbn in Hp; try tauto; cbn [call_step expects] in *.
  - destruct He as (_ & -> & _). eexists; reflexivity.
  - destruct (getUserLock_lookup u d). eexists; reflexivity.
  - destruct He as (_ & -> & _). eexists; reflexivity.
  - destruct He as (_ & _ & Hall & Hlt). rewrite (all_false_lookup _ _ Hall Hlt).
    eexists; reflexivity.
  - destruct (fn w). eexists; reflexivity.
  - destruct He as (_ & _ & -> & _). eexists; reflexivity.
  - destruct He as (-> & _). eexists; reflexivity.
Qed.

Lemma lock_invariant_progress st :
  lock_invariant st ->
  (all_finished st /\ idle (sys_data st)) \/ exists st', system_step st st'.
Proof.
  intros [Hv [[Hnone Hidle]|(h & ch & Hh & Hgh & Heh & Huniq)]].
  - destruct (outside_calls _ Hnone) as [Hall|(i & c & Hi & Hpc)]; [left; split; assumption|].
    right. destruct Hidle as (Hg & _).
    eexists. eapply (Step_call st i c); [exact Hi|].
    rewrite Hpc. cbn [call_step]. rewrite Hg. reflexivity.
  - right.
    destruct (inside_enabled (call_userName ch) (call_fn ch) _ _ (sys_state st) Hgh Heh)
      as [[[[p' d'] w'] ev] Hs].
    eexists. eapply (Step_call st h ch); [exact Hh | exact Hs].
Qed.

Lemma call_step_progress (u : string) (fn : W -> fn_outcome * W) (p p' : pc)
      (d d' : providerData) (w w' : W) (ev : event) :
  call_step u fn p d w = Some (p', d', w', ev) -> progress p' = Datatypes.S (progress p).
Proof.
  destruct p; cbn.
  - destruct (iamWrite d); [discriminate|]. intros [= <- <- <- <-]. reflexivity.
  - destruct (lockMu d); [discriminate|]. intros [= <- <- <- <-]. reflexivity.
  - destruct (getUserLock_lookup u d). intros [= <- <- <- <-]. reflexivity.
  - destruct (lockMu d); [|discriminate]. intros [= <- <- <- <-]. reflexivity.
  - destruct (mutexes d !! lock) as [[|]|]; try discriminate.
    intros [= <- <- <- <-]. reflexivity.
  - destruct (fn w). intros [= <- <- <- <-]. reflexivity.
  - destruct (mutexes d !! lock) as [[|]|]; try discriminate.
    intros [= <- <- <- <-]. reflexivity.
  - destruct (iamWrite d); [|discriminate]. intros [= <- <- <- <-]. reflexivity.
  - discriminate.
Qed.

Lemma system_step_count st st' :
  system_step st st' ->
  steps_taken st' = Datatypes.S (steps_taken st)
  /\ length (sys_calls st') = length (sys_calls st).
Proof.
  intros [st1 i c p' d' w' ev Hc Hs]. unfold steps_taken. cbn [sys_calls].
  split; [|apply length_insert].
  pose proof (call_step_progress _ _ _ _ _ _ _ _ _ Hs) as Hp.
  pose proof (list_sum_insert (map (fun c => progress (call_pc c)) (sys_calls st1)) i
                (progress (call_pc c)) (progress p')) as Hsum.
  rewrite map_insert. cbn [call_pc].
  specialize (Hsum (map_lookup_Some _ _ _ _ Hc)). lia.
Qed.

Lemma run_schedule_nsteps (schedule : list nat) :
  forall st st',
    run_schedule schedule st = Some st' -> nsteps system_step (length schedule) st st'.
Proof.
  induction schedule as [|i schedule IH]; intros st st'; cbn.
  - intros [= <-]. constructor.
  - destruct (sys_calls st !! i) as [c|] eqn:Ec; [|discriminate].
    destruct (call_step _ _ _ _ _) as [[[[p' d'] w'] ev]|] eqn:Es; [|discriminate].
    intros Hrun. eapply nsteps_l; [|apply IH, Hrun]. econstructor; eauto.
Qed.
End Runs.

(** Concurrent calls of [withUserLock] never deadlock: from every state
    they can reach, on a provider whose registered locks are allocated
    mutexes, either some call can take a step, or every call has returned
    and every mutex is unlocked. *)
Theorem withUserLock_deadlock_free {W : Type} (st0 st : system W) :
  initial st0 -> registry_valid (sys_data st0) -> rtc system_step st0 st ->
  (all_finished st /\ idle (sys_data st)) \/ exists st', system_step st st'.
Proof.
  intros Hinit Hv Hrun. apply lock_invariant_progress.
  exact (lock_invariant_run st0 st Hinit Hv Hrun).
Qed.

Lemma withUserLock_deadlock_free_witness :
  (all_finished alice_in_body /\ idle (sys_data alice_in_body))
  \/ exists st', system_step alice_in_body st'.
Proof.
  apply (withUserLock_deadlock_free three_calls alice_in_body).
  - repeat split; repeat constructor.
  - intros locks u l [= <-] Hu. rewrite lookup_empty in Hu. discriminate Hu.
  - apply (rtc_nsteps_2 5), (run_schedule_nsteps [0; 0; 0; 0; 0]%nat). vm_compute. reflexivity.
Defined.

(** Every call of [withUserLock] takes eight steps: after [k] steps of a
    system of [n] calls, the calls have together taken [k] steps, [k] is at
    most [8 * n], and all calls have returned exactly when [k = 8 * n]. *)
Theorem withUserLock_step_count {W : Type} (st0 st : system W) (k : nat) :
  initial st0 -> nsteps system_step k st0 st ->
  steps_taken st = k
  /\ (k <= 8 * length (sys_calls st0))%nat
  /\ (all_finished st <-> k = (8 * length (sys_calls st0))%nat).
Proof.
  intros Hinit Hrun.
  assert (Hcount : steps_taken st = k /\ length (sys_calls st) = length (sys_calls st0)).
  { revert st Hrun. induction k as [|k IH]; intros st Hrun.
    - inversion Hrun; subst. split; [|reflexivity].
      destruct Hinit as (_ & _ & _ & Hpc). unfold steps_taken.
      induction Hpc as [|c l Hc _ IHl]; [reflexivity|].
      change (progress (call_pc c)
              + list_sum (map (fun c => progress (call_pc c)) l) = 0)%nat.
      rewrite Hc, IHl. reflexivity.
    - apply nsteps_inv_r in Hrun as (y & Hy & Hstep).
      destruct (IH y Hy) as [Hs Hl]. destruct (system_step_count _ _ Hstep) as [Hs' Hl'].
      split; congruence. }
  destruct Hcount as [Hs Hl]. split; [exact Hs|].
  unfold steps_taken in Hs.
  destruct (list_sum_full (map (fun c => progress (call_pc c)) (sys_calls st))) as [Hle Hfull].
  { apply Forall_forall. intros x Hx. apply in_map_iff in Hx as (c & <- & _).
    apply progress_le. }
  rewrite length_map, Hs, Hl in Hle, Hfull. split; [exact Hle|].
  rewrite Hfull. unfold all_finished. rewrite Forall_map.
  split; apply Forall_impl; intros c; apply progress_finished.
Qed.

Lemma withUserLock_step_count_witness :
  steps_taken alice_in_body = 5%nat.
Proof.
  apply (withUserLock_step_count three_calls alice_in_body 5).
  - repeat split; repeat constructor.
  - apply (run_schedule_nsteps [0; 0; 0; 0; 0]%nat). vm_compute. reflexivity.
Defined.

(* ------------------------------------------------------------------ *)
(** ** The registry of user locks *)

Lemma getUserLock_lookup_registered (u : string) (d : providerData) :
  registered u (snd (getUserLock_lookup u d)) = Some (fst (getUserLock_lookup u d))
  /\ (forall x l, registered x d = Some l ->
                  registered x (snd (getUserLock_lookup u d)) = Some l)
  /\ (registry_valid d -> registry_injective d ->
      registry_injective (snd (getUserLock_lookup u d))).
Proof.
  unfold getUserLock_lookup, registered.
  destruct (userLocks d) as [locks|] eqn:El.
  - destruct (locks !! u) as [lock|] eqn:Eu; cbn [fst snd userLocks].
    + split; [exact Eu|]. split; [auto|].
      intros _ Hinj locks' u1 u2 l [= <-]. exact (Hinj locks u1 u2 l El).
    + split; [apply lookup_insert_eq|]. split.
      * intros x l Hx. rewrite lookup_insert_ne; [exact Hx | congruence].
      * intros Hv Hinj locks' u1 u2 l [= <-] H1 H2. cbn [mutexes] in *.
        destruct (decide (u1 = u)) as [->|Hn1], (decide (u2 = u)) as [->|Hn2];
          [reflexivity | | |].
        -- rewrite lookup_insert_eq in H1. injection H1 as <-.
           rewrite lookup_insert_ne in H2 by congruence.
           specialize (Hv locks u2 _ El H2). lia.
        -- rewrite lookup_insert_eq in H2. injection H2 as <-.
           rewrite lookup_insert_ne in H1 by congruence.
           specialize (Hv locks u1 _ El H1). lia.
        -- rewrite lookup_insert_ne in H1, H2 by congruence.
           exact (Hinj locks u1 u2 l El H1 H2).
  - rewrite lookup_empty. cbn [fst snd userLocks]. split; [apply lookup_insert_eq|].
    split; [discriminate|].
    intros _ _ locks' u1 u2 l [= <-] H1 H2.
    destruct (decide (u1 = u)) as [->|Hn1], (decide (u2 = u)) as [->|Hn2];
      [reflexivity | | |].
    + rewrite lookup_insert_ne, lookup_empty in H2 by congruence. discriminate.
    + rewrite lookup_insert_ne, lookup_empty in H1 by congruence. discriminate.
    + rewrite lookup_insert_ne, lookup_empty in H1 by congruence. discriminate.
Qed.

Section Registry.
Context {W : Type}.
Implicit Types (st : system W) (c : call W).

(** What a step does to the registry: names keep their locks, and the
    lock handed to the call is the one registered for its user name. *)
Lemma call_step_registry (u : string) (fn : W -> fn_outcome * W) (p p' : pc)
      (d d' : providerData) (w w' : W) (ev : event) :
  call_step u fn p d w = Some (p', d', w', ev) ->
  (forall x l, registered x d = Some l -> registered x d' = Some l)
  /\ (registry_valid d -> registry_injective d -> registry_injective d')
  /\ (forall l, uses_lock p' = Some l -> uses_lock p = Some l \/ registered u d' = Some l).
Proof.
  destruct p; cbn [call_step].
  - destruct (iamWrite d); [discriminate|]. intros [= <- <- <- <-].
    repeat split; auto; discriminate.
  - destruct (lockMu d); [discriminate|]. intros [= <- <- <- <-].
    repeat split; auto; discriminate.
  - destruct (getUserLock_lookup_registered u d) as (H1 & H2 & H3).
    destruct (getUserLock_lookup u d) as [lock d1]. cbn [fst snd] in *.
    intros [= <- <- <- <-]. repeat split; auto.
    intros l [= <-]. right. exact H1.
  - destruct (lockMu d); [|discriminate]. intros [= <- <- <- <-].
    repeat split; auto.
  - destruct (mutexes d !! lock) as [[|]|]; try discriminate.
    intros [= <- <- <- <-]. repeat split; auto.
  - destruct (fn w). intros [= <- <- <- <-]. repeat split; auto.
  - destruct (mutexes d !! lock) as [[|]|]; try discriminate.
    intros [= <- <- <- <-]. repeat split; auto; discriminate.
  - destruct (iamWrite d); [|discriminate]. intros [= <- <- <- <-].
    repeat split; auto; discriminate.
  - discriminate.
Qed.

Lemma registry_run st0 st :
  rtc system_step st0 st ->
  (forall x l, registered x (sys_data st0) = Some l -> registered x (sys_data st) = Some l)
  /\ (lock_invariant st0 -> registry_injective (sys_data st0) ->
      registry_injective (sys_data st))
  /\ ((forall i c l, sys_calls st0 !! i = Some c -> uses_lock (call_pc c) = Some l ->
                     registered (call_userName c) (sys_data st0) = Some l) ->
      forall i c l, sys_calls st !! i = Some c -> uses_lock (call_pc c) = Some l ->
                    registered (call_userName c) (sys_data st) = Some l).
Proof.
  intros Hrun.
  apply (rtc_ind_r (R := system_step)
           (fun st =>
              (forall x l, registered x (sys_data st0) = Some l ->
                           registered x (sys_data st) = Some l)
              /\ (lock_invariant st0 -> registry_injective (sys_data st0) ->
                  lock_invariant st /\ registry_injective (sys_data st))
              /\ ((forall i c l, sys_calls st0 !! i = Some c ->
                                 uses_lock (call_pc c) = Some l ->
                                 registered (call_userName c) (sys_data st0) = Some l) ->
                  forall i c l, sys_calls st !! i = Some c ->
                                uses_lock (call_pc c) = Some l ->
                                registered (call_userName c) (sys_data st) = Some l)) st0)
    in Hrun.
  - destruct Hrun as (H1 & H2 & H3). split; [exact H1|]. split; [|exact H3].
    intros Hinv Hinj. exact (proj2 (H2 Hinv Hinj)).
  - split; [auto|]. split; auto.
  - clear st Hrun. intros y z _ Hstep (IH1 & IH2 & IH3).
    pose proof Hstep as Hstep'.
    destruct Hstep as [y i c p' d' w' ev Hc Hs]. cbn [sys_data sys_calls].
    destruct (call_step_registry _ _ _ _ _ _ _ _ _ Hs) as (Hkeep & Hinj & Hlock).
    split; [intros x l Hx; apply Hkeep, IH1, Hx|]. split.
    + intros Hinv0 Hinj0. destruct (IH2 Hinv0 Hinj0) as [Hinvy Hinjy].
      split; [exact (lock_invariant_step _ _ Hinvy Hstep')|].
      apply Hinj; [exact (proj1 Hinvy) | exact Hinjy].
    + intros H0 j cj l Hj Hl.
      assert (Hlen : (i < length (sys_calls y))%nat) by (eapply lookup_lt_Some; eauto).
      destruct (decide (j = i)) as [->|Hne].
      * rewrite list_lookup_insert_eq in Hj by exact Hlen. injection Hj as <-.
        cbn [call_pc call_userName] in *.
        destruct (Hlock l Hl) as [Hold|Hnew]; [|exact Hnew].
        apply Hkeep. exact (IH3 H0 i c l Hc Hold).
      * rewrite list_lookup_insert_ne in Hj by congruence.
        apply Hkeep. exact (IH3 H0 j cj l Hj Hl).
Qed.
End Registry.

(** The registry of user locks, over every run of concurrent calls: a
    user name keeps the mutex it has been given; no mutex is ever given to
    two user names; and the mutex a call locks around its wrapped function
    is the one registered for its user name. *)
Theorem user_locks_kept {W : Type} (st0 st : system W) :
  initial st0 -> registry_valid (sys_data st0) -> registry_injective (sys_data st0) ->
  rtc system_step st0 st ->
  (forall userName lock,
      registered userName (sys_data st0) = Some lock ->
      registered userName (sys_data st) = Some lock)
  /\ registry_injective (sys_data st)
  /\ (forall i c lock,
         sys_calls st !! i = Some c -> uses_lock (call_pc c) = Some lock ->
         registered (call_userName c) (sys_data st) = Some lock).
Proof.
  intros Hinit Hv Hinj Hrun.
  destruct (registry_run st0 st Hrun) as (H1 & H2 & H3).
  split; [exact H1|]. split.
  - apply H2; [apply lock_invariant_initial; assumption | exact Hinj].
  - apply H3. intros i c l Hc Hl. destruct Hinit as (_ & _ & _ & Hpc).
    rewrite Forall_forall in Hpc. rewrite (Hpc c) in Hl; [discriminate|].
    apply list_elem_of_In. eapply list_elem_of_lookup_2; eauto.
Qed.

Lemma user_locks_kept_witness :
  registry_injective (sys_data alice_in_body)
  /\ forall i c lock,
      sys_calls alice_in_body !! i = Some c -> uses_lock (call_pc c) = Some lock ->
      registered (call_userName c) (sys_data alice_in_body) = Some lock.
Proof.
  apply (user_locks_kept three_calls alice_in_body).
  - repeat split; repeat constructor.
  - intros locks u l [= <-] Hu. rewrite lookup_empty in Hu. discriminate Hu.
  - intros locks u1 u2 l [= <-] Hu. rewrite lookup_empty in Hu. discriminate Hu.
  - apply (rtc_nsteps_2 5), (run_schedule_nsteps [0; 0; 0; 0; 0]%nat). vm_compute. reflexivity.
Defined.

(* ------------------------------------------------------------------ *)
(** ** [normalizeJSONString] and the comparison as a relation *)

(** [normalizeJSONString] fails exactly when [json.Unmarshal] fails: the
    error path of [json.Marshal] (lines 14-17) is never taken, because a
    decoded value holds finite numbers only. *)
Theorem normalizeJSONString_fails_iff (raw : string) :
  normalizeJSONString raw = None <-> json_Unmarshal (list_ascii_of_string raw) = None.
Proof.
  unfold normalizeJSONString.
  destruct (json_Unmarshal (list_ascii_of_string raw)) as [v|] eqn:Ev; [|tauto].
  destruct (json_Marshal_decoded _ _ Ev) as [c ->]. split; discriminate.
Qed.

(** The comparison is reflexive and symmetric on all strings, and it is
    not transitive: [padded_one] is not JSON and equals ["1"] once trimmed,
    ["1"] and ["1.0"] are the same number, and [padded_one] and ["1.0"]
    differ as trimmed strings. *)
Theorem policiesSemanticallyEqual_relation :
  (forall a, policiesSemanticallyEqual a a = true)
  /\ (forall a b, policiesSemanticallyEqual a b = policiesSemanticallyEqual b a)
  /\ (policiesSemanticallyEqual padded_one "1" = true
      /\ policiesSemanticallyEqual "1" "1.0" = true
      /\ policiesSemanticallyEqual padded_one "1.0" = false).
Proof.
  split; [|split].
  - intros a. unfold policiesSemanticallyEqual.
    destruct (normalizeJSONString a); apply String.eqb_refl.
  - intros a b. unfold policiesSemanticallyEqual.
    destruct (normalizeJSONString a), (normalizeJSONString b); apply String.eqb_sym.
  - repeat split; vm_compute; reflexivity.
Qed.

(** A JSON text with a number outside the range of [float64] is not
    normalized: [json.Unmarshal] reports the number, so the comparison
    falls back to the trimmed strings. *)
Theorem normalizeJSONString_out_of_range (d : layout) (w w' : list ascii) :
  layout_ok d = true -> is_ws w = true -> is_ws w' = true ->
  (layout_depth d <= maxNestingDepth)%nat ->
  layout_in_range d = false ->
  normalizeJSONString (document_text w d w') = None.
Proof.
  intros Hok Hw Hw' Hdepth Hrange. unfold normalizeJSONString, document_text.
  rewrite list_ascii_of_string_of_list_ascii.
  rewrite (json_Unmarshal_layout d w w' Hok Hw Hw' Hdepth), Hrange. reflexivity.
Qed.

Lemma normalizeJSONString_out_of_range_witness :
  normalizeJSONString (document_text [] out_of_range_array [" "%char]) = None.
Proof.
  apply (normalizeJSONString_out_of_range out_of_range_array [] [" "%char]);
    try reflexivity.
  unfold maxNestingDepth. cbn. lia.
Defined.

(** Every JSON text (RFC 8259) whose numbers are in the range of [float64]
    and whose nesting is within the limit of the decoder is normalized, and
    the result is the encoding of the value of the text: it does not
    depend on the white space in and around the text. *)
Theorem normalizeJSONString_document (d : layout) (w w' : list ascii) :
  layout_ok d = true -> is_ws w = true -> is_ws w' = true ->
  (layout_depth d <= maxNestingDepth)%nat ->
  layout_in_range d = true ->
  exists c,
    encode_value (layout_value d) = Some c
    /\ normalizeJSONString (document_text w d w') = Some (string_of_list_ascii c).
Proof.
  intros Hok Hw Hw' Hdepth Hrange.
  pose proof (json_Unmarshal_layout d w w' Hok Hw Hw' Hdepth) as Hu. rewrite Hrange in Hu.
  destruct (json_Marshal_decoded _ _ Hu) as [c Hc]. exists c. split; [exact Hc|].
  unfold normalizeJSONString, document_text.
  rewrite list_ascii_of_string_of_list_ascii, Hu, Hc. reflexivity.
Qed.

Lemma normalizeJSONString_document_witness :
  exists c,
    encode_value (layout_value policy_b) = Some c
    /\ normalizeJSONString (document_text [" "%char] policy_b ["010"%char])
       = Some (string_of_list_ascii c).
Proof.
  apply (normalizeJSONString_document policy_b [" "%char] ["010"%char]);
    try reflexivity.
  unfold maxNestingDepth. cbn. lia.
Defined.

(* ------------------------------------------------------------------ *)
(** ** The nesting limit of the decoder *)

Lemma nested_arrays_text (n : nat) :
  layout_text (nested_arrays n)
  = repeat "["%char (Datatypes.S n) ++ repeat "]"%char (Datatypes.S n).
Proof.
  induction n as [|n IH]; [reflexivity|].
  cbn [nested_arrays layout_text elems_text el_pre el_value el_post app].
  rewrite IH, <- app_assoc, <- (repeat_cons (Datatypes.S n) "]"%char). reflexivity.
Qed.

Lemma nested_arrays_facts (n : nat) :
  layout_ok (nested_arrays n) = true
  /\ layout_in_range (nested_arrays n) = true
  /\ layout_depth (nested_arrays n) = Datatypes.S n
  /\ encode_value (layout_value (nested_arrays n)) = Some (layout_text (nested_arrays n)).
Proof.
  induction n as [|n (Hok & Hr & Hd & He)]; [repeat split|].
  cbn [nested_arrays layout_ok layout_in_range layout_depth layout_value
       length Nat.eqb negb forallb el_pre el_value el_post is_ws andb fold_right map].
  rewrite Hok, Hr, Hd. repeat split.
  cbn [encode_value encode_all]. rewrite He. cbn [join_commas layout_text elems_text
    el_pre el_value el_post app]. reflexivity.
Qed.

(** Opening brackets are pushed as long as the stack has room. *)
Lemma scan_open_brackets (k : nat) :
  forall st ps tp sv rest,
    st = stateBeginValue \/ st = stateBeginValueOrEmpty ->
    (length ps + k <= maxNestingDepth)%nat ->
    scan_bytes (Scanner st ps [] tp sv) (repeat "["%char k ++ rest)
    = scan_bytes (Scanner (match k with O => st | _ => stateBeginValueOrEmpty end)
                          (repeat (parseArrayValue []) k ++ ps) [] tp sv) rest.
Proof.
  induction k as [|k IH]; intros st ps tp sv rest Hst Hroom; [reflexivity|].
  cbn [repeat app scan_bytes].
  assert (Hs : scan_byte (Scanner st ps [] tp sv) "["
               = Some (Scanner stateBeginValueOrEmpty (parseArrayValue [] :: ps) [] tp sv)).
  { destruct Hst as [-> | ->]; unfold scan_byte, do_stateBeginValue, pushParseState;
      cbn [step parseState top savedError isSpace Ascii.eqb Bool.eqb orb];
      (destruct (Nat.leb_spec (length ps + 1) maxNestingDepth); [reflexivity | lia]). }
  rewrite Hs, IH; [|right; reflexivity | cbn [length]; lia].
  replace (repeat (parseArrayValue []) k ++ parseArrayValue [] :: ps)
    with (parseArrayValue [] :: repeat (parseArrayValue []) k ++ ps).
  - destruct k; reflexivity.
  - rewrite app_comm_cons, repeat_cons, <- app_assoc. reflexivity.
Qed.

Lemma scan_bytes_overflow (ps : list parse_state) (st : scan_step)
      (tp : option jvalue) (sv : bool) (rest : list ascii) :
  st = stateBeginValue \/ st = stateBeginValueOrEmpty ->
  length ps = maxNestingDepth ->
  scan_bytes (Scanner st ps [] tp sv) ("["%char :: rest) = None.
Proof.
  intros Hst Hfull. cbn [scan_bytes].
  assert (Hs : scan_byte (Scanner st ps [] tp sv) "[" = None).
  { destruct Hst as [-> | ->]; unfold scan_byte, do_stateBeginValue, pushParseState;
      cbn [step parseState top savedError isSpace Ascii.eqb Bool.eqb orb];
      (destruct (Nat.leb_spec (length ps + 1) maxNestingDepth); [lia | reflexivity]). }
  rewrite Hs. reflexivity.
Qed.

(** More than [maxNestingDepth] opening brackets are an error, whatever
    follows. *)
Lemma json_Unmarshal_too_deep (n : nat) (rest : list ascii) :
  (maxNestingDepth < n)%nat -> json_Unmarshal (repeat "["%char n ++ rest) = None.
Proof.
  intros Hn. unfold json_Unmarshal, scanner_reset.
  replace n with (maxNestingDepth + Datatypes.S (n - maxNestingDepth - 1))%nat by lia.
  rewrite repeat_app, <- app_assoc.
  rewrite scan_open_brackets; [|left; reflexivity | cbn [length]; lia].
  cbn [repeat app]. rewrite scan_bytes_overflow; [reflexivity | |].
  - destruct maxNestingDepth; [left | right]; reflexivity.
  - rewrite app_nil_r. apply repeat_length.
Qed.

(** The nesting limit: arrays nested up to 10000 deep are normalized (to
    themselves, having no white space), and one level more is an error of
    the decoder. *)
Theorem normalizeJSONString_nesting_limit (n : nat) :
  let text := string_of_list_ascii (repeat "["%char n ++ repeat "]"%char n) in
  ((1 <= n <= maxNestingDepth)%nat -> normalizeJSONString text = Some text)
  /\ ((maxNestingDepth < n)%nat -> normalizeJSONString text = None).
Proof.
  cbv zeta. split.
  - intros [H1 Hn]. destruct n as [|n]; [lia|].
    destruct (nested_arrays_facts n) as (Hok & Hr & Hd & He).
    rewrite <- nested_arrays_text. unfold normalizeJSONString.
    rewrite list_ascii_of_string_of_list_ascii.
    pose proof (json_Unmarshal_layout (nested_arrays n) [] [] Hok eq_refl eq_refl) as Hu.
    rewrite Hd, Hr in Hu. cbn [app] in Hu. rewrite app_nil_r in Hu.
    rewrite (Hu Hn). unfold json_Marshal. rewrite He. reflexivity.
  - intros Hn. unfold normalizeJSONString. rewrite list_ascii_of_string_of_list_ascii.
    rewrite (json_Unmarshal_too_deep n _ Hn). reflexivity.
Qed.

Lemma normalizeJSONString_nesting_limit_witness :
  normalizeJSONString "[[]]" = Some "[[]]"%string.
Proof.
  apply (proj1 (normalizeJSONString_nesting_limit 2)).
  split; apply Nat.leb_le; vm_compute; reflexivity.
Defined.

(* ------------------------------------------------------------------ *)
(** ** [strings.Split] and the import of an access key *)

Section Split.
Variable sep : ascii.

Lemma count_none (s : list ascii) :
  strings_Count_byte s sep = 0%nat <-> ~ In sep s.
Proof.
  unfold strings_Count_byte. induction s as [|c s IH]; cbn [List.filter].
  - split; [intros _ [] | reflexivity].
  - destruct (Ascii.eqb_spec sep c) as [->|Hne]; cbn [length In].
    + split; [discriminate | intros H; exfalso; apply H; left; reflexivity].
    + rewrite IH. split; [intros H [Hc|Hin]; [congruence | exact (H Hin)]|].
      intros H Hin. apply H. right. exact Hin.
Qed.

Lemma index_none (s : list ascii) : ~ In sep s -> strings_IndexByte s sep = None.
Proof.
  induction s as [|c s IH]; [reflexivity|]. intros Hin. cbn [strings_IndexByte].
  destruct (Ascii.eqb_spec c sep) as [->|_]; [exfalso; apply Hin; left; reflexivity|].
  rewrite IH; [reflexivity|]. intros H. apply Hin. right. exact H.
Qed.

(** The first separator cuts the string in a piece without separator and
    a rest with one separator less. *)
Lemma index_some (s : list ascii) :
  strings_Count_byte s sep <> 0%nat ->
  exists m, strings_IndexByte s sep = Some m
            /\ s = firstn m s ++ sep :: skipn (m + 1) s
            /\ ~ In sep (firstn m s)
            /\ strings_Count_byte s sep
               = Datatypes.S (strings_Count_byte (skipn (m + 1) s) sep).
Proof.
  unfold strings_Count_byte. induction s as [|c s IH]; [intros H; contradiction H; reflexivity|].
  cbn [strings_IndexByte List.filter]. rewrite (Ascii.eqb_sym sep c).
  destruct (Ascii.eqb_spec c sep) as [->|Hne].
  - intros _. exists 0%nat. cbn. repeat split. intros [].
  - intros Hc. destruct (IH Hc) as (m & -> & Hs & Hno & Hcount).
    exists (Datatypes.S m). cbn [firstn skipn Nat.add app In].
    repeat split; [f_equal; exact Hs | | exact Hcount].
    intros [H|H]; [congruence | exact (Hno H)].
Qed.

Lemma genSplit_length (fuel : nat) :
  forall s, strings_Count_byte s sep = fuel ->
            length (genSplit_loop fuel s sep) = Datatypes.S fuel.
Proof.
  induction fuel as [|fuel IH]; intros s Hc; [reflexivity|].
  cbn [genSplit_loop].
  destruct (index_some s ltac:(lia)) as (m & -> & _ & _ & Hcount).
  cbn [length]. rewrite IH; [reflexivity | lia].
Qed.

(** A string with one separator is split at it. *)
Lemma genSplit_one (s : list ascii) :
  strings_Count_byte s sep = 1%nat ->
  exists u k, genSplit_loop 1 s sep = [u; k] /\ s = u ++ sep :: k
              /\ ~ In sep u /\ ~ In sep k.
Proof.
  intros Hc. destruct (index_some s ltac:(lia)) as (m & Hm & Hs & Hno & Hcount).
  exists (firstn m s), (skipn (m + 1) s). cbn [genSplit_loop]. rewrite Hm.
  repeat split; [exact Hs | exact Hno | apply count_none; lia].
Qed.

Lemma count_app (a b : list ascii) :
  strings_Count_byte (a ++ b) sep = (strings_Count_byte a sep + strings_Count_byte b sep)%nat.
Proof. unfold strings_Count_byte. rewrite filter_app, length_app. reflexivity. Qed.
End Split.

Lemma list_ascii_of_string_app (a b : string) :
  list_ascii_of_string (a ++ b) = list_ascii_of_string a ++ list_ascii_of_string b.
Proof.
  induction a as [|c a IH]; [reflexivity|].
  change (c :: list_ascii_of_string (a ++ b) = c :: list_ascii_of_string a
                                                ++ list_ascii_of_string b).
  rewrite IH. reflexivity.
Qed.

Lemma string_of_list_ascii_app (a b : list ascii) :
  string_of_list_ascii (a ++ b) = (string_of_list_ascii a ++ string_of_list_ascii b)%string.
Proof.
  induction a as [|c a IH]; [reflexivity|].
  change (String c (string_of_list_ascii (a ++ b))
          = String c (string_of_list_ascii a ++ string_of_list_ascii b)).
  rewrite IH. reflexivity.
Qed.

Lemma accessKey_ImportState_accepted (ID : string) :
  match accessKey_ImportState ID with
  | Imported attributes =>
      exists userName accessKeyID,
        ID = (userName ++ "," ++ accessKeyID)%string
        /\ ~ In ","%char (list_ascii_of_string userName)
        /\ ~ In ","%char (list_ascii_of_string accessKeyID)
        /\ attributes = [("id", accessKeyID); ("user_name", userName);
                         ("access_key_id", accessKeyID)]%string
  | ImportFailed summary detail =>
      strings_Count_byte (list_ascii_of_string ID) "," <> 1%nat
      /\ summary = "Invalid import ID"%string
  end.
Proof.
  unfold accessKey_ImportState, strings_Split_byte.
  set (s := list_ascii_of_string ID).
  destruct (Nat.eq_dec (strings_Count_byte s ",") 1) as [Hone|Hne].
  - rewrite Hone. destruct (genSplit_one "," s Hone) as (u & k & -> & Hs & Hu & Hk).
    cbn [map]. exists (string_of_list_ascii u), (string_of_list_ascii k).
    rewrite !list_ascii_of_string_of_list_ascii. repeat split; auto.
    rewrite <- (string_of_list_ascii_of_string ID). fold s. rewrite Hs.
    rewrite string_of_list_ascii_app. reflexivity.
  - pose proof (genSplit_length "," _ s eq_refl) as Hlen.
    destruct (genSplit_loop (strings_Count_byte s ",") s ",") as [|p0 [|p1 [|p2 l]]];
      cbn [map]; try (split; [exact Hne | reflexivity]).
    cbn [length] in Hlen. exfalso. apply Hne. lia.
Qed.

Lemma accessKey_ImportState_joined (userName accessKeyID : string) :
  ~ In ","%char (list_ascii_of_string userName) ->
  ~ In ","%char (list_ascii_of_string accessKeyID) ->
  accessKey_ImportState (userName ++ "," ++ accessKeyID)
  = Imported [("id", accessKeyID); ("user_name", userName);
              ("access_key_id", accessKeyID)]%string.
Proof.
  intros Hu Hk. unfold accessKey_ImportState, strings_Split_byte.
  rewrite list_ascii_of_string_app.
  change (list_ascii_of_string ("," ++ accessKeyID))
    with (","%char :: list_ascii_of_string accessKeyID).
  set (u := list_ascii_of_string userName) in *.
  set (k := list_ascii_of_string accessKeyID) in *.
  assert (Hcount : strings_Count_byte (u ++ ","%char :: k) "," = 1%nat).
  { rewrite count_app. change (","%char :: k) with ([","%char] ++ k). rewrite count_app.
    rewrite (proj2 (count_none "," u) Hu), (proj2 (count_none "," k) Hk). reflexivity. }
  rewrite Hcount.
  destruct (genSplit_one "," _ Hcount) as (u' & k' & -> & Hs & Hu' & Hk').
  assert (Huk : u' = u /\ k' = k).
  { clear Hcount. revert u' Hs Hu'. induction u as [|c u IH]; intros [|c' u'] Hs Hu'.
    - injection Hs as <-. auto.
    - exfalso. injection Hs as <- _. apply Hu'. left. reflexivity.
    - exfalso. injection Hs as -> _. apply Hu. left. reflexivity.
    - injection Hs as -> Hs. destruct (IH (fun H => Hu (or_intror H)) u' Hs
                                         (fun H => Hu' (or_intror H))) as [-> ->]. auto. }
  destruct Huk as [-> ->]. cbn [map]. subst u k.
  rewrite !string_of_list_ascii_of_string. reflexivity.
Qed.

(** [ImportState] of an access key accepts exactly the ids with one comma
    and takes them apart at it: the user name before the comma, the access
    key id after it, either of which may be empty. Every pair of a user
    name and an access key id without commas is imported from the two
    joined by a comma; an id with no comma or with several is rejected. *)
Theorem accessKey_ImportState_format :
  (forall userName accessKeyID : string,
      ~ In ","%char (list_ascii_of_string userName) ->
      ~ In ","%char (list_ascii_of_string accessKeyID) ->
      accessKey_ImportState (userName ++ "," ++ accessKeyID)
      = Imported [("id", accessKeyID); ("user_name", userName);
                  ("access_key_id", accessKeyID)]%string)
  /\ (forall ID : string,
         match accessKey_ImportState ID with
         | Imported attributes =>
             exists userName accessKeyID,
               ID = (userName ++ "," ++ accessKeyID)%string
               /\ ~ In ","%char (list_ascii_of_string userName)
               /\ ~ In ","%char (list_ascii_of_string accessKeyID)
               /\ attributes = [("id", accessKeyID); ("user_name", userName);
                                ("access_key_id", accessKeyID)]%string
         | ImportFailed summary detail =>
             strings_Count_byte (list_ascii_of_string ID) "," <> 1%nat
             /\ summary = "Invalid import ID"%string
         end).
Proof.
  split; [exact accessKey_ImportState_joined | exact accessKey_ImportState_accepted].
Qed.

Lemma accessKey_ImportState_format_witness :
  accessKey_ImportState "alice,AKIA42"
  = Imported [("id", "AKIA42"); ("user_name", "alice"); ("access_key_id", "AKIA42")]%string.
Proof.
  apply (proj1 accessKey_ImportState_format "alice" "AKIA42").
  - cbn. intros H. repeat (destruct H as [H|H]; [discriminate H|]). exact H.
  - cbn. intros H. repeat (destruct H as [H|H]; [discriminate H|]). exact H.
Defined.

(* ------------------------------------------------------------------ *)
(** ** [Read] of the access key and user resources *)

Lemma find_access_key_spec (keys : list iamAccessKeyMetadata) (accessKeyID : string) :
  (find_access_key keys accessKeyID = (false, ""%string)
   /\ forall key, In key keys -> meta_AccessKeyID key <> accessKeyID)
  \/ exists before key after,
      keys = before ++ key :: after
      /\ (forall other, In other before -> meta_AccessKeyID other <> accessKeyID)
      /\ meta_AccessKeyID key = accessKeyID
      /\ find_access_key keys accessKeyID = (true, meta_Status key).
Proof.
  induction keys as [|key keys IH].
  { left. split; [reflexivity|]. intros key []. }
  cbn [find_access_key].
  destruct (String.eqb_spec (meta_AccessKeyID key) accessKeyID) as [Heq|Hne].
  - right. exists [], key, keys. repeat split; auto.
    all: try (intros other []).
  - destruct IH as [[Hf Hnone]|(before & key' & after & -> & Hb & Hk & Hf)].
    + left. split; [exact Hf|]. intros other [<-|Hin]; [exact Hne | exact (Hnone other Hin)].
    + right. exists (key :: before), key', after. repeat split; auto.
      intros other [<-|Hin]; [exact Hne | exact (Hb other Hin)].
Qed.

(** When the keys of the user are listed, [Read] of an access key removes
    the resource exactly when no listed key has its access key id;
    otherwise it takes the status of the first such key, and keeps the
    user name, the access key id and the secret of the state. *)
Theorem accessKey_Read_listed
    (xml_envelope : list ascii -> option iamErrorEnvelope)
    (xml_direct : list ascii -> option iamAPIError)
    (network : request -> exchange)
    (xml_keys : list ascii -> result (list iamAccessKeyMetadata))
    (client : iamClient) (state : iamAccessKeyResourceModel)
    (keys : list iamAccessKeyMetadata) :
  ListAccessKeys xml_envelope xml_direct network xml_keys client (key_UserName state)
  = Ok keys ->
  match accessKey_Read xml_envelope xml_direct network xml_keys client state with
  | Removed =>
      forall key, In key keys -> meta_AccessKeyID key <> key_AccessKeyID state
  | NewState m =>
      exists before key after,
        keys = before ++ key :: after
        /\ (forall other, In other before ->
                          meta_AccessKeyID other <> key_AccessKeyID state)
        /\ meta_AccessKeyID key = key_AccessKeyID state
        /\ m = {| key_ID := key_AccessKeyID state;
                  key_UserName := key_UserName state;
                  key_AccessKeyID := key_AccessKeyID state;
                  key_SecretAccessKey := key_SecretAccessKey state;
                  key_Status := meta_Status key |}
  | Failed _ _ => False
  end.
Proof.
  intros Hlist. unfold accessKey_Read. rewrite Hlist.
  destruct (find_access_key_spec keys (key_AccessKeyID state))
    as [[-> Hnone]|(before & key & after & Hk & Hb & Hm & ->)]; cbn [negb].
  - exact Hnone.
  - exists before, key, after. auto.
Qed.

Lemma accessKey_Read_listed_witness :
  exists before key after,
    [IamAccessKeyMetadata "alice" "AKIA1" "Inactive";
     IamAccessKeyMetadata "alice" "AKIA2" "Active";
     IamAccessKeyMetadata "alice" "AKIA2" "Inactive"] = before ++ key :: after
    /\ (forall other, In other before -> meta_AccessKeyID other <> "AKIA2"%string)
    /\ meta_AccessKeyID key = "AKIA2"%string
    /\ IamAccessKeyResourceModel "AKIA2" "alice" "AKIA2" "secret" "Active"
       = IamAccessKeyResourceModel "AKIA2" "alice" "AKIA2" "secret" (meta_Status key).
Proof.
  exact (accessKey_Read_listed sample_xml_envelope sample_xml_direct
           (always_answers 200 []) sample_keys local_client
           (IamAccessKeyResourceModel "AKIA2" "alice" "AKIA2" "secret" "")
           [IamAccessKeyMetadata "alice" "AKIA1" "Inactive";
            IamAccessKeyMetadata "alice" "AKIA2" "Active";
            IamAccessKeyMetadata "alice" "AKIA2" "Inactive"] eq_refl).
Defined.

(** [Read] of a user never stores an empty path: the path is the one the
    server returns, else the one of the state, else ["/"]; the id and the
    name are both the user name the server returns. *)
Theorem user_Read_path
    (xml_envelope : list ascii -> option iamErrorEnvelope)
    (xml_direct : list ascii -> option iamAPIError)
    (network : request -> exchange) (xml_user : list ascii -> result iamUser)
    (client : iamClient) (state m : iamUserResourceModel) :
  user_Read xml_envelope xml_direct network xml_user client state = NewState m ->
  exists user,
    GetUser xml_envelope xml_direct network xml_user client (usr_Name state) = Ok user
    /\ usr_Path m = first_nonempty [user_Path user; usr_Path state; "/"%string]
    /\ usr_Path m <> ""%string
    /\ usr_ID m = user_UserName user /\ usr_Name m = user_UserName user.
Proof.
  unfold user_Read.
  destruct (GetUser xml_envelope xml_direct network xml_user client (usr_Name state))
    as [user|err]; [|destruct (isNoSuchEntityError (Some err)); discriminate].
  intros [= <-]. exists user. cbn [usr_Path usr_ID usr_Name first_nonempty].
  split; [reflexivity|].
  destruct (String.eqb_spec (user_Path user) ""), (String.eqb_spec (usr_Path state) "");
    repeat split; auto; discriminate.
Qed.

Lemma user_Read_path_witness :
  exists user,
    GetUser sample_xml_envelope sample_xml_direct (always_answers 200 []) sample_user
            local_client "alice" = Ok user
    /\ "/"%string = first_nonempty [user_Path user; ""%string; "/"%string]
    /\ "/"%string <> ""%string
    /\ "alice"%string = user_UserName user /\ "alice"%string = user_UserName user.
Proof.
  apply (user_Read_path sample_xml_envelope sample_xml_direct (always_answers 200 [])
           sample_user local_client (IamUserResourceModel "alice" "alice" "" "" "")
           (IamUserResourceModel "alice" "alice" "/" "arn:aws:iam:::user/alice" "alice")).
  reflexivity.
Defined.

(* ------------------------------------------------------------------ *)
(** ** The endpoint of a client and [Configure] *)

Lemma trim_right_byte_rev_spec (c : ascii) (rs : list ascii) :
  exists k, rev rs = trim_right_byte_rev c rs ++ repeat c k
            /\ forall t, trim_right_byte_rev c rs <> t ++ [c].
Proof.
  induction rs as [|x rs (k & Hk & Hlast)].
  - exists 0%nat. split; [reflexivity|]. intros [|y t]; discriminate.
  - cbn [trim_right_byte_rev rev]. destruct (Ascii.eqb_spec x c) as [->|Hne].
    + exists (Datatypes.S k). split; [|exact Hlast].
      rewrite Hk, <- app_assoc, <- repeat_cons. reflexivity.
    + exists 0%nat. rewrite app_nil_r. split; [reflexivity|].
      intros t Ht. apply app_inj_tail in Ht as [_ Hx]. contradiction.
Qed.

(** The endpoint of a client is the configured endpoint without its
    trailing slashes: it never ends with a slash, and it is empty when the
    configured endpoint consists of slashes only, which [newIAMClient]
    accepts. The region of a client is never empty. *)
Theorem newIAMClient_endpoint (cfg : iamClientConfig) (c : iamClient) :
  newIAMClient cfg = Ok c ->
  (exists k, list_ascii_of_string (Endpoint cfg)
             = list_ascii_of_string (endpoint c) ++ repeat "/"%char k)
  /\ (forall t, list_ascii_of_string (endpoint c) <> t ++ ["/"%char])
  /\ region c <> ""%string.
Proof.
  unfold newIAMClient.
  destruct (String.eqb (Endpoint cfg) ""); [discriminate|].
  destruct (String.eqb (AccessKey cfg) "" || String.eqb (SecretKey cfg) "")%bool;
    [discriminate|].
  intros [= <-]. cbn [endpoint region]. unfold strings_TrimRight_byte.
  rewrite list_ascii_of_string_of_list_ascii.
  destruct (trim_right_byte_rev_spec "/" (rev (list_ascii_of_string (Endpoint cfg))))
    as (k & Hk & Hlast).
  rewrite rev_involutive in Hk. split; [exists k; exact Hk|]. split; [exact Hlast|].
  destruct (String.eqb_spec (Region cfg) ""); [discriminate | assumption].
Qed.

Lemma newIAMClient_endpoint_witness :
  (exists k, list_ascii_of_string "///"
             = list_ascii_of_string "" ++ repeat "/"%char k)
  /\ (forall t, list_ascii_of_string "" <> t ++ ["/"%char])
  /\ "us-east-1"%string <> ""%string.
Proof.
  apply (newIAMClient_endpoint (IamClientConfig "///" "" "key" "secret" false)
           (IamClient "" "us-east-1" (StaticCredentials "key" "secret" "") true
                      (HttpClient false (30 * Second)))).
  reflexivity.
Defined.

(** [Configure] fails exactly when the endpoint, the access key or the
    secret key is null, unknown or empty. Otherwise the region of the
    client is the configured one, or ["us-east-1"] when that is null,
    unknown or empty; certificates are checked unless [insecure] is known
    and true; and the provider data starts with an empty registry and
    every lock free, as the calls of [withUserLock] need it. *)
Theorem Configure_result (config : seaweedfsProviderModel) :
  match Configure config with
  | ConfigureFailed summary detail =>
      (ValueString (model_Endpoint config) = ""%string
       \/ ValueString (model_AccessKey config) = ""%string
       \/ ValueString (model_SecretKey config) = ""%string)
      /\ summary = "Unable to configure SeaweedFS IAM client"%string
      /\ detail = (if String.eqb (ValueString (model_Endpoint config)) ""
                   then "Failed to build client: endpoint is required"
                   else "Failed to build client: access_key and secret_key are required")%string
  | Configured client data =>
      ValueString (model_Endpoint config) <> ""%string
      /\ ValueString (model_AccessKey config) <> ""%string
      /\ ValueString (model_SecretKey config) <> ""%string
      /\ region client = first_nonempty [ValueString (model_Region config); "us-east-1"%string]
      /\ InsecureSkipVerify (http client) = ValueBool (model_Insecure config)
      /\ userLocks data = Some ∅
      /\ locks_free data /\ registry_valid data /\ registry_injective data
  end.
Proof.
  unfold Configure, newIAMClient. cbn [Endpoint Region AccessKey SecretKey Insecure].
  destruct (String.eqb_spec (ValueString (model_Endpoint config)) "") as [He|He].
  { split; [left; exact He | split; reflexivity]. }
  destruct (String.eqb_spec (ValueString (model_AccessKey config)) "") as [Ha|Ha].
  { cbn [orb]. split; [right; left; exact Ha | split; reflexivity]. }
  destruct (String.eqb_spec (ValueString (model_SecretKey config)) "") as [Hs|Hs].
  { cbn [orb]. split; [right; right; exact Hs | split; reflexivity]. }
  cbn [orb region http InsecureSkipVerify userLocks].
  split; [exact He|]. split; [exact Ha|]. split; [exact Hs|]. split.
  { destruct (model_Region config) as [| |s]; cbn; try reflexivity.
    destruct (String.eqb_spec s ""); cbn.
    - reflexivity.
    - destruct (String.eqb_spec s ""); [contradiction | reflexivity]. }
  split; [destruct (model_Insecure config); reflexivity|].
  split; [reflexivity|]. split; [|split].
  - split; [reflexivity|]. split; [reflexivity|].
    intros locks u l [= <-] Hu. rewrite lookup_empty in Hu. discriminate.
  - intros locks u l [= <-] Hu. rewrite lookup_empty in Hu. discriminate.
  - intros locks u1 u2 l [= <-] Hu. rewrite lookup_empty in Hu. discriminate.
Qed.

(* ------------------------------------------------------------------ *)
(** ** Bucket tags: what is put is what is read back *)

Lemma insert_string_perm (k : string) (l : list string) :
  Permutation (insert_string k l) (k :: l).
Proof.
  induction l as [|x l IH]; [reflexivity|]. cbn [insert_string].
  destruct (bytes_ltb _ _); [|reflexivity].
  rewrite IH. apply perm_swap.
Qed.

Lemma sort_strings_perm (l : list string) : Permutation (sort_strings l) l.
Proof.
  induction l as [|k l IH]; [reflexivity|].
  unfold sort_strings in *. cbn [fold_right].
  rewrite insert_string_perm. apply perm_skip, IH.
Qed.

Lemma fold_insert_other (l : list (string * string)) :
  forall (m : gmap string string) (k : string),
    ~ In k (map fst l) ->
    fold_left (fun tags kv => <[fst kv := snd kv]> tags) l m !! k = m !! k.
Proof.
  induction l as [|[k' v'] l IH]; intros m k Hk; [reflexivity|].
  cbn [fold_left fst snd map In] in *.
  rewrite IH by tauto. apply lookup_insert_ne. intros ->. apply Hk. left. reflexivity.
Qed.

Lemma fold_insert_member (l : list (string * string)) :
  forall (m : gmap string string) (k v : string),
    List.NoDup (map fst l) -> In (k, v) l ->
    fold_left (fun tags kv => <[fst kv := snd kv]> tags) l m !! k = Some v.
Proof.
  induction l as [|[k' v'] l IH]; intros m k v Hnd Hin; [destruct Hin|].
  cbn [map fst] in Hnd. apply NoDup_cons_iff in Hnd as [Hk' Hnd].
  cbn [fold_left fst snd]. destruct Hin as [[= -> ->]|Hin].
  - rewrite fold_insert_other by exact Hk'. apply lookup_insert_eq.
  - apply IH; assumption.
Qed.

Lemma fold_left_map {A B C : Type} (f : A -> C -> A) (g : B -> C) (l : list B) (a : A) :
  fold_left f (map g l) a = fold_left (fun a x => f a (g x)) l a.
Proof. revert a. induction l as [|x l IH]; intros a; [reflexivity | apply IH]. Qed.

Lemma tag_set_read_back (range_keys : list string) (tags : gmap string string) :
  Permutation range_keys (map fst (map_to_list tags)) ->
  GetBucketTags_tags (map (fun kv => (Some (fst kv), Some (snd kv)))
                          (PutBucketTags_tagSet range_keys tags)) = tags.
Proof.
  intros Hperm. unfold GetBucketTags_tags. rewrite fold_left_map. cbn [fst snd aws_ToString].
  assert (Hkeys : Permutation (sort_strings range_keys) (map fst (map_to_list tags)))
    by (rewrite sort_strings_perm; exact Hperm).
  assert (Hnd : List.NoDup (map fst (PutBucketTags_tagSet range_keys tags))).
  { unfold PutBucketTags_tagSet. rewrite map_map. cbn [fst]. rewrite map_id.
    apply (Permutation_NoDup (Permutation_sym Hkeys)).
    apply NoDup_ListNoDup, NoDup_fst_map_to_list. }
  apply map_eq. intros k. destruct (tags !! k) as [v|] eqn:Ek.
  - apply fold_insert_member; [exact Hnd|]. unfold PutBucketTags_tagSet.
    apply in_map_iff. exists k. rewrite Ek. split; [reflexivity|].
    apply (Permutation_in _ (Permutation_sym Hkeys)).
    apply in_map_iff. exists (k, v). split; [reflexivity|].
    apply list_elem_of_In, elem_of_map_to_list, Ek.
  - rewrite fold_insert_other; [apply lookup_empty|].
    unfold PutBucketTags_tagSet. rewrite map_map. cbn [fst]. rewrite map_id.
    intros Hin. apply (Permutation_in _ Hkeys) in Hin.
    apply in_map_iff in Hin as ([k' v] & Hk & Hin). cbn in Hk. subst k'.
    apply list_elem_of_In, elem_of_map_to_list in Hin. congruence.
Qed.

(** The tags of a bucket survive [PutBucketTags] and [GetBucketTags]: on a
    service that keeps the tag set it is sent, after a [PutBucketTags]
    that returns nil, [GetBucketTags] gives the map that was put; and what
    [PutBucketTags] sends and returns does not depend on the order in
    which the map hands out its keys. *)
Theorem bucket_tags_round_trip {Server : Type}
    (s3_GetBucketTagging : Server -> string -> result (list (option string * option string)))
    (s3_PutBucketTagging :
       Server -> string -> list (option string * option string) -> option error * Server)
    (isNoSuchTagSetError : error -> bool)
    (range_keys : list string) (srv srv' : Server) (name : string)
    (tags : gmap string string) :
  keeps_tag_sets s3_GetBucketTagging s3_PutBucketTagging ->
  Permutation range_keys (map fst (map_to_list tags)) ->
  PutBucketTags s3_PutBucketTagging range_keys srv name tags = (None, srv') ->
  GetBucketTags s3_GetBucketTagging isNoSuchTagSetError srv' name = Ok tags
  /\ PutBucketTags s3_PutBucketTagging range_keys srv name tags
     = PutBucketTags s3_PutBucketTagging (map fst (map_to_list tags)) srv name tags.
Proof.
  intros Hkeeps Hperm Hput. split.
  - unfold PutBucketTags in Hput.
    destruct (s3_PutBucketTagging srv name _) as [[err|] srv1] eqn:Hsent;
      [discriminate Hput|].
    injection Hput as <-. unfold GetBucketTags.
    rewrite (Hkeeps _ _ _ _ Hsent), (tag_set_read_back range_keys tags Hperm). reflexivity.
  - unfold PutBucketTags, PutBucketTags_tagSet.
    rewrite (sort_strings_permutation (map fst (map_to_list tags)) range_keys);
      [reflexivity | apply NoDup_ListNoDup, NoDup_fst_map_to_list | symmetry; exact Hperm].
Qed.

Lemma bucket_tags_round_trip_witness :
  GetBucketTags stored_tags (fun _ => false)
    (snd (PutBucketTags store_tags ["team"; "env"]%string ∅ "logs" sample_tags)) "logs"
  = Ok sample_tags.
Proof.
  apply (bucket_tags_round_trip stored_tags store_tags (fun _ => false)
           ["team"; "env"]%string ∅
           (snd (PutBucketTags store_tags ["team"; "env"]%string ∅ "logs" sample_tags))
           "logs" sample_tags).
  - intros srv srv' name tagSet [= <-]. unfold stored_tags.
    rewrite lookup_insert_eq. reflexivity.
  - apply (bool_decide_unpack _). vm_compute. exact I.
  - reflexivity.
Defined.

(* ------------------------------------------------------------------ *)
(** ** [strings.TrimSpace] on ASCII white space *)

Lemma asciiSpace_ascii (c : ascii) :
  asciiSpace c = true -> (RuneSelf <=? byte_val c)%Z = false.
Proof.
  unfold asciiSpace, RuneSelf. rewrite !Bool.orb_true_iff, !Z.eqb_eq.
  intros H. apply Z.leb_gt. lia.
Qed.

Lemma solid_spec (c : ascii) :
  solid c = true -> (RuneSelf <=? byte_val c)%Z = false /\ asciiSpace c = false.
Proof.
  unfold solid. intros H. apply andb_prop in H as [Hlt Hsp].
  apply Z.ltb_lt in Hlt. apply Bool.negb_true_iff in Hsp.
  split; [apply Z.leb_gt; exact Hlt | exact Hsp].
Qed.

Lemma TrimSpace_bytes_leading (w s : list ascii) :
  forallb asciiSpace w = true -> TrimSpace_bytes (w ++ s) = TrimSpace_bytes s.
Proof.
  induction w as [|c w IH]; [reflexivity|]. cbn [forallb app TrimSpace_bytes].
  intros H. apply andb_prop in H as [Hc Hw].
  rewrite (asciiSpace_ascii c Hc), Hc. exact (IH Hw).
Qed.

Lemma TrimSpace_stop_leading (rw rs : list ascii) :
  forallb asciiSpace rw = true -> TrimSpace_stop (rw ++ rs) = TrimSpace_stop rs.
Proof.
  induction rw as [|c rw IH]; [reflexivity|]. cbn [forallb app TrimSpace_stop].
  intros H. apply andb_prop in H as [Hc Hw].
  rewrite (asciiSpace_ascii c Hc), Hc. exact (IH Hw).
Qed.

Lemma forallb_rev {A : Type} (f : A -> bool) (l : list A) :
  forallb f (rev l) = forallb f l.
Proof.
  induction l as [|x l IH]; [reflexivity|]. cbn [rev forallb].
  rewrite forallb_app, IH. cbn [forallb]. rewrite Bool.andb_true_r. apply Bool.andb_comm.
Qed.

Lemma TrimSpace_bytes_spaces (w : list ascii) :
  forallb asciiSpace w = true -> TrimSpace_bytes w = [].
Proof.
  intros Hw. rewrite <- (app_nil_r w). rewrite (TrimSpace_bytes_leading w [] Hw). reflexivity.
Qed.

Lemma TrimSpace_bytes_core (w core w' : list ascii) :
  forallb asciiSpace w = true -> forallb asciiSpace w' = true ->
  solid_ends core = true ->
  TrimSpace_bytes (w ++ core ++ w') = core.
Proof.
  intros Hw Hw' Hcore. rewrite (TrimSpace_bytes_leading w _ Hw).
  destruct core as [|c core]; [apply TrimSpace_bytes_spaces, Hw'|].
  cbn [solid_ends] in Hcore. apply andb_prop in Hcore as [Hc Hlast].
  destruct (solid_spec c Hc) as [Hc1 Hc2].
  cbn [app TrimSpace_bytes]. rewrite Hc1, Hc2.
  change (c :: core ++ w') with ((c :: core) ++ w').
  rewrite rev_app_distr, (TrimSpace_stop_leading (rev w') _);
    [|rewrite forallb_rev; exact Hw'].
  destruct (exists_last (l := c :: core) ltac:(discriminate)) as (init & l & Hl).
  rewrite Hl in Hlast |- *. rewrite last_last in Hlast.
  destruct (solid_spec l Hlast) as [Hl1 Hl2].
  rewrite rev_app_distr. cbn [rev app TrimSpace_stop]. rewrite Hl1, Hl2.
  rewrite rev_involutive. reflexivity.
Qed.

(** [strings.TrimSpace] removes the ASCII white space around a string that
    starts and ends with an ASCII byte that is not white space, and
    nothing else, whatever bytes lie between the two; a string of ASCII
    white space becomes empty; and trimming the result again changes
    nothing. *)
Theorem strings_TrimSpace_ascii (w core w' : list ascii) :
  forallb asciiSpace w = true -> forallb asciiSpace w' = true ->
  solid_ends core = true ->
  strings_TrimSpace (string_of_list_ascii (w ++ core ++ w')) = string_of_list_ascii core
  /\ strings_TrimSpace (string_of_list_ascii core) = string_of_list_ascii core.
Proof.
  intros Hw Hw' Hcore. unfold strings_TrimSpace.
  rewrite !list_ascii_of_string_of_list_ascii, (TrimSpace_bytes_core w core w' Hw Hw' Hcore).
  split; [reflexivity|].
  pose proof (TrimSpace_bytes_core [] core [] eq_refl eq_refl Hcore) as H.
  cbn [app] in H. rewrite app_nil_r in H. rewrite H. reflexivity.
Qed.

Lemma strings_TrimSpace_ascii_witness :
  strings_TrimSpace "  upstream connect error  " = "upstream connect error"%string.
Proof.
  apply (strings_TrimSpace_ascii (list_ascii_of_string "  ")
           (list_ascii_of_string "upstream connect error") (list_ascii_of_string "  "));
    reflexivity.
Defined.

